(** * mcp-filesystem: the path sandbox and the filesystem operations of
    [src/main.py], embedded over a model of a POSIX directory tree.

    The handlers of [main.py] call [pathlib], [os] and [shutil]; the
    behaviour of those calls is modelled here (CPython 3.10 to 3.12 on
    POSIX) over an explicit directory tree with symbolic links, special
    files and, on directories, the read and search permission of the
    server process.  The handlers themselves are transcribed statement by
    statement in [Module Server]. *)

From Stdlib Require Import ZArith List String Ascii Bool Lia Arith.
From Stdlib Require Import DecimalString.
From Stdlib.Strings Require Byte.
Import ListNotations.

Set Warnings "-register-all".
Set Implicit Arguments.

Open Scope string_scope.
Open Scope list_scope.

(** ** Python values: text, exceptions, outcomes *)

Module Py.

(** Python [str] used for paths and messages is a Rocq [string]; the text
    written to and read from files is a list of Unicode code points. *)
Definition text := list Z.
Definition bytes := list Byte.byte.

Definition str_Z (z : Z) : string := NilZero.string_of_int (Z.to_int z).

(** [sep.join(l)] *)
Fixpoint join (sep : string) (l : list string) : string :=
  match l with
  | [] => ""
  | [s] => s
  | s :: l' => s ++ sep ++ join sep l'
  end.

(** [s.split("/")]: the pieces between slashes, empty pieces kept. *)
Fixpoint split_slash (s : string) : list string :=
  match s with
  | EmptyString => [""]
  | String c s' =>
      if Ascii.eqb c "/" then "" :: split_slash s'
      else match split_slash s' with
           | [] => [String c ""]
           | w :: ws => String c w :: ws
           end
  end.

(** [s.startswith(".")] and [s.startswith("/")] *)
Definition startswith (c : ascii) (s : string) : bool :=
  match s with
  | String c' _ => Ascii.eqb c' c
  | EmptyString => false
  end.

(** [s.endswith("/")] *)
Fixpoint endswith (c : ascii) (s : string) : bool :=
  match s with
  | EmptyString => false
  | String c' EmptyString => Ascii.eqb c' c
  | String _ s' => endswith c s'
  end.

Fixpoint has_nul (s : string) : bool :=
  match s with
  | EmptyString => false
  | String c s' => Ascii.eqb c zero || has_nul s'
  end.

(** [repr(s)] for the strings that occur in messages (no quote inside). *)
Definition repr (s : string) : string := "'" ++ s ++ "'".

Inductive errno :=
| ENOENT | ENXIO | EACCES | EBUSY | EEXIST | ENOTDIR | EISDIR
| ENOTEMPTY | ELOOP.

Definition errno_number (e : errno) : Z :=
  match e with
  | ENOENT => 2 | ENXIO => 6 | EACCES => 13 | EBUSY => 16 | EEXIST => 17
  | ENOTDIR => 20 | EISDIR => 21 | ENOTEMPTY => 39 | ELOOP => 40
  end.

Definition strerror (e : errno) : string :=
  match e with
  | ENOENT => "No such file or directory"
  | ENXIO => "No such device or address"
  | EACCES => "Permission denied"
  | EBUSY => "Device or resource busy"
  | EEXIST => "File exists"
  | ENOTDIR => "Not a directory"
  | EISDIR => "Is a directory"
  | ENOTEMPTY => "Directory not empty"
  | ELOOP => "Too many levels of symbolic links"
  end.

(** The exceptions that reach the handlers.  [OSError] stands for the
    whole [OSError] family: Python picks the subclass from the errno
    ([PermissionError] for EACCES, [FileNotFoundError] for ENOENT, ...).
    All of them derive from [Exception]. *)
Inductive exn :=
| HTTPException (status_code : Z) (detail : string)
| OSError (e : errno) (filename : string)
| OSErrorMsg (msg : string)
| ValueError (msg : string)
| RuntimeError (msg : string)
| LookupError (msg : string)
| UnicodeDecodeError (encoding : string)
| UnicodeEncodeError (encoding : string).

(** [isinstance(e, PermissionError)] *)
Definition is_PermissionError (e : exn) : bool :=
  match e with
  | OSError EACCES _ => true
  | _ => false
  end.

(** [isinstance(e, FileNotFoundError)] *)
Definition is_FileNotFoundError (e : exn) : bool :=
  match e with
  | OSError ENOENT _ => true
  | _ => false
  end.

(** [isinstance(e, OSError)] *)
Definition is_OSError (e : exn) : bool :=
  match e with
  | OSError _ _ | OSErrorMsg _ => true
  | _ => false
  end.

(** [isinstance(e, UnicodeDecodeError)] *)
Definition is_UnicodeDecodeError (e : exn) : bool :=
  match e with
  | UnicodeDecodeError _ => true
  | _ => false
  end.

(** [str(e)].  Starlette's [HTTPException.__str__] gives
    ["{status_code}: {detail}"]; [OSError] prints errno, message and file
    name.  The codec errors print an abbreviated message. *)
Definition str_exn (e : exn) : string :=
  match e with
  | HTTPException s d => str_Z s ++ ": " ++ d
  | OSError e f =>
      "[Errno " ++ str_Z (errno_number e) ++ "] " ++ strerror e ++ ": " ++ repr f
  | OSErrorMsg m | ValueError m | RuntimeError m | LookupError m => m
  | UnicodeDecodeError enc => repr enc ++ " codec can't decode bytes"
  | UnicodeEncodeError enc => repr enc ++ " codec can't encode characters"
  end.

(** What a call produces: a value, or a raised exception. *)
Inductive outcome (A : Type) :=
| Return (a : A)
| Raise (e : exn).
Arguments Return {A} a.
Arguments Raise {A} e.

Definition bind {A B} (m : outcome A) (k : A -> outcome B) : outcome B :=
  match m with
  | Return a => k a
  | Raise e => Raise e
  end.

(** [try: m  except <cls> as e: h e], for the class recognised by [cls]. *)
Definition try_except {A} (m : outcome A) (cls : exn -> bool)
    (h : exn -> outcome A) : outcome A :=
  match m with
  | Raise e => if cls e then h e else Raise e
  | r => r
  end.

(** [except Exception]: every exception of the model. *)
Definition Exception (_ : exn) : bool := true.

(** [s.split(sep)] for a separator of one character: the pieces between
    the separators, empty pieces kept. *)
Fixpoint split_char (sep : ascii) (s : string) : list string :=
  match s with
  | EmptyString => [""]
  | String c s' =>
      if Ascii.eqb c sep then "" :: split_char sep s'
      else match split_char sep s' with
           | [] => [String c ""]
           | w :: ws => String c w :: ws
           end
  end.

(** [c.isspace()] for the characters of a Rocq [string], the code points
    below 256: the ASCII white space with the four separators U+001C to
    U+001F, the next-line character U+0085 and the no-break space
    U+00A0. *)
Definition isspace (c : ascii) : bool :=
  let n := nat_of_ascii c in
  (Nat.leb 9 n && Nat.leb n 13) || (Nat.leb 28 n && Nat.leb n 32)
  || Nat.eqb n 133 || Nat.eqb n 160.

(** [s.lstrip()], [s.rstrip()] and [s.strip()] *)
Fixpoint lstrip (s : string) : string :=
  match s with
  | String c s' => if isspace c then lstrip s' else s
  | EmptyString => EmptyString
  end.

Fixpoint rstrip (s : string) : string :=
  match s with
  | String c s' =>
      match rstrip s' with
      | EmptyString => if isspace c then EmptyString else String c EmptyString
      | t => String c t
      end
  | EmptyString => EmptyString
  end.

Definition strip (s : string) : string := rstrip (lstrip s).

End Py.
Export Py.

Declare Scope py_scope.
Delimit Scope py_scope with py.
Notation "x <- m ;; k" := (bind m (fun x => k))
  (at level 100, m at next level, right associativity) : py_scope.
Notation "'do' m ;; k" := (bind m (fun _ => k))
  (at level 100, m at next level, right associativity) : py_scope.
Open Scope py_scope.

(** ** The directory tree *)

Module PosixFS.

(** A path of the model is the list of its components below [/]. *)
Definition Path := list string.

Definition str_path (p : Path) : string := "/" ++ join "/" p.

(** [p.parent] (the root is its own parent) and [p.name] *)
Definition parent (p : Path) : Path := removelast p.
Definition name_of (p : Path) : string := last p "".

(** One filesystem object.  A directory carries the read permission
    (needed to enumerate it) and the search permission (needed to reach
    its entries) that the server process has on it, and its entries in
    enumeration order.  [Special] stands for a socket (neither regular
    file nor directory). *)
Inductive node :=
| File (content : bytes)
| Dir (r x : bool) (entries : list (string * node))
| Symlink (target : string)
| Special.

Definition entries := list (string * node).

Fixpoint assoc (name : string) (es : entries) : option node :=
  match es with
  | [] => None
  | (n, v) :: es' => if String.eqb n name then Some v else assoc name es'
  end.

(** Physical lookup: no link is followed, no permission is checked. *)
Fixpoint lookup (n : node) (p : Path) : option node :=
  match p with
  | [] => Some n
  | c :: p' =>
      match n with
      | Dir _ _ es =>
          match assoc c es with
          | Some n' => lookup n' p'
          | None => None
          end
      | _ => None
      end
  end.

Fixpoint count_links (n : node) : nat :=
  match n with
  | Symlink _ => 1
  | Dir _ _ es =>
      (fix go (es : entries) : nat :=
         match es with
         | [] => 0
         | (_, c) :: es' => count_links c + go es'
         end) es
  | _ => 0
  end.

(** The kernel's path walk.  [Found q n]: the walk ends on the object [n]
    whose physical path is [q]; [Missing q name]: every component but the
    last exists and [name] is absent from the directory [q]. *)
Inductive walk :=
| Found (phys : Path) (n : node)
| Missing (dir : Path) (name : string)
| Fail (e : errno).

Definition MAXSYMLINKS : nat := 40.

Definition is_nil {A} (l : list A) : bool :=
  match l with [] => true | _ => false end.

(** [namei links root follow cur rest] walks the components [rest] from
    the directory [cur]; [follow] tells whether a link in last position is
    followed ([stat]) or returned ([lstat]); [links] bounds the number of
    links followed (ELOOP beyond). *)
Fixpoint namei (links : nat) (root : node) (follow : bool)
    : Path -> list string -> walk :=
  fix go (cur : Path) (rest : list string) {struct rest} : walk :=
    match rest with
    | [] =>
        match lookup root cur with
        | Some n => Found cur n
        | None => Fail ENOENT
        end
    | name :: rest' =>
        match lookup root cur with
        | Some (Dir _ x es) =>
            if negb x then Fail EACCES
            else if String.eqb name ".." then go (parent cur) rest'
            else if String.eqb name "." || String.eqb name "" then go cur rest'
            else
              match assoc name es with
              | None => if is_nil rest' then Missing cur name else Fail ENOENT
              | Some (Symlink tgt) =>
                  if is_nil rest' && negb follow
                  then Found (cur ++ [name]) (Symlink tgt)
                  else
                    match links with
                    | O => Fail ELOOP
                    | S l =>
                        namei l root follow
                          (if startswith "/" tgt then [] else cur)
                          (split_slash tgt ++ rest')
                    end
              | Some _ => go (cur ++ [name]) rest'
              end
        | Some _ => Fail ENOTDIR
        | None => Fail ENOENT
        end
    end.

Definition stat_walk (root : node) (p : Path) : walk :=
  namei MAXSYMLINKS root true [] p.
Definition lstat_walk (root : node) (p : Path) : walk :=
  namei MAXSYMLINKS root false [] p.

(** Updates of the tree at a physical path.  [set_entry] rebinds the
    first entry called [name], or adds one at the end of the enumeration;
    [del_entry] removes the entries called [name]. *)
Fixpoint set_entry (name : string) (v : node) (es : entries) : entries :=
  match es with
  | [] => [(name, v)]
  | (n, c) :: es' =>
      if String.eqb n name then (n, v) :: es'
      else (n, c) :: set_entry name v es'
  end.

Fixpoint del_entry (name : string) (es : entries) : entries :=
  match es with
  | [] => []
  | (n, c) :: es' =>
      if String.eqb n name then del_entry name es'
      else (n, c) :: del_entry name es'
  end.

(** [put root p (Some v)] binds the physical path [p] to [v], [put root p
    None] removes it; the directory that holds [p] must exist. *)
Fixpoint put (n : node) (p : Path) (v : option node) : node :=
  match p with
  | [] => match v with Some n' => n' | None => n end
  | c :: p' =>
      match n with
      | Dir r x es =>
          match p' with
          | [] =>
              Dir r x (match v with
                       | Some n' => set_entry c n' es
                       | None => del_entry c es
                       end)
          | _ :: _ =>
              match assoc c es with
              | Some n' => Dir r x (set_entry c (put n' p' v) es)
              | None => n
              end
          end
      | _ => n
      end
  end.

(** *** System calls *)

(** A call that may change the tree returns the new tree with its
    outcome. *)
Definition io (A : Type) := node -> node * outcome A.

Definition fail_with {A} (e : errno) (p : Path) : outcome A :=
  Raise (OSError e (str_path p)).

(** [os.stat(p)] and [os.lstat(p)]: the object the path leads to. *)
Definition os_stat (root : node) (p : Path) : outcome node :=
  match stat_walk root p with
  | Found _ n => Return n
  | Missing _ _ => fail_with ENOENT p
  | Fail e => fail_with e p
  end.

Definition os_lstat (root : node) (p : Path) : outcome node :=
  match lstat_walk root p with
  | Found _ n => Return n
  | Missing _ _ => fail_with ENOENT p
  | Fail e => fail_with e p
  end.

(** [os.listdir(p)]: the names of a readable directory. *)
Definition os_listdir (root : node) (p : Path) : outcome (list string) :=
  match stat_walk root p with
  | Found _ (Dir r _ es) =>
      if r then Return (map fst es) else fail_with EACCES p
  | Found _ _ => fail_with ENOTDIR p
  | Missing _ _ => fail_with ENOENT p
  | Fail e => fail_with e p
  end.

(** [os.unlink(p)] *)
Definition os_unlink (p : Path) : io unit := fun root =>
  match lstat_walk root p with
  | Found _ (Dir _ _ _) => (root, fail_with EISDIR p)
  | Found q _ => (put root q None, Return tt)
  | Missing _ _ => (root, fail_with ENOENT p)
  | Fail e => (root, fail_with e p)
  end.

(** [os.rmdir(p)]: only an empty directory, never the root. *)
Definition os_rmdir (p : Path) : io unit := fun root =>
  match lstat_walk root p with
  | Found [] _ => (root, fail_with EBUSY p)
  | Found q (Dir _ _ []) => (put root q None, Return tt)
  | Found _ (Dir _ _ (_ :: _)) => (root, fail_with ENOTEMPTY p)
  | Found _ _ => (root, fail_with ENOTDIR p)
  | Missing _ _ => (root, fail_with ENOENT p)
  | Fail e => (root, fail_with e p)
  end.

(** [os.mkdir(p)]: a new, empty directory with all permissions. *)
Definition os_mkdir (p : Path) : io unit := fun root =>
  match lstat_walk root p with
  | Found _ _ => (root, fail_with EEXIST p)
  | Missing q name => (put root (q ++ [name]) (Some (Dir true true [])), Return tt)
  | Fail e => (root, fail_with e p)
  end.

(** [open(p, "w")]: creates or truncates a regular file and gives its
    physical path. *)
Definition os_open_w (p : Path) : io Path := fun root =>
  match stat_walk root p with
  | Found q (File _) => (put root q (Some (File [])), Return q)
  | Found _ (Dir _ _ _) => (root, fail_with EISDIR p)
  | Found _ Special => (root, fail_with ENXIO p)
  | Found _ (Symlink _) => (root, fail_with ELOOP p)
  | Missing q name => (put root (q ++ [name]) (Some (File [])), Return (q ++ [name]))
  | Fail e => (root, fail_with e p)
  end.

(** [open(p, "r")]: the bytes of a regular file. *)
Definition os_open_r (root : node) (p : Path) : outcome bytes :=
  match stat_walk root p with
  | Found _ (File b) => Return b
  | Found _ (Dir _ _ _) => fail_with EISDIR p
  | Found _ Special => fail_with ENXIO p
  | Found _ (Symlink _) => fail_with ELOOP p
  | Missing _ _ => fail_with ENOENT p
  | Fail e => fail_with e p
  end.

(** *** Walks that follow no link *)

(** A component that names an entry: not empty, not [.], not [..]. *)
Definition regular (name : string) : bool :=
  negb (String.eqb name "" || String.eqb name "." || String.eqb name "..").

(** The walk of [rest] from the object [n] at [cur], entry by entry,
    through searchable directories. *)
Fixpoint pwalk (n : node) (cur : Path) (rest : list string) : walk :=
  match rest with
  | [] => Found cur n
  | c :: rest' =>
      match n with
      | Dir _ x es =>
          if negb x then Fail EACCES
          else
            match assoc c es with
            | Some n' => pwalk n' (cur ++ [c]) rest'
            | None => if is_nil rest' then Missing cur c else Fail ENOENT
            end
      | _ => Fail ENOTDIR
      end
  end.

(** [clean final_link n p]: the components of [p] are regular, and as
    far as they can be walked from [n] none of them is a link, except,
    when [final_link] holds, the last one. *)
Fixpoint clean (final_link : bool) (n : node) (p : Path) : bool :=
  match p with
  | [] => true
  | c :: p' =>
      regular c &&
      match n with
      | Dir _ true es =>
          match assoc c es with
          | Some (Symlink _) => final_link && is_nil p'
          | Some n' => clean final_link n' p'
          | None => forallb regular p'
          end
      | _ => forallb regular p'
      end
  end.

(** The link found at the end of a walk, if the walk ends on a link. *)
Definition link_of (w : walk) : option string :=
  match w with
  | Found _ (Symlink t) => Some t
  | _ => None
  end.

(** The test of [clean] on the entry found for a component. *)
Definition clean_entry (lk : bool) (o : option node) (p : Path) : bool :=
  match o with
  | Some (Symlink _) => lk && is_nil p
  | Some n' => clean lk n' p
  | None => forallb regular p
  end.

(** The outcome of [os.stat] or [os.lstat] for a walk of the path [p]. *)
Definition lift_walk (p : Path) (w : walk) : outcome node :=
  match w with
  | Found _ n => Return n
  | Missing _ _ => fail_with ENOENT p
  | Fail e => fail_with e p
  end.

(** The links among the entries of a directory. *)
Definition count_entries (es : entries) : nat :=
  list_sum (map (fun e => count_links (snd e)) es).

(** A new object made by [mkdir] or by opening a file for writing, and a
    place where one can be put: nothing is there, or a regular file. *)
Definition fresh (v : node) : Prop :=
  v = Dir true true [] \/ exists b, v = File b.

Definition replaceable (n : node) (q : Path) : Prop :=
  lookup n q = None \/ exists b, lookup n q = Some (File b).

(** [extends root root']: [root'] is [root] after regular files were
    created or rewritten and empty directories created. *)
Inductive extends : node -> node -> Prop :=
| extends_refl root : extends root root
| extends_put root root' q v :
    extends root root' ->
    fresh v ->
    replaceable root' q ->
    extends root (put root' q (Some v)).

End PosixFS.
Export PosixFS.

(** ** [pathlib] and [shutil] over the tree *)

Module Pathlib.

(** [pathlib._ignore_error]: the errnos that [exists], [is_dir] and
    [is_file] turn into [False]; any other error is raised. *)
Definition ignore_error (e : errno) : bool :=
  match e with
  | ENOENT | ENOTDIR | ELOOP => true
  | _ => false
  end.

(** [Path.stat()] *)
Definition stat (root : node) (p : Path) : outcome node := os_stat root p.

(** [st.st_size]; only the size of a regular file is ever used. *)
Definition st_size (n : node) : Z :=
  match n with
  | File b => Z.of_nat (List.length b)
  | _ => 4096
  end.

(** [try: st = self.stat()  except OSError as e: if not _ignore_error(e):
    raise; return False], then the test [test] on the result. *)
Definition stat_test (test : node -> bool) (root : node) (p : Path)
    : outcome bool :=
  match stat root p with
  | Return n => Return (test n)
  | Raise (OSError e f) =>
      if ignore_error e then Return false else Raise (OSError e f)
  | Raise e => Raise e
  end.

Definition S_ISDIR (n : node) : bool :=
  match n with Dir _ _ _ => true | _ => false end.
Definition S_ISREG (n : node) : bool :=
  match n with File _ => true | _ => false end.

(** [Path.exists()], [Path.is_dir()], [Path.is_file()] *)
Definition exists_ : node -> Path -> outcome bool := stat_test (fun _ => true).
Definition is_dir : node -> Path -> outcome bool := stat_test S_ISDIR.
Definition is_file : node -> Path -> outcome bool := stat_test S_ISREG.

(** [Path.iterdir()]: the children, as names to append to the path. *)
Definition iterdir (root : node) (p : Path) : outcome (list string) :=
  names <- os_listdir root p ;;
  Return (filter (fun n => negb (String.eqb n "." || String.eqb n "..")) names).

Definition Path_eqb (p q : Path) : bool :=
  if list_eq_dec string_dec p q then true else false.

(** [posixpath.join(a, b)]: a second part that starts with a slash
    replaces the first. *)
Definition posix_join (a b : string) : string :=
  if startswith "/" b then b
  else if String.eqb a "" || endswith "/" a then a ++ b
  else a ++ "/" ++ b.

(** What [posixpath._joinrealpath] returns: the resolved path with
    [True], or, with [False], the text of a path that was left
    unresolved because a link loop was met. *)
Inductive realpath :=
| Resolved (path : Path)
| Unresolved (path : string).

(** [posixpath._joinrealpath] in non-strict mode: [path] is the part
    resolved so far, [rest] the components still to walk (the text that
    is still to be split is [join "/" rest]), [seen] the links being
    resolved.  A component that cannot be [lstat]ed is kept as it is;
    [..] drops the last resolved component; a link is replaced by the
    resolution of its target.  When a link is met again while it is
    being resolved, the walk stops and returns the link joined with the
    text that was left, and every enclosing call joins what it had left
    itself.  At most [fuel] links are resolved inside one another; with
    [fuel] the number of links of the tree that bound is not reached
    before [seen] finds the loop. *)
Fixpoint joinrealpath (fuel : nat) (root : node) (seen : list Path)
    : Path -> list string -> outcome realpath :=
  fix go (path : Path) (rest : list string) {struct rest}
      : outcome realpath :=
    match rest with
    | [] => Return (Resolved path)
    | name :: rest' =>
        if String.eqb name "" || String.eqb name "." then go path rest'
        else if String.eqb name ".." then go (parent path) rest'
        else if has_nul name then Raise (ValueError "embedded null byte")
        else
          let newpath := path ++ [name] in
          match os_lstat root newpath with
          | Return (Symlink tgt) =>
              if existsb (Path_eqb newpath) seen
              then Return (Unresolved
                             (posix_join (str_path newpath) (join "/" rest')))
              else
                match fuel with
                | O => Return (Unresolved
                                 (posix_join (str_path newpath) (join "/" rest')))
                | S fuel' =>
                    match joinrealpath fuel' root (newpath :: seen)
                            (if startswith "/" tgt then [] else path)
                            (split_slash tgt) with
                    | Return (Resolved p) => go p rest'
                    | Return (Unresolved s) =>
                        Return (Unresolved (posix_join s (join "/" rest')))
                    | Raise e => Raise e
                    end
                end
          | _ => go newpath rest'
          end
    end.

(** A pure path: its root, [/] or [//], and its components. *)
Inductive pure_path :=
| Posix (parts : Path)
| DoubleSlash (parts : Path).

Definition parts_of (p : pure_path) : Path :=
  match p with
  | Posix parts | DoubleSlash parts => parts
  end.

(** [str(p)] *)
Definition str_pure (p : pure_path) : string :=
  match p with
  | Posix parts => str_path parts
  | DoubleSlash parts => "/" ++ str_path parts
  end.

(** [posixpath.normpath(s)] for an absolute [s], read as a pure path:
    empty and [.] components are dropped, [..] drops the component
    before it (none at the root), and exactly two slashes at the start
    are kept. *)
Fixpoint normparts (comps : list string) (new_comps : Path) : Path :=
  match comps with
  | [] => new_comps
  | comp :: comps' =>
      if String.eqb comp "" || String.eqb comp "." then normparts comps' new_comps
      else if String.eqb comp ".." then normparts comps' (removelast new_comps)
      else normparts comps' (new_comps ++ [comp])
  end.

Definition normpath (s : string) : pure_path :=
  let comps := normparts (split_slash s) [] in
  if String.prefix "//" s && negb (String.prefix "///" s)
  then DoubleSlash comps
  else Posix comps.

(** The components that [Path(raw)] keeps of [raw]: those between the
    slashes that are neither empty nor [.]. *)
Definition parse_parts (raw : string) : list string :=
  filter (fun x => negb (String.eqb x "" || String.eqb x ".")) (split_slash raw).

(** [Path(raw).resolve()]: [os.path.realpath] of the parsed path, where
    a relative path is walked from the working directory [cwd]; a
    resolved path is in normal form, an unresolved one is normalised by
    [abspath]; then [stat] is called on the result, and only the error
    ELOOP is turned into [RuntimeError], any other error of [stat] being
    ignored. *)
Definition resolve (root : node) (cwd : Path) (raw : string)
    : outcome pure_path :=
  r <- joinrealpath (count_links root) root []
         (if startswith "/" raw then [] else cwd) (parse_parts raw) ;;
  let p := match r with
           | Resolved path => Posix path
           | Unresolved s => normpath s
           end in
  if has_nul (str_pure p) then Raise (ValueError "embedded null byte")
  else
    match os_stat root (parts_of p) with
    | Raise (OSError ELOOP _) =>
        Raise (RuntimeError ("Symlink loop from " ++ repr (str_pure p)))
    | _ => Return p
    end.

(** [p.relative_to(other)] for absolute paths: the components of [p]
    after those of [other], [ValueError] unless [other]'s components are a
    prefix of [p]'s. *)
Fixpoint strip_prefix (other p : Path) : option Path :=
  match other, p with
  | [], _ => Some p
  | c :: other', d :: p' =>
      if String.eqb c d then strip_prefix other' p' else None
  | _ :: _, [] => None
  end.

Definition relative_to (p other : Path) : outcome Path :=
  match strip_prefix other p with
  | Some rel => Return rel
  | None =>
      Raise (ValueError (repr (str_path p) ++ " is not in the subpath of " ++
                         repr (str_path other) ++
                         " OR one path is relative and the other is absolute."))
  end.

Definition is_ValueError (e : exn) : bool :=
  match e with
  | ValueError _ | UnicodeDecodeError _ | UnicodeEncodeError _ => true
  | _ => false
  end.

(** [Path.unlink()], [Path.rmdir()] *)
Definition unlink (p : Path) : io unit := os_unlink p.
Definition rmdir (p : Path) : io unit := os_rmdir p.

(** [self.mkdir(parents=False, exist_ok=exist_ok)] *)
Definition mkdir_here (p : Path) (exist_ok : bool) : io unit := fun root =>
  match os_mkdir p root with
  | (root', Raise e) =>
      if is_FileNotFoundError e then (root', Raise e)
      else if is_OSError e then
        if negb exist_ok then (root', Raise e)
        else match is_dir root' p with
             | Return true => (root', Return tt)
             | Return false => (root', Raise e)
             | Raise e' => (root', Raise e')
             end
      else (root', Raise e)
  | r => r
  end.

(** [Path.mkdir(parents, exist_ok)], by recursion on the path read from
    its last component ([rp] is the path reversed): on
    [FileNotFoundError] the parent is made with [parents=True,
    exist_ok=True] and the directory itself is made again without
    [parents]; the root is its own parent and re-raises. *)
Fixpoint mkdir_rev (rp : list string) (parents exist_ok : bool) : io unit :=
  fun root =>
  let p := rev rp in
  match os_mkdir p root with
  | (root', Raise e) =>
      if is_FileNotFoundError e then
        match rp with
        | [] => (root', Raise e)
        | _ :: rp' =>
            if negb parents then (root', Raise e)
            else
              match mkdir_rev rp' true true root' with
              | (root'', Return _) => mkdir_here p exist_ok root''
              | (root'', Raise e') => (root'', Raise e')
              end
        end
      else if is_OSError e then
        if negb exist_ok then (root', Raise e)
        else match is_dir root' p with
             | Return true => (root', Return tt)
             | Return false => (root', Raise e)
             | Raise e' => (root', Raise e')
             end
      else (root', Raise e)
  | r => r
  end.

Definition mkdir (p : Path) (parents exist_ok : bool) : io unit :=
  mkdir_rev (rev p) parents exist_ok.

(** A text encoding: encoder and decoder, [None] where Python raises
    [UnicodeEncodeError] or [UnicodeDecodeError]. *)
Record codec := {
  encode : text -> option bytes;
  decode : bytes -> option text
}.

(** Text files are opened with [newline=None].  On writing, a line feed
    becomes [os.linesep], which is a line feed on POSIX; on reading, every
    carriage return followed by a line feed, and every other carriage
    return, becomes one line feed. *)
Fixpoint universal_newlines (t : text) : text :=
  match t with
  | [] => []
  | c :: t' =>
      if (c =? 13)%Z then
        10%Z :: match t' with
                | c' :: t'' =>
                    if (c' =? 10)%Z then universal_newlines t''
                    else universal_newlines t'
                | [] => []
                end
      else c :: universal_newlines t'
  end.

Section Text.

(** The codec registry, [codecs.lookup]. *)
Variable codecs : string -> option codec.

(** [Path.read_text(encoding)]: the file is opened first, then the codec
    is looked up, then the bytes are decoded and the newlines
    translated. *)
Definition read_text (root : node) (p : Path) (encoding : string)
    : outcome text :=
  b <- os_open_r root p ;;
  match codecs encoding with
  | None => Raise (LookupError ("unknown encoding: " ++ encoding))
  | Some c =>
      match decode c b with
      | Some t => Return (universal_newlines t)
      | None => Raise (UnicodeDecodeError encoding)
      end
  end.

(** [Path.write_text(data, encoding)]: the file is created or truncated
    when it is opened; the codec is looked up and the text encoded after
    that, so a failure there leaves an empty file. *)
Definition write_text (p : Path) (data : text) (encoding : string)
    : io Z := fun root =>
  match os_open_w p root with
  | (root', Raise e) => (root', Raise e)
  | (root', Return q) =>
      match codecs encoding with
      | None => (root', Raise (LookupError ("unknown encoding: " ++ encoding)))
      | Some c =>
          match encode c data with
          | None => (root', Raise (UnicodeEncodeError encoding))
          | Some b => (put root' q (Some (File b)), Return (Z.of_nat (List.length data)))
          end
      end
  end.

End Text.

End Pathlib.

Module Shutil.

(** [shutil._rmtree_safe_fd]: the entries of an opened directory are
    removed in enumeration order, subdirectories first emptied then
    removed; the first error stops the removal and what is left stays.
    Removing an entry needs the search permission on the directory,
    opening a subdirectory its read permission; the error of such a
    call names the entry relative to the opened directory.  The result
    is what is left of the directory and the error, if any. *)
Fixpoint rmtree_safe_fd (p : Path) (n : node) : node * option exn :=
  match n with
  | Dir r x es =>
      let '(es', err) :=
        (fix go (es : entries) : entries * option exn :=
           match es with
           | [] => ([], None)
           | (name, c) :: tl =>
               let fullname := p ++ [name] in
               if negb x then (es, Some (OSError EACCES name))
               else
                 match c with
                 | Dir r' _ _ =>
                     if negb r'
                     then (es, Some (OSError EACCES name))
                     else
                       match rmtree_safe_fd fullname c with
                       | (_, None) => go tl
                       | (c', Some e) => ((name, c') :: tl, Some e)
                       end
                 | _ => go tl
                 end
           end) es in
      (Dir r x es', err)
  | _ => (n, None)
  end.

(** [shutil.rmtree(p)] *)
Definition rmtree (p : Path) : io unit := fun root =>
  match lstat_walk root p with
  | Found q (Dir r x es) =>
      if negb r then (root, fail_with EACCES p)
      else
        match rmtree_safe_fd p (Dir r x es) with
        | (d', Some e) => (put root q (Some d'), Raise e)
        | (d', None) =>
            match q with
            | [] => (put root q (Some d'), fail_with EBUSY p)
            | _ :: _ => (put root q None, Return tt)
            end
        end
  | Found _ (Symlink _) =>
      (root, Raise (OSErrorMsg "Cannot call rmtree on a symbolic link"))
  | Found _ (File _) => (root, fail_with ENOTDIR p)
  | Found _ Special => (root, fail_with ENXIO p)
  | Missing _ _ => (root, fail_with ENOENT p)
  | Fail e => (root, fail_with e p)
  end.

End Shutil.

(** ** The server: [src/main.py] *)

Module Server.
Import Pathlib Shutil.

(** The request and response models.  [FileInfo] keeps the fields that
    the tree determines; the modification time, the permission digits
    and the guessed MIME type are not represented. *)
Module ReadFileRequest.
Record t := { path : string; encoding : string; max_size : Z }.
End ReadFileRequest.

Module WriteFileRequest.
Record t := {
  path : string; content : text; encoding : string; create_dirs : bool
}.
End WriteFileRequest.

Module ListDirectoryRequest.
Record t := { path : string; recursive : bool; show_hidden : bool }.
End ListDirectoryRequest.

Module DeletePathRequest.
Record t := { path : string; recursive : bool }.
End DeletePathRequest.

Module FileInfo.
Record t := {
  name : string;
  path : string;
  type : string;
  size : option Z
}.
End FileInfo.

Module DirectoryListing.
Record t := { path : string; items : list FileInfo.t; total_items : Z }.
End DirectoryListing.

Module SuccessResponse.
Record t := { success : bool; message : string }.
End SuccessResponse.

Module ReadFileResponse.
Record t := { content : text; file_info : FileInfo.t; encoding : string }.
End ReadFileResponse.

Module WriteFileResponse.
Record t := { success : bool; message : string; file_info : FileInfo.t }.
End WriteFileResponse.

(** The recursion bound of [add_items]: [level < 10]. *)
Definition MAX_LEVEL : nat := 10.

(** The configuration read when the module is loaded:
    [os.getenv("FILESYSTEM_ALLOWED_PATHS", "/workspace,/tmp").split(",")],
    then [Path(path.strip()).resolve()] for every piece, in order; an
    exception raised by one of them leaves the module unloaded.
    [environ] is the environment of the process. *)
Definition getenv (environ : string -> option string) (key default : string)
    : string :=
  match environ key with
  | Some value => value
  | None => default
  end.

Fixpoint resolve_each (root : node) (cwd : Path) (paths : list string)
    : outcome (list pure_path) :=
  match paths with
  | [] => Return []
  | path :: paths' =>
      p <- resolve root cwd (strip path) ;;
      ps <- resolve_each root cwd paths' ;;
      Return (p :: ps)
  end.

Definition load_ALLOWED_PATHS (environ : string -> option string)
    (root : node) (cwd : Path) : outcome (list pure_path) :=
  resolve_each root cwd
    (split_char "," (getenv environ "FILESYSTEM_ALLOWED_PATHS" "/workspace,/tmp")).

Section Handlers.

(** [ALLOWED_PATHS], resolved once at start-up, as paths under the root
    [/]; the working directory of the process; the codec registry. *)
Variable ALLOWED_PATHS : list Path.
Variable cwd : Path.
Variable codecs : string -> option codec.

(** The loop of [normalize_path] over [ALLOWED_PATHS]: the first root
    that [relative_to] accepts returns the resolved path, a [ValueError]
    moves on to the next root, and [None] says the loop ran out. *)
Fixpoint first_allowed (resolved_path : Path) (allowed : list Path)
    : outcome (option Path) :=
  match allowed with
  | [] => Return None
  | allowed_path :: allowed' =>
      match relative_to resolved_path allowed_path with
      | Return _ => Return (Some resolved_path)
      | Raise e =>
          if is_ValueError e then first_allowed resolved_path allowed'
          else Raise e
      end
  end.

Definition access_denied : exn :=
  HTTPException 403
    ("Access denied. Path must be within: " ++
     join ", " (map str_path ALLOWED_PATHS)).

(** [normalize_path]: the [raise HTTPException(status_code=403, ...)]
    stands inside the [try] whose [except Exception] re-raises everything
    as status 400.  For a resolved path under the root [//],
    [relative_to] raises [ValueError] at every allowed path, whose root
    is [/], and the loop runs out. *)
Definition normalize_path (root : node) (path : string) : outcome Path :=
  try_except
    (resolved_path <- resolve root cwd path ;;
     found <- match resolved_path with
              | Posix parts => first_allowed parts ALLOWED_PATHS
              | DoubleSlash _ => Return None
              end ;;
     match found with
     | Some p => Return p
     | None => Raise access_denied
     end)
    Exception
    (fun e => Raise (HTTPException 400 ("Invalid path: " ++ str_exn e))).

(** [get_file_info] *)
Definition get_file_info (root : node) (path : Path) : outcome FileInfo.t :=
  st <- stat root path ;;
  isd <- is_dir root path ;;
  isf <- is_file root path ;;
  Return {| FileInfo.name := name_of path;
            FileInfo.path := str_path path;
            FileInfo.type := if isd then "directory" else "file";
            FileInfo.size := if isf then Some (st_size st) else None |}.

(** [read_file] *)
Definition read_file (root : node) (request : ReadFileRequest.t)
    : outcome ReadFileResponse.t :=
  file_path <- normalize_path root (ReadFileRequest.path request) ;;
  ex <- exists_ root file_path ;;
  if negb ex then Raise (HTTPException 404 "File not found") else
  isf <- is_file root file_path ;;
  if negb isf then Raise (HTTPException 400 "Path is not a file") else
  st <- stat root file_path ;;
  if (st_size st >? ReadFileRequest.max_size request)%Z then
    Raise (HTTPException 413
             ("File too large. Max size: " ++
              str_Z (ReadFileRequest.max_size request) ++ " bytes"))
  else
    try_except
      (content <- read_text codecs root file_path
                    (ReadFileRequest.encoding request) ;;
       info <- get_file_info root file_path ;;
       Return {| ReadFileResponse.content := content;
                 ReadFileResponse.file_info := info;
                 ReadFileResponse.encoding := ReadFileRequest.encoding request |})
      is_UnicodeDecodeError
      (fun _ => Raise (HTTPException 400
                         ("Cannot decode file with encoding: " ++
                          ReadFileRequest.encoding request))).

(** [write_file] *)
Definition write_file (request : WriteFileRequest.t)
    : io WriteFileResponse.t := fun root =>
  match normalize_path root (WriteFileRequest.path request) with
  | Raise e => (root, Raise e)
  | Return file_path =>
      let '(root1, made) :=
        if WriteFileRequest.create_dirs request
        then mkdir (parent file_path) true true root
        else (root, Return tt) in
      match made with
      | Raise e => (root1, Raise e)
      | Return _ =>
          let '(root2, written) :=
            write_text codecs file_path (WriteFileRequest.content request)
              (WriteFileRequest.encoding request) root1 in
          (root2,
           try_except
             (do written ;;
              info <- get_file_info root2 file_path ;;
              Return {| WriteFileResponse.success := true;
                        WriteFileResponse.message :=
                          "File written successfully: " ++ str_path file_path;
                        WriteFileResponse.file_info := info |})
             Exception
             (fun e => Raise (HTTPException 500
                                ("Error writing file: " ++ str_exn e))))
      end
  end.

Section Listing.

Variable root : node.
Variable request : ListDirectoryRequest.t.

(** The [except PermissionError: pass] of [add_items]: the items
    collected so far are kept; any other exception leaves the function. *)
Definition swallow (items : list FileInfo.t) (e : exn)
    : list FileInfo.t * option exn :=
  if is_PermissionError e then (items, None) else (items, Some e).

(** The body of the [for item in path.iterdir()] loop of [add_items],
    appending to the shared list [items].  [descend] is the recursive
    call [add_items(item, level + 1)] when [level < 10], and [None] when
    the level bound is reached.  The result is the list after the loop
    and the exception that leaves it, if any. *)
Definition for_items
    (descend : option (Path -> list FileInfo.t -> list FileInfo.t * option exn))
    (path : Path)
    : list string -> list FileInfo.t -> list FileInfo.t * option exn :=
  fix loop (names : list string) (items : list FileInfo.t) {struct names} :=
    match names with
    | [] => (items, None)
    | name :: names' =>
        let item := path ++ [name] in
        if negb (ListDirectoryRequest.show_hidden request)
           && startswith "." name
        then loop names' items
        else
          match get_file_info root item with
          | Raise e => swallow items e
          | Return info =>
              let items := items ++ [info] in
              if ListDirectoryRequest.recursive request then
                match is_dir root item with
                | Raise e => swallow items e
                | Return true =>
                    match descend with
                    | Some add_items =>
                        match add_items item items with
                        | (items', None) => loop names' items'
                        | (items', Some e) => swallow items' e
                        end
                    | None => loop names' items
                    end
                | Return false => loop names' items
                end
              else loop names' items
          end
    end.

(** [add_items(path, level)].  The first argument is [10 - level], the
    number of levels that may still be entered: [level < 10] is
    [0 < left], and [level + 1] takes one off. *)
Fixpoint add_items (left : nat) (path : Path) (items : list FileInfo.t)
    {struct left} : list FileInfo.t * option exn :=
  match iterdir root path with
  | Raise e => swallow items e
  | Return names =>
      for_items
        (match left with
         | S left' => Some (add_items left')
         | O => None
         end) path names items
  end.

(** [list_directory] *)
Definition list_directory : outcome DirectoryListing.t :=
  dir_path <- normalize_path root (ListDirectoryRequest.path request) ;;
  ex <- exists_ root dir_path ;;
  if negb ex then Raise (HTTPException 404 "Directory not found") else
  isd <- is_dir root dir_path ;;
  if negb isd then Raise (HTTPException 400 "Path is not a directory") else
  match add_items MAX_LEVEL dir_path [] with
  | (_, Some e) => Raise e
  | (items, None) =>
      Return {| DirectoryListing.path := str_path dir_path;
                DirectoryListing.items := items;
                DirectoryListing.total_items := Z.of_nat (List.length items) |}
  end.

End Listing.

(** [delete_path].  The result [None] is Python's [None]: the function
    body ends without a [return]. *)
Definition delete_path (request : DeletePathRequest.t)
    : io (option SuccessResponse.t) := fun root =>
  match normalize_path root (DeletePathRequest.path request) with
  | Raise e => (root, Raise e)
  | Return path =>
      match exists_ root path with
      | Raise e => (root, Raise e)
      | Return false => (root, Raise (HTTPException 404 "Path not found"))
      | Return true =>
          let respond (m : string) :=
            Return (Some {| SuccessResponse.success := true;
                            SuccessResponse.message := m |}) in
          let '(root', r) :=
            match is_file root path with
            | Raise e => (root, Raise e)
            | Return true =>
                let '(root', r) := unlink path root in
                (root', do r ;; respond ("File deleted: " ++ str_path path)%string)
            | Return false =>
                match is_dir root path with
                | Raise e => (root, Raise e)
                | Return true =>
                    if DeletePathRequest.recursive request then
                      let '(root', r) := rmtree path root in
                      (root', do r ;;
                              respond ("Directory deleted recursively: " ++
                                       str_path path)%string)
                    else
                      let '(root', r) := rmdir path root in
                      (root', do r ;;
                              respond ("Directory deleted: " ++ str_path path)%string)
                | Return false => (root, Return None)
                end
            end in
          (root',
           try_except r Exception
             (fun e => Raise (HTTPException 500
                                ("Error deleting path: " ++ str_exn e))))
      end
  end.

(** [create_directory] *)
Definition create_directory (path : string) : io WriteFileResponse.t :=
  fun root =>
  match normalize_path root path with
  | Raise e => (root, Raise e)
  | Return dir_path =>
      let '(root', made) := mkdir dir_path true true root in
      (root',
       try_except
         (do made ;;
          info <- get_file_info root' dir_path ;;
          Return {| WriteFileResponse.success := true;
                    WriteFileResponse.message :=
                      "Directory created: " ++ str_path dir_path;
                    WriteFileResponse.file_info := info |})
         Exception
         (fun e => Raise (HTTPException 500
                            ("Error creating directory: " ++ str_exn e))))
  end.

(** [get_file_info_endpoint] *)
Definition get_file_info_endpoint (root : node) (path : string)
    : outcome FileInfo.t :=
  file_path <- normalize_path root path ;;
  ex <- exists_ root file_path ;;
  if negb ex then Raise (HTTPException 404 "Path not found") else
  get_file_info root file_path.

(** [get_allowed_paths]: the value under the key [allowed_paths]. *)
Definition get_allowed_paths : list string := map str_path ALLOWED_PATHS.

End Handlers.

End Server.

(** ** Codecs *)

Module Codecs.
Import Pathlib.

Definition Z_of_byte (b : Byte.byte) : Z := Z.of_N (Byte.to_N b).

Definition byte_of_Z (z : Z) : Byte.byte :=
  match Byte.of_N (Z.to_N z) with
  | Some b => b
  | None => Byte.x00
  end.

(** Encoding code point by code point, failing on the first one that has
    no encoding. *)
Fixpoint encode_with (f : Z -> option bytes) (t : text) : option bytes :=
  match t with
  | [] => Some []
  | c :: t' =>
      match f c, encode_with f t' with
      | Some b, Some bs => Some (b ++ bs)
      | _, _ => None
      end
  end.

(** [latin-1]: code points 0 to 255, one byte each. *)
Definition latin1_encode_char (c : Z) : option bytes :=
  if ((0 <=? c) && (c <? 256))%Z then Some [byte_of_Z c] else None.

Definition latin1 : codec := {|
  encode := encode_with latin1_encode_char;
  decode := fun b => Some (map Z_of_byte b)
|}.

(** [ascii]: code points and bytes 0 to 127. *)
Definition ascii_encode_char (c : Z) : option bytes :=
  if ((0 <=? c) && (c <? 128))%Z then Some [byte_of_Z c] else None.

Fixpoint ascii_decode (b : bytes) : option text :=
  match b with
  | [] => Some []
  | x :: b' =>
      if (Z_of_byte x <? 128)%Z then
        match ascii_decode b' with
        | Some t => Some (Z_of_byte x :: t)
        | None => None
        end
      else None
  end.

Definition ascii : codec := {|
  encode := encode_with ascii_encode_char;
  decode := ascii_decode
|}.

(** [utf-8]: one to four bytes; surrogates (U+D800 to U+DFFF) and values
    above U+10FFFF have no encoding, and the decoder refuses them, the
    overlong forms and stray continuation bytes. *)
Definition utf8_encode_char (c : Z) : option bytes :=
  (if (0 <=? c) && (c <? 128) then Some [byte_of_Z c]
   else if (128 <=? c) && (c <? 2048) then
     Some [byte_of_Z (192 + c / 64); byte_of_Z (128 + c mod 64)]
   else if ((2048 <=? c) && (c <? 55296)) || ((57344 <=? c) && (c <? 65536)) then
     Some [byte_of_Z (224 + c / 4096); byte_of_Z (128 + (c / 64) mod 64);
           byte_of_Z (128 + c mod 64)]
   else if (65536 <=? c) && (c <? 1114112) then
     Some [byte_of_Z (240 + c / 262144); byte_of_Z (128 + (c / 4096) mod 64);
           byte_of_Z (128 + (c / 64) mod 64); byte_of_Z (128 + c mod 64)]
   else None)%Z.

(** The payload of a continuation byte [10xxxxxx]. *)
Definition continuation (b : Byte.byte) : option Z :=
  let z := Z_of_byte b in
  if ((128 <=? z) && (z <? 192))%Z then Some (z - 128)%Z else None.

Fixpoint utf8_decode (b : bytes) : option text :=
  let emit (ok : bool) (c : Z) (rest : option text) : option text :=
    if ok then match rest with Some t => Some (c :: t) | None => None end
    else None in
  match b with
  | [] => Some []
  | b0 :: b1s =>
      let z0 := Z_of_byte b0 in
      (if z0 <? 128 then emit true z0 (utf8_decode b1s)
       else if (194 <=? z0) && (z0 <? 224) then
         match b1s with
         | b1 :: b2s =>
             match continuation b1 with
             | Some z1 => emit true ((z0 - 192) * 64 + z1) (utf8_decode b2s)
             | None => None
             end
         | _ => None
         end
       else if (224 <=? z0) && (z0 <? 240) then
         match b1s with
         | b1 :: b2 :: b3s =>
             match continuation b1, continuation b2 with
             | Some z1, Some z2 =>
                 let c := (z0 - 224) * 4096 + z1 * 64 + z2 in
                 emit ((2048 <=? c) && negb ((55296 <=? c) && (c <? 57344)))
                      c (utf8_decode b3s)
             | _, _ => None
             end
         | _ => None
         end
       else if (240 <=? z0) && (z0 <? 245) then
         match b1s with
         | b1 :: b2 :: b3 :: b4s =>
             match continuation b1, continuation b2, continuation b3 with
             | Some z1, Some z2, Some z3 =>
                 let c := (z0 - 240) * 262144 + z1 * 4096 + z2 * 64 + z3 in
                 emit ((65536 <=? c) && (c <? 1114112)) c (utf8_decode b4s)
             | _, _, _ => None
             end
         | _ => None
         end
       else None)%Z
  end.

Definition utf8 : codec := {|
  encode := encode_with utf8_encode_char;
  decode := utf8_decode
|}.

(** The part of the codec registry used here, under the spellings
    [utf-8], [utf8], [ascii], [latin-1], [latin1] and [iso-8859-1]. *)
Definition python_codecs (name : string) : option codec :=
  if String.eqb name "utf-8" || String.eqb name "utf8" then Some utf8
  else if String.eqb name "ascii" then Some ascii
  else if String.eqb name "latin-1" || String.eqb name "latin1"
          || String.eqb name "iso-8859-1" then Some latin1
  else None.

(** The decoder's answer for the code point [c] followed by the
    decoding [rest] of what remains. *)
Definition emit (c : Z) (rest : option text) : option text :=
  match rest with
  | Some t => Some (c :: t)
  | None => None
  end.

(** A codec whose decoder undoes its encoder. *)
Definition lossless (c : codec) : Prop :=
  forall t b, encode c t = Some b -> decode c b = Some t.

(** The code points of an ASCII string, and back to bytes. *)
Definition text_of_string (s : string) : text :=
  map (fun a => Z.of_N (N_of_ascii a)) (list_ascii_of_string s).

Definition bytes_of_string (s : string) : bytes :=
  map byte_of_ascii (list_ascii_of_string s).

End Codecs.

(** ** Notions of the specification *)

Module Spec.
Import Pathlib Server.

(** Containment by components: [c] is the root [r] or lies below it. *)
Definition within (r c : Path) : Prop := exists rel, c = r ++ rel.

(** A name that the hidden-file filter keeps. *)
Definition visible (name : string) : bool := negb (startswith "." name).

(** Every directory of the subtree can be read and searched: what
    [shutil.rmtree] needs to remove it. *)
Fixpoint accessible (n : node) : bool :=
  match n with
  | Dir r x es =>
      r && x &&
      (fix all (es : entries) : bool :=
         match es with
         | [] => true
         | (_, c) :: es' => accessible c && all es'
         end) es
  | _ => true
  end.

(** A directory can be made at [p], or is there already: as far as [p]
    can be walked from [n] it meets only directories, searchable where
    the walk goes on. *)
Fixpoint creatable (n : node) (p : Path) : bool :=
  match n with
  | Dir _ x es =>
      match p with
      | [] => true
      | c :: p' =>
          x && match assoc c es with
               | Some n' => creatable n' p'
               | None => true
               end
      end
  | _ => false
  end.

(** The names that enumerating the directory [d] yields, none when it
    cannot be enumerated. *)
Definition children (root : node) (d : Path) : list string :=
  match iterdir root d with
  | Return names => names
  | Raise _ => []
  end.

(** The hidden-name filter of a listing request, as a test. *)
Definition lets_through (request : ListDirectoryRequest.t) (name : string) : bool :=
  ListDirectoryRequest.show_hidden request || visible name.

(** The traversal of a listing request reaches the entry [rel] below
    [d]: every component is a name that enumerating the directory before
    it yields and that the hidden-name filter lets through, and every
    component but the last is entered: the request is recursive and
    [is_dir] takes the component for a directory. *)
Fixpoint reached (root : node) (request : ListDirectoryRequest.t)
    (d : Path) (rel : list string) {struct rel} : Prop :=
  match rel with
  | [] => True
  | name :: rel' =>
      In name (children root d) /\
      lets_through request name = true /\
      (rel' <> [] ->
       ListDirectoryRequest.recursive request = true /\
       is_dir root (d ++ [name]) = Return true) /\
      reached root request (d ++ [name]) rel'
  end.


(** The entry [info] is what [get_file_info] returns for an entry that
    the traversal of [d] reaches by at most [depth] components. *)
Definition listed_from (root : node) (request : ListDirectoryRequest.t)
    (d : Path) (depth : nat) (info : FileInfo.t) : Prop :=
  exists rel,
    rel <> [] /\ List.length rel <= depth /\
    reached root request d rel /\
    get_file_info root (d ++ rel) = Return info.



(** A file name: a regular component without slash and without NUL. *)
Fixpoint has_slash (s : string) : bool :=
  match s with
  | EmptyString => false
  | String c s' => Ascii.eqb c "/" || has_slash s'
  end.

Definition file_name (name : string) : bool :=
  regular name && negb (has_nul name) && negb (has_slash name).

(** The status by which a caller tells failures apart. *)
Definition status_of {A} (o : outcome A) : option Z :=
  match o with
  | Raise (HTTPException s _) => Some s
  | _ => None
  end.

(** The Entry of the object [n] found at the path [p]. *)
Definition info_of (p : Path) (n : node) : FileInfo.t :=
  {| FileInfo.name := name_of p;
     FileInfo.path := str_path p;
     FileInfo.type := if S_ISDIR n then "directory" else "file";
     FileInfo.size := if S_ISREG n then Some (st_size n) else None |}.

(** What a traversal leaves: the list, and the exception that escapes. *)
Definition traversal := (list FileInfo.t * option exn)%type.

Definition no_permission_error (r : traversal) : Prop :=
  match snd r with
  | Some e => is_PermissionError e = false
  | None => True
  end.

End Spec.

(** ** A concrete tree *)

Module Example.
Import Pathlib Shutil Codecs Server.

Definition roots : list Path := [["workspace"]].
Definition cwd : Path := ["app"].

Definition file (s : string) : node := File (bytes_of_string s).

(** [/workspace] holds a file, a hidden directory, a two-level
    directory, a directory that cannot be read, one that cannot be
    searched, a link that leaves the root, a link into the directory that
    cannot be searched, a socket and an empty directory. *)
Definition workspace : node :=
  Dir true true
    [ ("a.txt", file "hello");
      (".git", Dir true true [("config", file "[core]")]);
      ("docs", Dir true true
         [ ("readme.md", file "# readme");
           ("img", Dir true true [("logo.png", file "PNG")]) ]);
      ("locked", Dir false true [("secret", file "s")]);
      ("vault", Dir true false [("key", file "k")]);
      ("out", Symlink "/etc");
      ("sock", Special);
      ("empty", Dir true true []);
      ("z.txt", file "last") ].

Definition tree : node :=
  Dir true true
    [ ("workspace", workspace);
      ("workspace-evil", Dir true true [("x", file "x")]);
      ("etc", Dir true true [("passwd", file "root:x:0:0")]);
      ("app", Dir true true []) ].

(** A chain of [n] nested directories called [d], ending on a file. *)
Fixpoint chain (n : nat) : node :=
  match n with
  | O => file "bottom"
  | S n' => Dir true true [("d", chain n')]
  end.

Definition deep_tree : node :=
  Dir true true [("workspace", Dir true true [("d", chain 12)])].

(** A directory whose first entry is a link into a directory that cannot
    be searched, and one whose first entry is a dangling link. *)
Definition peek_tree : node :=
  Dir true true
    [ ("workspace", Dir true true
         [ ("peek", Symlink "/workspace/vault/key");
           ("b.txt", file "b");
           ("vault", Dir true false [("key", file "k")]) ]) ].

(** A tree without links in which one directory cannot be read and
    another cannot be searched. *)
Definition quiet_workspace : entries :=
  [ ("a.txt", file "hello");
    ("locked", Dir false true [("secret", file "s")]);
    ("vault", Dir true false [("key", file "k")]);
    ("docs", Dir true true [("readme.md", file "# readme")]);
    ("z.txt", file "last") ].

Definition quiet_tree : node :=
  Dir true true [("workspace", Dir true true quiet_workspace)].

(** A file of one byte that is not valid UTF-8. *)
Definition binary_tree : node :=
  Dir true true [("workspace", Dir true true [("bin.dat", File [Byte.xff])])].

Definition dangling_tree : node :=
  Dir true true
    [ ("workspace", Dir true true
         [ ("gone", Symlink "/workspace/nothing");
           ("b.txt", file "b") ]) ].

(** A link that points to itself, beside a link that leaves the root
    and a link to a directory of the root. *)
Definition escape_tree : node :=
  Dir true true
    [ ("workspace", Dir true true
         [ ("loop", Symlink "loop");
           ("out", Symlink "/etc");
           ("lnk", Symlink "docs");
           ("docs", Dir true true [("readme.md", file "# readme")]) ]);
      ("etc", Dir true true [("passwd", file "root:x:0:0")]) ].

Definition names (l : DirectoryListing.t) : list string :=
  map FileInfo.path (DirectoryListing.items l).

Definition delete_request (path : string) (recursive : bool) : DeletePathRequest.t :=
  {| DeletePathRequest.path := path; DeletePathRequest.recursive := recursive |}.

Definition write_request (path : string) (content : text) (encoding : string)
    (create_dirs : bool) : WriteFileRequest.t :=
  {| WriteFileRequest.path := path;
     WriteFileRequest.content := content;
     WriteFileRequest.encoding := encoding;
     WriteFileRequest.create_dirs := create_dirs |}.

Definition read_request (path encoding : string) (max_size : Z)
    : ReadFileRequest.t :=
  {| ReadFileRequest.path := path;
     ReadFileRequest.encoding := encoding;
     ReadFileRequest.max_size := max_size |}.

Definition list_request (path : string) (recursive show_hidden : bool)
    : ListDirectoryRequest.t :=
  {| ListDirectoryRequest.path := path;
     ListDirectoryRequest.recursive := recursive;
     ListDirectoryRequest.show_hidden := show_hidden |}.

Definition listing_of (o : outcome DirectoryListing.t) : DirectoryListing.t :=
  match o with
  | Return l => l
  | Raise _ =>
      {| DirectoryListing.path := ""; DirectoryListing.items := [];
         DirectoryListing.total_items := 0 |}
  end.

(** The recursive listing of [/workspace] without hidden entries. *)
Definition visible_listing : DirectoryListing.t :=
  Eval vm_compute in
    listing_of (list_directory roots cwd tree (list_request "/workspace" true false)).

(** A link to the directory that holds it, and the recursive listing
    of that directory: eleven entries. *)
Definition cycle_tree : node :=
  Dir true true [("workspace", Dir true true [("again", Symlink ".")])].

Definition cycle_listing : DirectoryListing.t :=
  Eval vm_compute in
    listing_of (list_directory roots cwd cycle_tree (list_request "/workspace" true false)).

End Example.

(** * Properties *)

Import Pathlib Shutil Codecs Server Spec.
Unset Implicit Arguments.

(** ** Outcomes *)

(** ** The sandbox *)

Section Sandbox.

Variable ALLOWED_PATHS : list Path.
Variable cwd : Path.
Variable root : node.

Lemma strip_prefix_spec r c rel :
  strip_prefix r c = Some rel <-> c = r ++ rel.
Proof.
  revert c; induction r as [|x r IH]; intros c; simpl.
  - split; congruence.
  - destruct c as [|y c].
    + split; [discriminate | intros H; discriminate H].
    + destruct (String.eqb_spec x y) as [->|N].
      * rewrite IH. split; [intros ->; reflexivity | intros H; now inversion H].
      * split; [discriminate | intros H; inversion H; subst; now destruct N].
Qed.

Lemma strip_prefix_within r c :
  (exists rel, strip_prefix r c = Some rel) <-> within r c.
Proof.
  unfold within; split; intros [rel H]; exists rel; now apply strip_prefix_spec.
Qed.

Lemma strip_prefix_outside r c : ~ within r c -> strip_prefix r c = None.
Proof.
  intros H. destruct (strip_prefix r c) eqn:E; [|reflexivity].
  exfalso; apply H, strip_prefix_within; eauto.
Qed.

(** The loop over the roots returns the resolved path at the first root
    that contains it, and runs out otherwise. *)
Lemma first_allowed_outside c roots :
  (forall r, In r roots -> ~ within r c) -> first_allowed c roots = Return None.
Proof.
  induction roots as [|r roots IH]; intros H; simpl; [reflexivity|].
  unfold relative_to. rewrite strip_prefix_outside by (apply H; now left).
  simpl. apply IH. intros r' Hr'. apply H. now right.
Qed.

Lemma first_allowed_cases c roots :
  (first_allowed c roots = Return (Some c) /\ exists r, In r roots /\ within r c)
  \/ (first_allowed c roots = Return None /\ forall r, In r roots -> ~ within r c).
Proof.
  induction roots as [|r roots IH]; simpl.
  - right. split; [reflexivity | intros r []].
  - unfold relative_to. destruct (strip_prefix r c) eqn:E.
    + left. split; [reflexivity|]. exists r. split; [now left|].
      apply strip_prefix_within; eauto.
    + simpl. destruct IH as [[H1 [r' [Hin Hw]]] | [H1 H2]].
      * left. split; [assumption|]. exists r'. split; [now right | assumption].
      * right. split; [assumption|]. intros r' [<-|Hin]; [|now apply H2].
        intros Hw. apply strip_prefix_within in Hw. destruct Hw as [rel Hrel].
        congruence.
Qed.

Lemma normalize_path_Return raw d :
  normalize_path ALLOWED_PATHS cwd root raw = Return d <->
  resolve root cwd raw = Return (Posix d) /\
  exists r, In r ALLOWED_PATHS /\ within r d.
Proof.
  unfold normalize_path.
  destruct (resolve root cwd raw) as [[c|c]|e] eqn:R; simpl.
  - destruct (first_allowed_cases c ALLOWED_PATHS) as [[H1 H2] | [H1 H2]];
      rewrite H1; simpl.
    + split.
      * intros H; inversion H; subst; auto.
      * intros [H _]. congruence.
    + split; [discriminate|]. intros [H [r [Hin Hw]]].
      inversion H; subst. exfalso. eapply H2; eauto.
  - split; [discriminate | intros [H _]; discriminate].
  - split; [discriminate | intros [H _]; discriminate].
Qed.

(** Whatever [normalize_path] raises has status 400. *)
Lemma normalize_path_Raise raw e :
  normalize_path ALLOWED_PATHS cwd root raw = Raise e ->
  exists cause, e = HTTPException 400 ("Invalid path: " ++ str_exn cause).
Proof.
  unfold normalize_path.
  destruct (resolve root cwd raw) as [[c|c]|e0]; cbv [bind].
  - destruct (first_allowed_cases c ALLOWED_PATHS) as [[H1 _] | [H1 _]];
      rewrite H1; cbv [try_except Exception]; [discriminate|].
    intros H; inversion H. now exists (access_denied ALLOWED_PATHS).
  - cbv [try_except Exception]. intros H; inversion H.
    now exists (access_denied ALLOWED_PATHS).
  - cbv [try_except Exception]. intros H; inversion H. now exists e0.
Qed.

Lemma normalize_path_outside raw c :
  resolve root cwd raw = Return (Posix c) ->
  (forall r, In r ALLOWED_PATHS -> ~ within r c) ->
  normalize_path ALLOWED_PATHS cwd root raw =
  Raise (HTTPException 400
           ("Invalid path: " ++ str_exn (access_denied ALLOWED_PATHS))).
Proof.
  intros R H. unfold normalize_path. rewrite R. cbv [bind].
  rewrite first_allowed_outside by assumption. reflexivity.
Qed.

End Sandbox.

(** ** Reading *)

Section Reading.
Variable ALLOWED_PATHS : list Path.
Variable cwd : Path.
Variable codecs : string -> option codec.
Variable root : node.

Lemma stat_test_of_stat test p n :
  stat root p = Return n -> stat_test test root p = Return (test n).
Proof. unfold stat_test. now intros ->. Qed.

Lemma get_file_info_of_stat p n :
  stat root p = Return n -> get_file_info root p = Return (info_of p n).
Proof.
  intros H. unfold get_file_info, is_dir, is_file.
  rewrite !(stat_test_of_stat _ _ _ H), H. reflexivity.
Qed.

Lemma get_file_info_Return p info :
  get_file_info root p = Return info ->
  exists n, stat root p = Return n /\ info = info_of p n.
Proof.
  intros H. destruct (stat root p) as [n|e] eqn:S.
  - exists n. split; [reflexivity|]. rewrite (get_file_info_of_stat _ _ S) in H.
    congruence.
  - unfold get_file_info in H. rewrite S in H. discriminate.
Qed.

Lemma read_file_of_stat request d b :
  normalize_path ALLOWED_PATHS cwd root (ReadFileRequest.path request) = Return d ->
  stat root d = Return (File b) ->
  read_file ALLOWED_PATHS cwd codecs root request =
  if (Z.of_nat (List.length b) >? ReadFileRequest.max_size request)%Z then
    Raise (HTTPException 413
             ("File too large. Max size: " ++
              str_Z (ReadFileRequest.max_size request) ++ " bytes"))
  else
    match codecs (ReadFileRequest.encoding request) with
    | None => Raise (LookupError ("unknown encoding: " ++ ReadFileRequest.encoding request))
    | Some c =>
        match decode c b with
        | Some t =>
            Return {| ReadFileResponse.content := universal_newlines t;
                      ReadFileResponse.file_info := info_of d (File b);
                      ReadFileResponse.encoding := ReadFileRequest.encoding request |}
        | None =>
            Raise (HTTPException 400
                     ("Cannot decode file with encoding: " ++
                      ReadFileRequest.encoding request))
        end
    end.
Proof.
  intros N S. unfold read_file. rewrite N. cbv [bind].
  unfold exists_, is_file. rewrite !(stat_test_of_stat _ _ _ S), S. simpl negb. cbv iota.
  simpl st_size.
  destruct (Z.of_nat (List.length b) >? ReadFileRequest.max_size request)%Z; [reflexivity|].
  unfold read_text, os_open_r. unfold stat, os_stat in S.
  destruct (stat_walk root d) as [q n|q nm|e] eqn:W; try discriminate.
  inversion S; subst n. cbv [bind].
  destruct (codecs (ReadFileRequest.encoding request)) as [c|]; [|reflexivity].
  destruct (decode c b) as [t|]; [|reflexivity].
  assert (S' : stat root d = Return (File b)) by (unfold stat, os_stat; now rewrite W).
  rewrite (get_file_info_of_stat _ _ S'). reflexivity.
Qed.
End Reading.

(** ** Traversal: what holds on every tree *)

Section ListingGeneral.
Variable root : node.
Variable request : ListDirectoryRequest.t.

Lemma swallow_no_permission_error items e :
  no_permission_error (swallow items e).
Proof.
  unfold swallow, no_permission_error.
  destruct (is_PermissionError e) eqn:E; simpl; auto.
Qed.

Lemma for_items_no_permission_error descend path names items :
  (forall f p i, descend = Some f -> no_permission_error (f p i)) ->
  no_permission_error (for_items root request descend path names items).
Proof.
  intros Hd. revert items. induction names as [|name names IH]; intros items; simpl.
  - exact I.
  - destruct (negb (ListDirectoryRequest.show_hidden request) && startswith "." name); [apply IH|].
    destruct (get_file_info root (path ++ [name])) as [info|e];
      [|apply swallow_no_permission_error].
    destruct (ListDirectoryRequest.recursive request); [|apply IH].
    destruct (is_dir root (path ++ [name])) as [[|]|e];
      [| apply IH | apply swallow_no_permission_error].
    destruct descend as [f|]; [|apply IH].
    destruct (f (path ++ [name]) (items ++ [info])) as [items' [e|]];
      [apply swallow_no_permission_error | apply IH].
Qed.

Lemma add_items_no_permission_error left : forall path items,
  no_permission_error (add_items root request left path items).
Proof.
  induction left as [|left IH]; intros path items; simpl;
    (destruct (iterdir root path) as [names|e];
     [|apply swallow_no_permission_error]);
    apply for_items_no_permission_error.
  - intros f p i H; discriminate.
  - intros f p i H. inversion H; subst f. apply IH.
Qed.

(** The test of the loop body is the hidden-name filter. *)
Lemma lets_through_of_test name :
  negb (ListDirectoryRequest.show_hidden request) && startswith "." name =
  negb (lets_through request name).
Proof.
  unfold lets_through, visible.
  now destruct (ListDirectoryRequest.show_hidden request), (startswith "." name).
Qed.

Lemma listed_from_child path name k info :
  In name (children root path) ->
  lets_through request name = true ->
  get_file_info root (path ++ [name]) = Return info ->
  listed_from root request path (S k) info.
Proof.
  intros Hc Hl G. exists [name]. split; [discriminate|]. split; [simpl; lia|].
  split; [|assumption]. simpl. split; [assumption|]. split; [assumption|].
  split; [|exact I]. intros N. now destruct N.
Qed.

Lemma listed_from_step path name k info :
  In name (children root path) ->
  lets_through request name = true ->
  ListDirectoryRequest.recursive request = true ->
  is_dir root (path ++ [name]) = Return true ->
  listed_from root request (path ++ [name]) k info ->
  listed_from root request path (S k) info.
Proof.
  intros Hc Hl Hr Hd [rel [N [L [R G]]]]. exists (name :: rel).
  split; [discriminate|]. split; [simpl; lia|]. split.
  - simpl. split; [assumption|]. split; [assumption|]. split; [|assumption].
    intros _. now split.
  - now rewrite <- app_assoc in G.
Qed.

(** Whatever the traversal appends is an entry that it reached: every
    component of its path below the directory was enumerated and let
    through by the filter, every component but the last was entered. *)
Lemma for_items_sound descend k path :
  (forall f, descend = Some f ->
   forall p items, exists new,
     fst (f p items) = items ++ new /\
     Forall (listed_from root request p k) new) ->
  forall names items,
    (forall name, In name names -> In name (children root path)) ->
    exists new,
      fst (for_items root request descend path names items) = items ++ new /\
      Forall (listed_from root request path (S k)) new.
Proof.
  intros Hd. induction names as [|name names IH]; intros items Hn; simpl.
  - exists []. now rewrite app_nil_r.
  - assert (Hn' : forall n, In n names -> In n (children root path))
      by (intros n Hin; apply Hn; now right).
    assert (Hc : In name (children root path)) by (apply Hn; now left).
    rewrite lets_through_of_test.
    destruct (lets_through request name) eqn:Hl; simpl negb; cbv iota;
      [|now apply IH].
    destruct (get_file_info root (path ++ [name])) as [info|e] eqn:G.
    2:{ exists []. rewrite app_nil_r. unfold swallow.
        now destruct (is_PermissionError e). }
    assert (Hi := listed_from_child _ _ k _ Hc Hl G).
    assert (K : forall new1,
               Forall (listed_from root request path (S k)) new1 ->
               exists new,
                 fst (for_items root request descend path names
                        ((items ++ [info]) ++ new1)) = items ++ new /\
                 Forall (listed_from root request path (S k)) new).
    { intros new1 F. destruct (IH ((items ++ [info]) ++ new1) Hn') as [new [E F']].
      exists ([info] ++ new1 ++ new). split.
      - rewrite E. now rewrite <- !app_assoc.
      - apply Forall_app. split; [now constructor|]. apply Forall_app. now split. }
    assert (K0 : exists new,
               fst (for_items root request descend path names (items ++ [info])) =
                 items ++ new /\
               Forall (listed_from root request path (S k)) new).
    { specialize (K [] (Forall_nil _)). now rewrite app_nil_r in K. }
    destruct (ListDirectoryRequest.recursive request) eqn:Hr; [|exact K0].
    destruct (is_dir root (path ++ [name])) as [[|]|e] eqn:D; [|exact K0|].
    + destruct descend as [f|]; [|exact K0].
      destruct (Hd f eq_refl (path ++ [name]) (items ++ [info])) as [new1 [E1 F1]].
      assert (F2 : Forall (listed_from root request path (S k)) new1).
      { eapply Forall_impl; [|exact F1]. intros a. now apply listed_from_step. }
      destruct (f (path ++ [name]) (items ++ [info])) as [items' [e|]];
        simpl in E1; subst items'.
      * exists ([info] ++ new1). split.
        -- unfold swallow. destruct (is_PermissionError e); simpl;
             now rewrite <- app_assoc.
        -- apply Forall_app. split; [now constructor | assumption].
      * now apply K.
    + exists [info]. split; [|now constructor].
      unfold swallow. now destruct (is_PermissionError e).
Qed.

Lemma add_items_sound left : forall path items,
  exists new,
    fst (add_items root request left path items) = items ++ new /\
    Forall (listed_from root request path (S left)) new.
Proof.
  induction left as [|left IH]; intros path items; simpl;
    (destruct (iterdir root path) as [names|e] eqn:It;
     [|exists []; rewrite app_nil_r; unfold swallow;
       now destruct (is_PermissionError e)]).
  - apply for_items_sound.
    + intros f H; discriminate.
    + intros name Hin. unfold children. now rewrite It.
  - apply for_items_sound.
    + intros f H p items'. inversion H; subst f. apply IH.
    + intros name Hin. unfold children. now rewrite It.
Qed.

(** Without [recursive] an entry reached is a child; with
    [show_hidden] false no component of it starts with a dot. *)
Lemma reached_flat d rel :
  ListDirectoryRequest.recursive request = false ->
  rel <> [] -> reached root request d rel -> List.length rel = 1.
Proof.
  intros Hr N R. destruct rel as [|name [|name' rel]]; [congruence | reflexivity|].
  simpl in R. destruct R as [_ [_ [R _]]].
  destruct R as [R _]; [discriminate | congruence].
Qed.

Lemma reached_visible : forall rel d,
  ListDirectoryRequest.show_hidden request = false ->
  reached root request d rel ->
  Forall (fun name => startswith "." name = false) rel.
Proof.
  induction rel as [|name rel IH]; intros d Hs R; [constructor|].
  simpl in R. destruct R as [_ [Hl [_ R]]]. constructor; [|eapply IH; eauto].
  unfold lets_through, visible in Hl. rewrite Hs in Hl. simpl in Hl.
  now destruct (startswith "." name).
Qed.

End ListingGeneral.

Section Hidden.
Variable ALLOWED_PATHS : list Path.
Variable cwd : Path.
Variable root : node.

Lemma last_snoc {A} (l : list A) (x d : A) : last (l ++ [x]) d = x.
Proof. induction l as [|a l IH]; [reflexivity|]. simpl. destruct (l ++ [x]) eqn:E; [now destruct l|]. exact IH. Qed.

End Hidden.

(** ** Walking the tree *)

Section Walking.

Variable root : node.

Lemma namei_nil links follow cur :
  namei links root follow cur [] =
  match lookup root cur with
  | Some n => Found cur n
  | None => Fail ENOENT
  end.
Proof. destruct links; reflexivity. Qed.

Lemma namei_cons links follow cur name rest :
  namei links root follow cur (name :: rest) =
  match lookup root cur with
  | Some (Dir _ x es) =>
      if negb x then Fail EACCES
      else if String.eqb name ".." then namei links root follow (parent cur) rest
      else if String.eqb name "." || String.eqb name ""
           then namei links root follow cur rest
      else
        match assoc name es with
        | None => if is_nil rest then Missing cur name else Fail ENOENT
        | Some (Symlink tgt) =>
            if is_nil rest && negb follow
            then Found (cur ++ [name]) (Symlink tgt)
            else
              match links with
              | O => Fail ELOOP
              | S l =>
                  namei l root follow
                    (if startswith "/" tgt then [] else cur)
                    (split_slash tgt ++ rest)
              end
        | Some _ => namei links root follow (cur ++ [name]) rest
        end
  | Some _ => Fail ENOTDIR
  | None => Fail ENOENT
  end.
Proof. destruct links; reflexivity. Qed.

Lemma lookup_app n p q :
  lookup n (p ++ q) =
  match lookup n p with
  | Some m => lookup m q
  | None => None
  end.
Proof.
  revert n; induction p as [|c p IH]; intros n; simpl; [reflexivity|].
  destruct n as [b|r x es|t|]; try reflexivity.
  destruct (assoc c es); [apply IH | reflexivity].
Qed.

Lemma lookup_snoc n p r x es c :
  lookup n p = Some (Dir r x es) ->
  lookup n (p ++ [c]) = assoc c es.
Proof.
  intros H. rewrite lookup_app, H. simpl. now destruct (assoc c es).
Qed.

(** What a walk finds is in the tree at the physical path it reports,
    and what it misses is absent from a searchable directory. *)
Lemma namei_sound links : forall follow rest cur,
  match namei links root follow cur rest with
  | Found q n => lookup root q = Some n
  | Missing q name =>
      exists r es, lookup root q = Some (Dir r true es) /\ assoc name es = None
  | Fail _ => True
  end.
Proof.
  induction links as [|links IHl]; intros follow rest;
    induction rest as [|name rest IH]; intros cur.
  1,3: rewrite namei_nil; now destruct (lookup root cur) eqn:L.
  all: rewrite namei_cons;
    destruct (lookup root cur) as [[b|r x es|t|]|] eqn:L; try exact I;
    destruct x; simpl negb; cbv iota; try exact I;
    destruct (String.eqb name ".."); [apply IH|];
    destruct (String.eqb name "." || String.eqb name ""); [apply IH|];
    destruct (assoc name es) as [[b|r' x' es'|t|]|] eqn:A; try apply IH.
  - destruct (is_nil rest && negb follow); [|exact I].
    now rewrite (lookup_snoc _ _ _ _ _ _ L).
  - destruct (is_nil rest); [|exact I]. eauto.
  - destruct (is_nil rest && negb follow); [|apply IHl].
    now rewrite (lookup_snoc _ _ _ _ _ _ L).
  - destruct (is_nil rest); [|exact I]. eauto.
Qed.

Lemma stat_walk_Found p q n : stat_walk root p = Found q n -> lookup root q = Some n.
Proof.
  intros H. generalize (namei_sound MAXSYMLINKS true p []).
  unfold stat_walk in H. now rewrite H.
Qed.

Lemma stat_walk_Missing p q name :
  stat_walk root p = Missing q name -> lookup root (q ++ [name]) = None.
Proof.
  intros H. generalize (namei_sound MAXSYMLINKS true p []).
  unfold stat_walk in H. rewrite H. intros [r [es [L A]]].
  now rewrite (lookup_snoc _ _ _ _ _ _ L).
Qed.

Lemma lstat_walk_Missing p q name :
  lstat_walk root p = Missing q name -> lookup root (q ++ [name]) = None.
Proof.
  intros H. generalize (namei_sound MAXSYMLINKS false p []).
  unfold lstat_walk in H. rewrite H. intros [r [es [L A]]].
  now rewrite (lookup_snoc _ _ _ _ _ _ L).
Qed.


Lemma regular_true name :
  regular name = true ->
  String.eqb name ".." = false /\ (String.eqb name "." || String.eqb name "") = false.
Proof.
  unfold regular. destruct (String.eqb name ""), (String.eqb name "."),
    (String.eqb name ".."); simpl; intros H; try discriminate; auto.
Qed.

(** On a clean path the kernel's walk follows no link: it is the
    entry-by-entry walk. *)
Lemma namei_clean links follow lk : forall rest cur n,
  lookup root cur = Some n ->
  clean lk n rest = true ->
  (lk = true -> follow = false) ->
  namei links root follow cur rest = pwalk n cur rest.
Proof.
  induction rest as [|name rest IH]; intros cur n L C Hf.
  - rewrite namei_nil, L. reflexivity.
  - rewrite namei_cons, L. simpl in C. apply andb_prop in C. destruct C as [Hr C].
    destruct (regular_true _ Hr) as [E1 E2].
    destruct n as [b|r x es|t|]; try reflexivity.
    destruct x; [|reflexivity]. simpl. rewrite E1, E2.
    destruct (assoc name es) as [[b|r' x' es'|t|]|] eqn:A; try reflexivity;
      try (apply IH; [now rewrite (lookup_snoc _ _ _ _ _ _ L) | assumption | assumption]).
    apply andb_prop in C. destruct C as [-> C]. destruct rest; [|discriminate].
    rewrite (Hf eq_refl). reflexivity.
Qed.

Lemma pwalk_Found : forall rest n cur q m,
  pwalk n cur rest = Found q m -> q = cur ++ rest /\ lookup n rest = Some m.
Proof.
  induction rest as [|c rest IH]; intros n cur q m H; simpl in *.
  - inversion H; subst. now rewrite app_nil_r.
  - destruct n as [b|r x es|t|]; try discriminate.
    destruct x; [|discriminate]. simpl in H.
    destruct (assoc c es) as [n'|]; [|destruct (is_nil rest); discriminate].
    apply IH in H. destruct H as [-> H]. now rewrite <- app_assoc.
Qed.

Lemma pwalk_Missing : forall rest n cur q name,
  pwalk n cur rest = Missing q name ->
  q ++ [name] = cur ++ rest /\ lookup n rest = None.
Proof.
  induction rest as [|c rest IH]; intros n cur q name H; [discriminate|].
  simpl in H. destruct n as [b|r x es|t|]; try discriminate.
  destruct x; [|discriminate]. simpl in H.
  destruct (assoc c es) as [n'|] eqn:A.
  - apply IH in H. destruct H as [H1 H2]. rewrite <- app_assoc in H1.
    split; [assumption|]. simpl. now rewrite A.
  - destruct rest; [|discriminate]. inversion H; subst. simpl. now rewrite A.
Qed.

Lemma clean_regular lk : forall p n, clean lk n p = true -> forallb regular p = true.
Proof.
  induction p as [|c p IH]; intros n H; [reflexivity|]. simpl in *.
  apply andb_prop in H. destruct H as [-> H]. simpl.
  destruct n as [b|r x es|t|]; try assumption. destruct x; [|assumption].
  destruct (assoc c es) as [[b|r' x' es'|t|]|]; eauto.
  apply andb_prop in H. destruct H as [_ H]. now destruct p.
Qed.

Lemma clean_of_regular lk : forall p n,
  (forall r x es, n <> Dir r x es) -> forallb regular p = true -> clean lk n p = true.
Proof.
  intros [|c p] n Hn H; [reflexivity|]. simpl in *.
  apply andb_prop in H. destruct H as [-> H]. simpl.
  destruct n as [b|r x es|t|]; try assumption. now destruct (Hn r x es).
Qed.

Lemma clean_app : forall p q n,
  clean false n (p ++ q) = true -> clean false n p = true.
Proof.
  induction p as [|c p IH]; intros q n H; [reflexivity|]. simpl in *.
  apply andb_prop in H. destruct H as [-> H]. simpl.
  assert (R : forallb regular (p ++ q) = true -> forallb regular p = true).
  { rewrite forallb_app. intros R. now apply andb_prop in R. }
  destruct n as [b|r x es|t|]; auto. destruct x; auto.
  destruct (assoc c es) as [[b|r' x' es'|t|]|]; eauto.
Qed.

Lemma clean_parent n p : clean false n p = true -> clean false n (parent p) = true.
Proof.
  unfold parent. destruct p as [|c p] using rev_ind; [auto|].
  rewrite removelast_last. apply clean_app.
Qed.

(** One more component keeps a path clean unless it is a link. *)
Lemma clean_snoc lk c : forall p n cur,
  clean false n p = true -> regular c = true ->
  (lk = false -> link_of (pwalk n cur (p ++ [c])) = None) ->
  clean lk n (p ++ [c]) = true.
Proof.
  induction p as [|d p IH]; intros n cur H Hc Hl; simpl in *.
  - rewrite Hc. simpl. destruct n as [b|r x es|t|]; try reflexivity.
    destruct x; [|reflexivity].
    destruct (assoc c es) as [[b|r' x' es'|t|]|]; try reflexivity.
    destruct lk; [reflexivity|]. now specialize (Hl eq_refl).
  - apply andb_prop in H. destruct H as [-> H]. simpl.
    assert (R : forallb regular p = true -> forallb regular (p ++ [c]) = true).
    { intros R. rewrite forallb_app, R. simpl. now rewrite Hc. }
    destruct n as [b|r x es|t|]; auto. destruct x; auto. simpl in Hl.
    destruct (assoc c es) as [[b|r' x' es'|t|]|] eqn:A;
      destruct (assoc d es) as [[b'|r'' x'' es''|t'|]|] eqn:A'; eauto; discriminate.
Qed.

Lemma pwalk_app : forall p q n cur m,
  lookup n p = Some m ->
  clean false n p = true ->
  pwalk n cur p = Found (cur ++ p) m ->
  pwalk n cur (p ++ q) = pwalk m (cur ++ p) q.
Proof.
  induction p as [|c p IH]; intros q n cur m L C W; simpl in *.
  - inversion L; subst. now rewrite app_nil_r.
  - destruct n as [b|r x es|t|]; try discriminate.
    destruct x; [|discriminate]. simpl in *.
    destruct (assoc c es) as [n'|]; [|discriminate].
    apply andb_prop in C. destruct C as [_ C].
    replace (cur ++ c :: p) with ((cur ++ [c]) ++ p) in * by now rewrite <- app_assoc.
    apply IH; auto. destruct n'; auto. discriminate.
Qed.
End Walking.

(** ** Updates of the tree *)

Lemma assoc_set_entry_same c v es : assoc c (set_entry c v es) = Some v.
Proof.
  induction es as [|[n w] es IH]; simpl.
  - now rewrite String.eqb_refl.
  - destruct (String.eqb n c) eqn:E; simpl; now rewrite E.
Qed.

Lemma assoc_set_entry_other c c' v es :
  c' <> c -> assoc c' (set_entry c v es) = assoc c' es.
Proof.
  intros N. induction es as [|[n w] es IH]; simpl.
  - destruct (String.eqb_spec c c'); [congruence | reflexivity].
  - destruct (String.eqb_spec n c) as [->|N']; simpl.
    + destruct (String.eqb_spec c c'); [congruence | reflexivity].
    + now rewrite IH.
Qed.

Lemma assoc_del_entry_same c es : assoc c (del_entry c es) = None.
Proof.
  induction es as [|[n w] es IH]; simpl; [reflexivity|].
  destruct (String.eqb n c) eqn:E; simpl; [assumption | now rewrite E].
Qed.

Lemma assoc_del_entry_other c c' es :
  c' <> c -> assoc c' (del_entry c es) = assoc c' es.
Proof.
  intros N. induction es as [|[n w] es IH]; simpl; [reflexivity|].
  destruct (String.eqb_spec n c) as [->|N']; simpl.
  - rewrite IH. destruct (String.eqb_spec c c'); [congruence | reflexivity].
  - now rewrite IH.
Qed.

Lemma put_cons_None r x es c q o :
  assoc c es = None -> q <> [] -> put (Dir r x es) (c :: q) o = Dir r x es.
Proof. intros A N. destruct q; [congruence|]. simpl. now rewrite A. Qed.

Lemma put_cons_Some r x es c q o n' :
  assoc c es = Some n' -> q <> [] ->
  put (Dir r x es) (c :: q) o = Dir r x (set_entry c (put n' q o) es).
Proof. intros A N. destruct q; [congruence|]. simpl. now rewrite A. Qed.

Lemma fresh_not_link v t : fresh v -> v <> Symlink t.
Proof. intros [->|[b ->]]; discriminate. Qed.

Lemma link_of_pwalk_fresh v cur p : fresh v -> link_of (pwalk v cur p) = None.
Proof.
  intros [->|[b ->]]; destruct p as [|c [|d p]]; reflexivity.
Qed.

Lemma link_of_pwalk_File b cur p : link_of (pwalk (File b) cur p) = None.
Proof. destruct p; reflexivity. Qed.

Section Put.

Variable v : node.
Hypothesis v_fresh : fresh v.

Lemma replaceable_cons r x es c q n' :
  assoc c es = Some n' -> replaceable (Dir r x es) (c :: q) -> replaceable n' q.
Proof. unfold replaceable; simpl. now intros ->. Qed.

(** Creating or rewriting a regular file, or creating an empty
    directory, changes no link. *)
Lemma link_of_pwalk_put : forall q n p cur,
  replaceable n q ->
  link_of (pwalk (put n q (Some v)) cur p) = link_of (pwalk n cur p).
Proof.
  induction q as [|c q IH]; intros n p cur R.
  - simpl. destruct R as [R|[b R]]; [discriminate|]. simpl in R. inversion R; subst.
    now rewrite link_of_pwalk_fresh, link_of_pwalk_File.
  - destruct n as [b|r x es|t|]; try reflexivity.
    destruct p as [|d p]; [now destruct q; [|simpl; destruct (assoc c es)]|].
    destruct (assoc c es) as [n'|] eqn:A.
    + assert (E : put (Dir r x es) (c :: q) (Some v) =
                  Dir r x (set_entry c (put n' q (Some v)) es)).
      { simpl. rewrite A. destruct q; [reflexivity | reflexivity]. }
      rewrite E. simpl. destruct x; [|reflexivity]. simpl.
      destruct (String.eqb_spec d c) as [->|N].
      * rewrite assoc_set_entry_same, A. apply IH.
        eapply replaceable_cons; eauto.
      * now rewrite assoc_set_entry_other.
    + destruct q as [|c' q]; [|simpl; now rewrite A].
      simpl. destruct x; [|reflexivity]. simpl.
      destruct (String.eqb_spec d c) as [->|N].
      * rewrite assoc_set_entry_same, A. rewrite link_of_pwalk_fresh by assumption.
        now destruct (is_nil p).
      * now rewrite assoc_set_entry_other.
Qed.

Lemma clean_fresh lk p : forallb regular p = true -> clean lk v p = true.
Proof.
  intros H. destruct v_fresh as [->|[b ->]].
  - destruct p as [|c p]; [reflexivity|]. simpl in *.
    apply andb_prop in H. destruct H as [-> H]. assumption.
  - apply clean_of_regular; [discriminate | assumption].
Qed.

Lemma put_not_link : forall q n t,
  n <> Symlink t -> put n q (Some v) <> Symlink t.
Proof.
  intros [|c q] n t N; simpl.
  - now apply fresh_not_link.
  - destruct n as [b|r x es|t'|]; try assumption; try discriminate.
    destruct q; [discriminate|]. now destruct (assoc c es).
Qed.

Lemma clean_cons lk r es c p :
  clean lk (Dir r true es) (c :: p) = regular c && clean_entry lk (assoc c es) p.
Proof. reflexivity. Qed.

Lemma clean_entry_not_link lk n p :
  (forall t, n <> Symlink t) -> clean_entry lk (Some n) p = clean lk n p.
Proof. intros H. destruct n; try reflexivity. now destruct (H target). Qed.

Lemma clean_put lk : forall q n p,
  replaceable n q ->
  clean lk n p = true -> clean lk (put n q (Some v)) p = true.
Proof.
  induction q as [|c q IH]; intros n p R C.
  - simpl. apply clean_fresh. eapply clean_regular; eauto.
  - destruct n as [b|r x es|t|]; try assumption.
    destruct p as [|d p]; [reflexivity|].
    destruct x.
    2:{ simpl in *. destruct q; [assumption|]. now destruct (assoc c es). }
    rewrite clean_cons in C. apply andb_prop in C. destruct C as [Hd C].
    destruct (assoc c es) as [n'|] eqn:A.
    + assert (E : put (Dir r true es) (c :: q) (Some v) =
                  Dir r true (set_entry c (put n' q (Some v)) es)).
      { simpl. rewrite A. destruct q; reflexivity. }
      rewrite E, clean_cons, Hd. simpl.
      destruct (String.eqb_spec d c) as [->|N];
        [|now rewrite assoc_set_entry_other].
      rewrite assoc_set_entry_same. rewrite A in C.
      assert (R' := replaceable_cons _ _ _ _ _ _ A R).
      destruct n' as [b|r' x' es'|t|].
      * rewrite clean_entry_not_link by (intros t; apply put_not_link; discriminate).
        now apply IH.
      * rewrite clean_entry_not_link by (intros t; apply put_not_link; discriminate).
        now apply IH.
      * destruct q as [|c' q]; [|exact C].
        destruct R' as [R'|[b R']]; discriminate.
      * rewrite clean_entry_not_link by (intros t; apply put_not_link; discriminate).
        now apply IH.
    + destruct q as [|c' q];
        [|rewrite put_cons_None by (auto; discriminate); rewrite clean_cons, Hd; exact C].
      simpl put. rewrite clean_cons, Hd. simpl.
      destruct (String.eqb_spec d c) as [->|N];
        [|now rewrite assoc_set_entry_other].
      rewrite assoc_set_entry_same. rewrite A in C.
      rewrite clean_entry_not_link by (intros t; now apply fresh_not_link).
      now apply clean_fresh.
Qed.

Lemma count_links_Dir r x es : count_links (Dir r x es) = count_entries es.
Proof.
  unfold count_entries. simpl. induction es as [|[n c] es IH]; simpl; congruence.
Qed.

Lemma count_set_entry c w es :
  count_entries (set_entry c w es) +
  match assoc c es with Some old => count_links old | None => 0 end =
  count_entries es + count_links w.
Proof.
  unfold count_entries. induction es as [|[n c'] es IH]; simpl; [lia|].
  destruct (String.eqb n c); simpl; lia.
Qed.

Lemma count_links_fresh : count_links v = 0.
Proof. destruct v_fresh as [->|[b ->]]; reflexivity. Qed.

Lemma count_links_put : forall q n,
  replaceable n q -> count_links (put n q (Some v)) = count_links n.
Proof.
  induction q as [|c q IH]; intros n R.
  - simpl. destruct R as [R|[b R]]; [discriminate|]. inversion R; subst.
    apply count_links_fresh.
  - destruct n as [b|r x es|t|]; try reflexivity.
    destruct (assoc c es) as [n'|] eqn:A.
    + assert (E : put (Dir r x es) (c :: q) (Some v) =
                  Dir r x (set_entry c (put n' q (Some v)) es)).
      { simpl. rewrite A. destruct q; reflexivity. }
      rewrite E, !count_links_Dir.
      generalize (count_set_entry c (put n' q (Some v)) es). rewrite A.
      rewrite (IH n') by (eapply replaceable_cons; eauto). lia.
    + destruct q as [|c' q]; [|now rewrite put_cons_None by (auto; discriminate)].
      simpl put. rewrite !count_links_Dir.
      generalize (count_set_entry c v es). rewrite A, count_links_fresh. lia.
Qed.

End Put.

(** ** Resolution *)

Section Resolution.

Variable root : node.

Lemma joinrealpath_nil fuel seen path :
  joinrealpath fuel root seen path [] = Return (Resolved path).
Proof. destruct fuel; reflexivity. Qed.

Lemma joinrealpath_cons fuel seen path name rest :
  joinrealpath fuel root seen path (name :: rest) =
  if String.eqb name "" || String.eqb name "."
  then joinrealpath fuel root seen path rest
  else if String.eqb name ".." then joinrealpath fuel root seen (parent path) rest
  else if has_nul name then Raise (ValueError "embedded null byte")
  else
    match os_lstat root (path ++ [name]) with
    | Return (Symlink tgt) =>
        if existsb (Path_eqb (path ++ [name])) seen
        then Return (Unresolved
                       (posix_join (str_path (path ++ [name])) (join "/" rest)))
        else
          match fuel with
          | O => Return (Unresolved
                           (posix_join (str_path (path ++ [name])) (join "/" rest)))
          | S fuel' =>
              match joinrealpath fuel' root ((path ++ [name]) :: seen)
                      (if startswith "/" tgt then [] else path)
                      (split_slash tgt) with
              | Return (Resolved p) => joinrealpath fuel root seen p rest
              | Return (Unresolved s) =>
                  Return (Unresolved (posix_join s (join "/" rest)))
              | Raise e => Raise e
              end
          end
    | _ => joinrealpath fuel root seen (path ++ [name]) rest
    end.
Proof. destruct fuel; reflexivity. Qed.

Lemma regular_of_tests name :
  (String.eqb name "" || String.eqb name ".") = false ->
  String.eqb name ".." = false -> regular name = true.
Proof.
  unfold regular. destruct (String.eqb name ""), (String.eqb name "."),
    (String.eqb name ".."); simpl; intros; congruence.
Qed.

(** On a clean path followed by a regular name, [lstat] walks entry by
    entry. *)
Lemma os_lstat_clean path name :
  clean false root path = true -> regular name = true ->
  os_lstat root (path ++ [name]) =
  lift_walk (path ++ [name]) (pwalk root [] (path ++ [name])).
Proof.
  intros C R. unfold os_lstat, lstat_walk.
  rewrite (namei_clean root MAXSYMLINKS false true (path ++ [name]) [] root);
    [reflexivity | reflexivity | | reflexivity].
  now apply clean_snoc with (cur := []).
Qed.

Lemma stat_walk_clean p :
  clean false root p = true -> stat_walk root p = pwalk root [] p.
Proof.
  intros C. unfold stat_walk.
  now apply (namei_clean root MAXSYMLINKS true false p [] root).
Qed.

Lemma lstat_walk_clean p :
  clean false root p = true -> lstat_walk root p = pwalk root [] p.
Proof.
  intros C. unfold lstat_walk.
  now apply (namei_clean root MAXSYMLINKS false false p [] root).
Qed.

Lemma lift_walk_link p w t :
  lift_walk p w = Return (Symlink t) <-> link_of w = Some t.
Proof.
  destruct w as [q [b|r x es|t'|]|q nm|e]; simpl; split; intros H;
    try discriminate; congruence.
Qed.

(** What [joinrealpath] returns without a loop is clean. *)
Lemma joinrealpath_clean fuel : forall seen rest path p,
  clean false root path = true ->
  joinrealpath fuel root seen path rest = Return (Resolved p) ->
  clean false root p = true.
Proof.
  induction fuel as [|fuel IHf]; intros seen rest;
    induction rest as [|name rest IH]; intros path p C H.
  1,3: rewrite joinrealpath_nil in H; now inversion H; subst.
  all: rewrite joinrealpath_cons in H;
    destruct (String.eqb name "" || String.eqb name ".") eqn:E1; [now apply IH in H|];
    destruct (String.eqb name "..") eqn:E2;
      [apply IH in H; [assumption | now apply clean_parent]|];
    destruct (has_nul name); [discriminate|];
    assert (R := regular_of_tests _ E1 E2);
    assert (K : (forall t, os_lstat root (path ++ [name]) <> Return (Symlink t)) ->
                clean false root (path ++ [name]) = true)
      by (intros K; apply clean_snoc with (cur := @nil string); auto; intros _;
          rewrite os_lstat_clean in * by assumption;
          destruct (link_of (pwalk root [] (path ++ [name]))) as [t|] eqn:L; auto;
          apply (lift_walk_link (path ++ [name])) in L; now destruct (K t));
    destruct (os_lstat root (path ++ [name])) as [[b|r x es|t|]|e] eqn:S;
    try (apply IH in H; [assumption | apply K; intros t'; discriminate]);
    destruct (existsb (Path_eqb (path ++ [name])) seen); try discriminate.
  destruct (joinrealpath fuel root ((path ++ [name]) :: seen)
              (if startswith "/" t then [] else path) (split_slash t))
    as [[p1|s1]|e] eqn:J; try discriminate.
  apply IH in H; [assumption|]. apply IHf in J; [assumption|].
  now destruct (startswith "/" t).
Qed.

(** The entry-by-entry walk never reports a link loop. *)
Lemma pwalk_not_ELOOP : forall rest n cur, pwalk n cur rest <> Fail ELOOP.
Proof.
  induction rest as [|c rest IH]; intros n cur; simpl; [discriminate|].
  destruct n as [b|r x es|t|]; try discriminate.
  destruct x; simpl; [|discriminate].
  destruct (assoc c es); [apply IH|]. destruct (is_nil rest); discriminate.
Qed.

Lemma os_stat_clean_not_ELOOP p f :
  clean false root p = true -> os_stat root p <> Raise (OSError ELOOP f).
Proof.
  intros C. unfold os_stat. rewrite (stat_walk_clean p C).
  generalize (pwalk_not_ELOOP p root []).
  destruct (pwalk root [] p) as [q n|q nm|e]; try discriminate.
  intros N H. apply N. unfold fail_with in H. now inversion H.
Qed.

End Resolution.

(** ** Resolution in a tree that was extended *)

Lemma match_lift_walk A p w (f : string -> A) (g : A) :
  match lift_walk p w with
  | Return (Symlink t) => f t
  | _ => g
  end =
  match link_of w with
  | Some t => f t
  | None => g
  end.
Proof. now destruct w as [q [b|r x es|t|]|q nm|e]. Qed.

Section Stability.

Variable root : node.
Variable q : Path.
Variable v : node.
Hypothesis v_fresh : fresh v.
Hypothesis q_replaceable : replaceable root q.

Let root' := put root q (Some v).

Lemma joinrealpath_put fuel : forall seen rest path,
  clean false root path = true ->
  joinrealpath fuel root' seen path rest = joinrealpath fuel root seen path rest.
Proof.
  induction fuel as [|fuel IHf]; intros seen rest;
    induction rest as [|name rest IH]; intros path C.
  1,3: now rewrite !joinrealpath_nil.
  all: rewrite !joinrealpath_cons;
    destruct (String.eqb name "" || String.eqb name ".") eqn:E1; [now apply IH|];
    destruct (String.eqb name "..") eqn:E2; [apply IH; now apply clean_parent|];
    destruct (has_nul name); [reflexivity|];
    assert (R := regular_of_tests _ E1 E2);
    assert (C' : clean false root' path = true) by (now apply clean_put);
    rewrite !os_lstat_clean by assumption;
    rewrite !match_lift_walk;
    unfold root'; rewrite link_of_pwalk_put by assumption; fold root';
    (destruct (link_of (pwalk root [] (path ++ [name]))) as [t|] eqn:L;
     [| apply IH; apply clean_snoc with (cur := @nil string); auto]);
    destruct (existsb (Path_eqb (path ++ [name])) seen); try reflexivity.
  rewrite IHf by (now destruct (startswith "/" t)).
  destruct (joinrealpath fuel root ((path ++ [name]) :: seen)
              (if startswith "/" t then [] else path) (split_slash t))
    as [[p1|s1]|e] eqn:J; try reflexivity.
  apply IH. apply joinrealpath_clean in J; [assumption|].
  now destruct (startswith "/" t).
Qed.

End Stability.

Lemma extends_clean lk root root' p :
  extends root root' -> clean lk root p = true -> clean lk root' p = true.
Proof.
  induction 1 as [root|root root' q v E IH F R]; intros C; [assumption|].
  apply clean_put; auto.
Qed.

Lemma extends_count_links root root' :
  extends root root' -> count_links root' = count_links root.
Proof.
  induction 1 as [root|root root' q v E IH F R]; [reflexivity|].
  now rewrite count_links_put.
Qed.

Lemma extends_joinrealpath root root' fuel seen path rest :
  extends root root' ->
  clean false root path = true ->
  joinrealpath fuel root' seen path rest = joinrealpath fuel root seen path rest.
Proof.
  induction 1 as [root|root root' q v E IH F R]; intros C; [reflexivity|].
  rewrite joinrealpath_put; auto. eapply extends_clean; eauto.
Qed.

Lemma extends_trans a b c : extends a b -> extends b c -> extends a c.
Proof.
  intros H1 H2. induction H2 as [b|b c q v E IH F R]; [assumption|].
  apply extends_put; auto.
Qed.

(** What [resolve] returns is made of regular components. *)
Lemma forallb_removelast {A} (f : A -> bool) l :
  forallb f l = true -> forallb f (removelast l) = true.
Proof.
  induction l as [|a l IH]; [auto|]. simpl. intros H.
  apply andb_prop in H. destruct H as [Ha Hl].
  destruct l; [reflexivity|]. simpl in *. rewrite Ha. now apply IH.
Qed.

Lemma normparts_regular : forall comps acc,
  forallb regular acc = true -> forallb regular (normparts comps acc) = true.
Proof.
  induction comps as [|c comps IH]; intros acc H; simpl; [assumption|].
  destruct (String.eqb c "" || String.eqb c ".") eqn:E1; [now apply IH|].
  destruct (String.eqb c "..") eqn:E2; [apply IH; now apply forallb_removelast|].
  apply IH. rewrite forallb_app, H. simpl.
  now rewrite (regular_of_tests _ E1 E2).
Qed.

Lemma normpath_parts s : parts_of (normpath s) = normparts (split_slash s) [].
Proof. unfold normpath. now destruct (String.prefix "//" s && negb (String.prefix "///" s)). Qed.

(** The two ways in which [resolve] returns a path: the walk resolved
    it, and it is clean; or the walk met a link loop, and the path is
    the normal form of the text that was left unresolved. *)
Lemma resolve_Return root cwd raw p :
  resolve root cwd raw = Return p ->
  has_nul (str_pure p) = false /\
  (forall f, os_stat root (parts_of p) <> Raise (OSError ELOOP f)) /\
  (joinrealpath (count_links root) root []
     (if startswith "/" raw then [] else cwd) (parse_parts raw) =
     Return (Resolved (parts_of p)) /\ p = Posix (parts_of p)
   \/ exists s,
     joinrealpath (count_links root) root []
       (if startswith "/" raw then [] else cwd) (parse_parts raw) =
       Return (Unresolved s) /\ p = normpath s).
Proof.
  unfold resolve. intros H.
  destruct (joinrealpath (count_links root) root []
              (if startswith "/" raw then [] else cwd) (parse_parts raw))
    as [r|e]; [|discriminate].
  cbv [bind] in H.
  set (p0 := match r with Resolved path => Posix path | Unresolved s => normpath s end) in *.
  destruct (has_nul (str_pure p0)) eqn:Hn; [discriminate|].
  assert (Hs : forall f, os_stat root (parts_of p0) <> Raise (OSError ELOOP f)).
  { intros f Hf. rewrite Hf in H. discriminate. }
  assert (E : p0 = p).
  { destruct (os_stat root (parts_of p0)) as [n|[ | [] ? | | | | | | ]];
      now inversion H. }
  subst p. split; [assumption|]. split; [assumption|].
  destruct r as [path|s]; [left | right; exists s]; split; reflexivity.
Qed.

Lemma resolve_of_joinrealpath root cwd raw r p :
  joinrealpath (count_links root) root []
    (if startswith "/" raw then [] else cwd) (parse_parts raw) = Return r ->
  p = match r with Resolved path => Posix path | Unresolved s => normpath s end ->
  has_nul (str_pure p) = false ->
  (forall f, os_stat root (parts_of p) <> Raise (OSError ELOOP f)) ->
  resolve root cwd raw = Return p.
Proof.
  intros J -> Hn Hs. unfold resolve. rewrite J. cbv [bind].
  set (p0 := match r with Resolved path => Posix path | Unresolved s => normpath s end) in *.
  rewrite Hn.
  destruct (os_stat root (parts_of p0)) as [n|[ | e f | | | | | | ]] eqn:S;
    try reflexivity.
  destruct e; try reflexivity. now destruct (Hs f).
Qed.

Lemma resolve_regular root cwd raw d :
  clean false root cwd = true ->
  resolve root cwd raw = Return (Posix d) -> forallb regular d = true.
Proof.
  intros C H. apply resolve_Return in H. destruct H as [_ [_ [[J _]|[s [_ E]]]]].
  - simpl in J. apply joinrealpath_clean in J.
    + eapply clean_regular; eauto.
    + now destruct (startswith "/" raw).
  - assert (P := normpath_parts s). rewrite <- E in P. simpl in P. rewrite P.
    now apply normparts_regular.
Qed.

Lemma normalize_path_regular roots root cwd raw d :
  clean false root cwd = true ->
  normalize_path roots cwd root raw = Return d -> forallb regular d = true.
Proof.
  intros C H. apply normalize_path_Return in H. destruct H as [H _].
  eapply resolve_regular; eauto.
Qed.

(** In a tree that was extended, [resolve] returns the same path as
    before unless [stat] of that path now reports a link loop; it does
    not when the path holds no link of the extended tree. *)
Lemma extends_resolve_stat root root' cwd raw d :
  extends root root' ->
  clean false root cwd = true ->
  resolve root cwd raw = Return (Posix d) ->
  (forall f, os_stat root' d <> Raise (OSError ELOOP f)) ->
  resolve root' cwd raw = Return (Posix d).
Proof.
  intros E C H Sd. apply resolve_Return in H. destruct H as [Hn [_ J]].
  assert (J' : exists r,
             joinrealpath (count_links root') root' []
               (if startswith "/" raw then [] else cwd) (parse_parts raw) = Return r /\
             Posix d = match r with
                       | Resolved path => Posix path
                       | Unresolved s => normpath s
                       end).
  { rewrite (extends_count_links _ _ E), (extends_joinrealpath _ _ _ _ _ _ E)
      by (now destruct (startswith "/" raw)).
    destruct J as [[J _]|[s [J Es]]]; eauto. }
  destruct J' as [r [J' Er]].
  exact (resolve_of_joinrealpath _ _ _ _ _ J' Er Hn Sd).
Qed.

Lemma extends_normalize_path_stat roots root root' cwd raw d :
  extends root root' ->
  clean false root cwd = true ->
  normalize_path roots cwd root raw = Return d ->
  (forall f, os_stat root' d <> Raise (OSError ELOOP f)) ->
  normalize_path roots cwd root' raw = Return d.
Proof.
  intros E C H Sd. apply normalize_path_Return in H. destruct H as [H W].
  apply normalize_path_Return. split; [|assumption].
  eapply extends_resolve_stat; eauto.
Qed.


(** A path at which a directory can be made holds no link. *)
Lemma clean_of_creatable : forall d n,
  creatable n d = true -> forallb regular d = true -> clean false n d = true.
Proof.
  induction d as [|c d IH]; intros n H R; [reflexivity|].
  simpl in R. apply andb_prop in R. destruct R as [Rc Rd].
  destruct n as [b|r x es|t|]; try discriminate. simpl in H.
  apply andb_prop in H. destruct H as [-> H]. simpl. rewrite Rc. simpl.
  destruct (assoc c es) as [n'|]; [|assumption].
  destruct n' as [b|r' x' es'|t|]; try (now destruct d); now apply IH.
Qed.

Lemma normalize_path_creatable roots root cwd raw d :
  clean false root cwd = true ->
  normalize_path roots cwd root raw = Return d ->
  creatable root d = true ->
  clean false root d = true.
Proof.
  intros C N K. apply clean_of_creatable; [assumption|].
  eapply normalize_path_regular; eauto.
Qed.

(** ** The sandbox rejects what lies outside the roots *)

(** When [resolve] returns a path that is neither an allowed root nor
    below one by components, [normalize_path] raises the HTTP error that
    wraps the access-denied error. *)
Lemma normalize_path_rejects_outside :
  forall (ALLOWED_PATHS : list Path) (cwd : Path) (root : node)
         (raw : string) (c : Path),
    resolve root cwd raw = Return (Posix c) ->
    (forall r, In r ALLOWED_PATHS -> ~ within r c) ->
    normalize_path ALLOWED_PATHS cwd root raw =
    Raise (HTTPException 400
             ("Invalid path: " ++ str_exn (access_denied ALLOWED_PATHS))).
Proof.
  intros roots cwd root raw c R H. now apply normalize_path_outside with (c := c).
Qed.

Lemma outside_workspace (c : Path) :
  hd_error c <> Some "workspace" ->
  forall r, In r Example.roots -> ~ within r c.
Proof.
  intros H r [<-|[]] [rel ->]. now apply H.
Qed.

(** A [..] traversal out of the root, a link inside the root whose
    target is outside, and a sibling whose name extends the root's, are
    rejected; a path that resolves into the root is accepted. *)
Example traversal_rejected :
  resolve Example.tree Example.cwd "/workspace/../etc/passwd" =
    Return (Posix ["etc"; "passwd"]) /\
  normalize_path Example.roots Example.cwd Example.tree "/workspace/../etc/passwd" =
  Raise (HTTPException 400
           "Invalid path: 403: Access denied. Path must be within: /workspace").
Proof. split; reflexivity. Qed.

Example symlink_escape_rejected :
  resolve Example.tree Example.cwd "/workspace/out/passwd" =
    Return (Posix ["etc"; "passwd"]) /\
  normalize_path Example.roots Example.cwd Example.tree "/workspace/out/passwd" =
  Raise (HTTPException 400
           "Invalid path: 403: Access denied. Path must be within: /workspace").
Proof. split; reflexivity. Qed.

Example sibling_prefix_rejected :
  resolve Example.tree Example.cwd "/workspace-evil/x" =
    Return (Posix ["workspace-evil"; "x"]) /\
  normalize_path Example.roots Example.cwd Example.tree "/workspace-evil/x" =
  Raise (HTTPException 400
           "Invalid path: 403: Access denied. Path must be within: /workspace").
Proof. split; reflexivity. Qed.

Example inside_accepted :
  normalize_path Example.roots Example.cwd Example.tree "../workspace/./docs//img/" =
  Return ["workspace"; "docs"; "img"].
Proof. reflexivity. Qed.

(** A link that points to itself is reported as a loop when the path
    ends on it or goes on below it. *)
Example link_loop_rejected :
  resolve Example.escape_tree Example.cwd "/workspace/loop" =
    Raise (RuntimeError "Symlink loop from '/workspace/loop'") /\
  normalize_path Example.roots Example.cwd Example.escape_tree "/workspace/loop/x" =
  Raise (HTTPException 400 "Invalid path: Symlink loop from '/workspace/loop/x'").
Proof. split; reflexivity. Qed.

(** C1: the canonical form that [normalize_path] tests is not always
    where the path leads.  With the roots [/workspace], a link
    [/workspace/loop] that points to itself and a link [/workspace/out]
    to [/etc], the path [/workspace/loop/../out/passwd] is left
    unresolved at the loop, normalised by text to
    [/workspace/out/passwd], and accepted, because that text lies below
    the root by components; the file that the accepted path leads to is
    [/etc/passwd], outside every root, and [read_file] returns its
    content. *)
Theorem link_loop_leads_outside_the_roots :
  joinrealpath (count_links Example.escape_tree) Example.escape_tree [] []
    (parse_parts "/workspace/loop/../out/passwd") =
    Return (Unresolved "/workspace/loop/../out/passwd") /\
  normalize_path Example.roots Example.cwd Example.escape_tree
    "/workspace/loop/../out/passwd" = Return ["workspace"; "out"; "passwd"] /\
  stat_walk Example.escape_tree ["workspace"; "out"; "passwd"] =
    Found ["etc"; "passwd"] (Example.file "root:x:0:0") /\
  (forall r, In r Example.roots -> ~ within r ["etc"; "passwd"]) /\
  read_file Example.roots Example.cwd python_codecs Example.escape_tree
    (Example.read_request "/workspace/loop/../out/passwd" "utf-8" 1048576) =
  Return {| ReadFileResponse.content := text_of_string "root:x:0:0";
            ReadFileResponse.file_info :=
              {| FileInfo.name := "passwd";
                 FileInfo.path := "/workspace/out/passwd";
                 FileInfo.type := "file";
                 FileInfo.size := Some 10%Z |};
            ReadFileResponse.encoding := "utf-8" |}.
Proof.
  split; [reflexivity|]. split; [reflexivity|]. split; [reflexivity|].
  split; [|reflexivity]. apply outside_workspace. discriminate.
Qed.

(** C2: [normalize_path] never raises the status 403 that it builds for
    a path outside the roots: the [except Exception] around it turns the
    403 into a 400, the status of a malformed path.  For the roots
    [/workspace] the path [/etc/passwd] gets status 400, with the text of
    the 403 inside the detail. *)
Theorem access_denied_is_reported_as_invalid :
  (forall ALLOWED_PATHS cwd root raw detail,
     normalize_path ALLOWED_PATHS cwd root raw <> Raise (HTTPException 403 detail)) /\
  normalize_path Example.roots Example.cwd Example.tree "/etc/passwd" =
  Raise (HTTPException 400
           "Invalid path: 403: Access denied. Path must be within: /workspace") /\
  normalize_path Example.roots Example.cwd Example.tree (String zero "") =
  Raise (HTTPException 400 "Invalid path: embedded null byte").
Proof.
  split; [|split; reflexivity].
  intros roots cwd root raw detail H.
  apply normalize_path_Raise in H. destruct H as [cause H]. discriminate.
Qed.

(** ** The size limit of [read_file] *)



(** The size test comes before the decoding: a file at the limit whose
    bytes the encoding does not decode passes the test and fails
    after it, with status 400. *)
Example undecodable_file_at_the_limit :
  stat Example.binary_tree ["workspace"; "bin.dat"] = Return (File [Byte.xff]) /\
  st_size (File [Byte.xff]) = 1%Z /\
  read_file Example.roots Example.cwd python_codecs Example.binary_tree
    (Example.read_request "/workspace/bin.dat" "utf-8" 1) =
  Raise (HTTPException 400 "Cannot decode file with encoding: utf-8").
Proof. repeat split; reflexivity. Qed.

Example read_file_one_byte_limit :
  read_file Example.roots Example.cwd python_codecs Example.tree
    {| ReadFileRequest.path := "/workspace/a.txt";
       ReadFileRequest.encoding := "utf-8";
       ReadFileRequest.max_size := 1 |} =
  Raise (HTTPException 413 "File too large. Max size: 1 bytes").
Proof. reflexivity. Qed.

(** ** Deleting what is neither file nor directory *)

(** C10: when the resolved path exists and is neither a regular file nor
    a directory, [delete_path] raises nothing, deletes nothing, and
    returns Python's [None]. *)
Theorem delete_path_special_falls_through :
  forall ALLOWED_PATHS cwd root request d,
    normalize_path ALLOWED_PATHS cwd root (DeletePathRequest.path request) = Return d ->
    stat root d = Return Special ->
    delete_path ALLOWED_PATHS cwd request root = (root, Return None).
Proof.
  intros roots cwd root request d N S. unfold delete_path. rewrite N.
  unfold exists_, is_file, is_dir. rewrite !(stat_test_of_stat _ _ _ _ S).
  reflexivity.
Qed.

Lemma delete_path_special_falls_through_witness :
  delete_path Example.roots Example.cwd
    {| DeletePathRequest.path := "/workspace/sock";
       DeletePathRequest.recursive := true |} Example.tree =
  (Example.tree, Return None).
Proof.
  apply (delete_path_special_falls_through Example.roots Example.cwd Example.tree
           _ ["workspace"; "sock"]); reflexivity.
Defined.

(** ** Hidden directories are not entered *)

(** C9: with [show_hidden] false, every entry of a listing was reached
    from the listed directory through names none of which starts with a
    dot: each component of its path below the directory was enumerated
    in the directory before it, each but the last is a directory that
    was entered, and none is hidden.  So hidden entries are left out,
    and so is everything that can only be reached through a hidden
    directory: a hidden directory is never entered. *)
Theorem hidden_directories_are_pruned :
  forall ALLOWED_PATHS cwd root request listing,
    ListDirectoryRequest.show_hidden request = false ->
    list_directory ALLOWED_PATHS cwd root request = Return listing ->
    exists d,
      normalize_path ALLOWED_PATHS cwd root (ListDirectoryRequest.path request) = Return d /\
      forall info, In info (DirectoryListing.items listing) ->
        exists rel, rel <> [] /\
                    Forall (fun name => startswith "." name = false) rel /\
                    reached root request d rel /\
                    get_file_info root (d ++ rel) = Return info /\
                    FileInfo.path info = str_path (d ++ rel) /\
                    FileInfo.name info = last rel "".
Proof.
  intros roots cwd root request listing Hs H. unfold list_directory in H.
  destruct (normalize_path roots cwd root (ListDirectoryRequest.path request))
    as [d|e] eqn:N; [|discriminate].
  exists d. split; [reflexivity|]. cbv [bind] in H.
  destruct (exists_ root d) as [[|]|]; try discriminate. simpl negb in H. cbv iota in H.
  destruct (is_dir root d) as [[|]|]; try discriminate. simpl negb in H. cbv iota in H.
  destruct (add_items_sound root request MAX_LEVEL d []) as [new [E F]].
  destruct (add_items root request MAX_LEVEL d []) as [items [e|]]; [discriminate|].
  inversion H; subst listing; clear H. simpl in *. subst new.
  intros info Hin. rewrite Forall_forall in F.
  destruct (F info Hin) as [rel [H1 [_ [H2 H3]]]].
  exists rel. split; [assumption|].
  split; [eapply reached_visible; eauto|]. split; [assumption|].
  split; [assumption|].
  apply get_file_info_Return in H3. destruct H3 as [n [_ ->]]. simpl.
  split; [reflexivity|]. unfold name_of.
  destruct rel as [|c rel] using rev_ind; [congruence|].
  now rewrite app_assoc, !last_snoc.
Qed.

Lemma hidden_directories_are_pruned_witness :
  list_directory Example.roots Example.cwd Example.tree
    (Example.list_request "/workspace" true false) = Return Example.visible_listing /\
  Example.names Example.visible_listing =
    [ "/workspace/a.txt"; "/workspace/docs"; "/workspace/docs/readme.md";
      "/workspace/docs/img"; "/workspace/docs/img/logo.png";
      "/workspace/locked"; "/workspace/vault"; "/workspace/out";
      "/workspace/out/passwd"; "/workspace/sock"; "/workspace/empty";
      "/workspace/z.txt" ] /\
  exists d,
    normalize_path Example.roots Example.cwd Example.tree "/workspace" = Return d /\
    forall info, In info (DirectoryListing.items Example.visible_listing) ->
      exists rel, rel <> [] /\
                  Forall (fun name => startswith "." name = false) rel /\
                  reached Example.tree (Example.list_request "/workspace" true false)
                    d rel /\
                  get_file_info Example.tree (d ++ rel) = Return info /\
                  FileInfo.path info = str_path (d ++ rel) /\
                  FileInfo.name info = last rel "".
Proof.
  split; [reflexivity|]. split; [reflexivity|].
  apply (hidden_directories_are_pruned Example.roots Example.cwd Example.tree
           (Example.list_request "/workspace" true false) Example.visible_listing);
    reflexivity.
Defined.

(** The hidden directory [.git] holds [config]; neither is listed, and
    with [show_hidden] both are. *)
Example hidden_directory_is_not_entered :
  lookup Example.tree ["workspace"; ".git"; "config"] = Some (Example.file "[core]") /\
  existsb (String.eqb "/workspace/.git/config")
    (Example.names Example.visible_listing) = false /\
  existsb (String.eqb "/workspace/.git")
    (Example.names Example.visible_listing) = false /\
  existsb (String.eqb "/workspace/.git/config")
    (Example.names
       (Example.listing_of
          (list_directory Example.roots Example.cwd Example.tree
             (Example.list_request "/workspace" true true)))) = true.
Proof. repeat split; reflexivity. Qed.

(** ** Induction on the tree *)

Lemma node_induction (P : node -> Prop) :
  (forall b, P (File b)) ->
  (forall r x es, Forall (fun e => P (snd e)) es -> P (Dir r x es)) ->
  (forall t, P (Symlink t)) ->
  P Special ->
  forall n, P n.
Proof.
  intros HF HD HL HS.
  refine (fix IH (n : node) : P n :=
            match n with
            | File b => HF b
            | Dir r x es =>
                HD r x es
                  ((fix go (es : entries) : Forall (fun e => P (snd e)) es :=
                      match es with
                      | [] => Forall_nil _
                      | (nm, c) :: es' => Forall_cons (nm, c) (IH c) (go es')
                      end) es)
            | Symlink t => HL t
            | Special => HS
            end).
Qed.

(** ** Walks in a tree that was changed at the end of a walk *)

Lemma lookup_put_same v : forall q n,
  lookup n q <> None -> lookup (put n q (Some v)) q = Some v.
Proof.
  induction q as [|c q IH]; intros n H; [reflexivity|].
  destruct n as [b|r x es|t|]; try (now destruct H).
  simpl in H. destruct (assoc c es) as [n'|] eqn:A; [|now destruct H].
  destruct q as [|c' q].
  - simpl. now rewrite assoc_set_entry_same.
  - rewrite put_cons_Some with (n' := n') by (auto; discriminate).
    simpl lookup. rewrite assoc_set_entry_same. now apply IH.
Qed.

Lemma put_Dir r x es c q o :
  exists es', put (Dir r x es) (c :: q) o = Dir r x es'.
Proof.
  destruct q as [|c' q]; simpl; [eauto|]. destruct (assoc c es); eauto.
Qed.

(** Away from the place that is changed, the tree keeps its
    directories, with their permissions, and its links; a directory
    above that place keeps its entries but the one that leads there. *)
Lemma lookup_put_alike o : forall cur q n,
  (forall rel, cur <> q ++ rel) ->
  match lookup n cur with
  | Some (Dir r x es) =>
      exists es',
        lookup (put n q o) cur = Some (Dir r x es') /\
        forall name,
          (cur ++ [name] = q -> assoc name es' = o) /\
          (cur ++ [name] <> q ->
           match assoc name es with
           | None => assoc name es' = None
           | Some (Symlink t) => assoc name es' = Some (Symlink t)
           | Some _ => exists m, assoc name es' = Some m /\ forall t, m <> Symlink t
           end)
  | Some m => lookup (put n q o) cur = Some m
  | None => True
  end.
Proof.
  assert (Same : forall es name,
            match assoc name es with
            | None => assoc name es = None
            | Some (Symlink t) => assoc name es = Some (Symlink t)
            | Some _ => exists m, assoc name es = Some m /\ forall t, m <> Symlink t
            end).
  { intros es name. destruct (assoc name es) as [[b|r x es0|t|]|];
      try reflexivity; eexists; (split; [reflexivity | discriminate]). }
  induction cur as [|a cur IH]; intros q n H.
  - destruct q as [|c q]; [now destruct (H [])|].
    destruct n as [b|r x es|t|]; try reflexivity. simpl lookup.
    destruct q as [|c' q].
    + eexists. split; [reflexivity|]. intros name. split.
      * intros E. inversion E; subst.
        destruct o; [apply assoc_set_entry_same | apply assoc_del_entry_same].
      * intros E. assert (N : name <> c) by (intros ->; now apply E).
        destruct o;
          [rewrite assoc_set_entry_other by assumption
          |rewrite assoc_del_entry_other by assumption]; apply Same.
    + destruct (assoc c es) as [n'|] eqn:A.
      * exists (set_entry c (put n' (c' :: q) o) es).
        split; [reflexivity|]. intros name.
        split; [intros E; discriminate|]. intros _.
        destruct (String.eqb_spec name c) as [->|N];
          [|rewrite assoc_set_entry_other by assumption; apply Same].
        rewrite assoc_set_entry_same, A.
        destruct n' as [b|r' x' es'|t|]; try reflexivity;
          try (eexists; split; [reflexivity | discriminate]).
        destruct (put_Dir r' x' es' c' q o) as [es'' ->].
        eexists; split; [reflexivity | discriminate].
      * exists es. split; [reflexivity|]. intros name.
        split; [intros E; discriminate|]. intros _. apply Same.
  - destruct n as [b|r x es|t|]; try exact I.
    destruct (assoc a es) as [n'|] eqn:A; [|simpl; now rewrite A].
    assert (L0 : lookup (Dir r x es) (a :: cur) = lookup n' cur)
      by (simpl; now rewrite A).
    rewrite L0.
    destruct q as [|c q]; [now destruct (H (a :: cur))|].
    destruct (String.eqb_spec a c) as [->|N].
    + destruct q as [|c' q]; [now destruct (H cur)|].
      rewrite put_cons_Some with (n' := n') by (auto; discriminate).
      simpl lookup. rewrite assoc_set_entry_same.
      assert (H' : forall rel, cur <> (c' :: q) ++ rel).
      { intros rel E. apply (H rel). simpl. now rewrite E. }
      specialize (IH (c' :: q) n' H').
      destruct (lookup n' cur) as [[b|r0 x0 es0|t|]|]; try assumption.
      destruct IH as [es' [L K]]. exists es'. split; [assumption|].
      intros name. destruct (K name) as [K1 K2]. split.
      * intros E. apply K1. simpl in E. now inversion E.
      * intros E. apply K2. intros E'. apply E. simpl. now rewrite E'.
    + assert (E : lookup (put (Dir r x es) (c :: q) o) (a :: cur) =
                  lookup n' cur).
      { destruct q as [|c' q].
        - simpl. destruct o; simpl;
            [rewrite assoc_set_entry_other by assumption
            |rewrite assoc_del_entry_other by assumption]; now rewrite A.
        - simpl put. destruct (assoc c es) as [m|]; simpl lookup;
            [rewrite assoc_set_entry_other by assumption|]; now rewrite A. }
      rewrite E. destruct (lookup n' cur) as [[b|r0 x0 es0|t|]|]; try reflexivity.
      exists es0. split; [reflexivity|]. intros name. split.
      * intros E'. simpl in E'. inversion E'. congruence.
      * intros _. apply Same.
Qed.

Lemma not_below_snoc (q : Path) cur name :
  cur <> q ->
  (forall rel, rel <> [] -> cur <> q ++ rel) ->
  forall rel, rel <> [] -> cur ++ [name] <> q ++ rel.
Proof.
  intros N P rel Hr E. destruct rel as [|c rel] using rev_ind; [congruence|].
  rewrite app_assoc in E. apply app_inj_tail in E. destruct E as [E _].
  destruct rel as [|c' rel]; [rewrite app_nil_r in E; congruence|].
  apply (P (c' :: rel)); [discriminate | assumption].
Qed.

Lemma not_below_parent (q : Path) cur :
  (forall rel, rel <> [] -> cur <> q ++ rel) ->
  forall rel, rel <> [] -> parent cur <> q ++ rel.
Proof.
  intros P rel Hr E. unfold parent in E.
  destruct cur as [|c cur] using rev_ind.
  - simpl in E. destruct q; destruct rel; try discriminate; congruence.
  - rewrite removelast_last in E. apply (P (rel ++ [c])).
    + now destruct rel.
    + now rewrite E, app_assoc.
Qed.

Section PutFresh.

Variable root : node.
Variable q : Path.
Hypothesis q_replaceable : replaceable root q.

(** A walk that ends on the regular file that is replaced, or that
    misses only the object that is created, ends on the new object in
    the new tree. *)
Lemma namei_put_end v links :
  fresh v ->
  forall follow rest cur,
  (forall rel, rel <> [] -> cur <> q ++ rel) ->
  (forall n, namei links root follow cur rest = Found q n ->
             namei links (put root q (Some v)) follow cur rest = Found q v) /\
  (forall p nm, namei links root follow cur rest = Missing p nm ->
                p ++ [nm] = q ->
                namei links (put root q (Some v)) follow cur rest = Found q v).
Proof.
  intros Fv.
  assert (Hv : forall (A : Type) (f : string -> A) (g : A),
            match v with Symlink t => f t | _ => g end = g)
    by (intros A f g; destruct Fv as [->|[b ->]]; reflexivity).
  set (root' := put root q (Some v)).
  induction links as [|links IHl]; intros follow rest;
    induction rest as [|name rest IH]; intros cur P.
  1,3: rewrite !namei_nil; destruct (lookup root cur) as [n0|] eqn:L;
    (split; [|discriminate]); intros n H; inversion H; subst cur n0;
    unfold root'; rewrite lookup_put_same; [reflexivity | congruence].
  all: rewrite !namei_cons;
    (destruct (list_eq_dec string_dec cur q) as [->|N];
     [destruct q_replaceable as [R|[b0 R]]; rewrite R; split; discriminate|]);
    assert (Q : forall rel, cur <> q ++ rel)
      by (intros [|c rel]; [now rewrite app_nil_r | apply P; discriminate]);
    generalize (lookup_put_alike (Some v) cur q root Q); fold root';
    (destruct (lookup root cur) as [[b0|r x es|t|]|] eqn:L;
     try (intros _; split; discriminate));
    intros [es' [L' K]]; rewrite L';
    (destruct x; simpl negb; cbv iota; [|split; discriminate]);
    (destruct (String.eqb name ".."); [apply IH; now apply not_below_parent|]);
    (destruct (String.eqb name "." || String.eqb name ""); [now apply IH|]);
    destruct (K name) as [K1 K2];
    (destruct (list_eq_dec string_dec (cur ++ [name]) q) as [E|E];
     [ rewrite (K1 E), Hv;
       assert (A : assoc name es = lookup root q)
         by (now rewrite <- E, (lookup_snoc _ _ _ _ _ _ L));
       destruct q_replaceable as [R|[b0 R]]; rewrite A, R;
       [ destruct rest; simpl is_nil; cbv iota; [|split; discriminate];
         rewrite namei_nil, (lookup_snoc _ _ _ _ _ _ L'), (K1 E);
         split; [discriminate|]; intros p nm _ _; now rewrite E
       | rewrite E; apply IH; intros rel Hr Eq;
         apply (f_equal (@List.length string)) in Eq; rewrite length_app in Eq;
         destruct rel; [congruence | simpl in Eq; lia] ]
     | specialize (K2 E);
       destruct (assoc name es) as [[b0|r0 x0 es0|t|]|] eqn:A;
       [ destruct K2 as [m [-> Hm]]; destruct m as [b1|r1 x1 es1|t1|];
         try (now destruct (Hm t1)); apply IH; now apply not_below_snoc
       | destruct K2 as [m [-> Hm]]; destruct m as [b1|r1 x1 es1|t1|];
         try (now destruct (Hm t1)); apply IH; now apply not_below_snoc
       | rewrite K2
       | destruct K2 as [m [-> Hm]]; destruct m as [b1|r1 x1 es1|t1|];
         try (now destruct (Hm t1)); apply IH; now apply not_below_snoc
       | rewrite K2; destruct (is_nil rest);
         (split; [discriminate|]); try discriminate;
         intros p nm H Eq; inversion H; subst; congruence ] ]).
  - destruct (is_nil rest && negb follow); [|split; discriminate].
    split; [|discriminate]. intros n H. inversion H; congruence.
  - destruct (is_nil rest && negb follow).
    + split; [|discriminate]. intros n H. inversion H; congruence.
    + apply IHl. destruct (startswith "/" t); [|assumption].
      intros rel Hr Eq. destruct q; destruct rel; try discriminate; congruence.
Qed.

Lemma stat_walk_put_end v d :
  fresh v ->
  (exists n, stat_walk root d = Found q n) \/
  (exists p nm, stat_walk root d = Missing p nm /\ p ++ [nm] = q) ->
  stat_walk (put root q (Some v)) d = Found q v.
Proof.
  intros Fv.
  assert (P : forall rel, rel <> [] -> @nil string <> q ++ rel).
  { intros rel Hr Eq. destruct q; destruct rel; try discriminate; congruence. }
  destruct (namei_put_end v MAXSYMLINKS Fv true d [] P) as [H1 H2].
  intros [[n W]|[p [nm [W E]]]]; [eapply H1 | eapply H2]; eauto.
Qed.

End PutFresh.

(** What [lstat] misses, [stat] misses. *)
Lemma namei_Missing_follow root links : forall rest cur q nm,
  namei links root false cur rest = Missing q nm ->
  namei links root true cur rest = Missing q nm.
Proof.
  induction links as [|links IHl]; intros rest;
    induction rest as [|name rest IH]; intros cur q nm H.
  1,3: rewrite namei_nil in *; destruct (lookup root cur); discriminate.
  all: rewrite namei_cons in *;
    destruct (lookup root cur) as [[b0|r x es|t|]|] eqn:L; try discriminate;
    (destruct x; simpl negb in *; cbv iota in *; [|discriminate]);
    (destruct (String.eqb name ".."); [now apply IH|]);
    (destruct (String.eqb name "." || String.eqb name ""); [now apply IH|]);
    destruct (assoc name es) as [[b0|r0 x0 es0|t|]|] eqn:A;
    try (now apply IH); try assumption;
    rewrite andb_false_r; simpl negb in H; rewrite andb_true_r in H;
    (destruct (is_nil rest); [discriminate|]); try discriminate.
  now apply IHl.
Qed.


(** What [lstat] finds and is no link, [stat] finds. *)
Lemma namei_Found_follow root links : forall rest cur q n,
  namei links root false cur rest = Found q n ->
  (forall t, n <> Symlink t) ->
  namei links root true cur rest = Found q n.
Proof.
  induction links as [|links IHl]; intros rest;
    induction rest as [|name rest IH]; intros cur q n H Hn.
  1,3: now rewrite namei_nil in *.
  all: rewrite namei_cons in *;
    destruct (lookup root cur) as [[b0|r x es|t|]|] eqn:L; try discriminate;
    (destruct x; simpl negb in *; cbv iota in *; [|discriminate]);
    (destruct (String.eqb name ".."); [now apply IH|]);
    (destruct (String.eqb name "." || String.eqb name ""); [now apply IH|]);
    destruct (assoc name es) as [[b0|r0 x0 es0|t|]|] eqn:A;
    try (now apply IH); try assumption;
    rewrite andb_false_r; simpl negb in H; rewrite andb_true_r in H;
    (destruct (is_nil rest); [inversion H; subst; now destruct (Hn t)|]);
    try discriminate.
  now apply IHl.
Qed.

Section PutNone.

Variable root : node.
Variable q : Path.

(** A walk that ended on the object that is removed ends nowhere in the
    new tree. *)
Lemma namei_put_None links : forall follow rest cur n,
  (forall rel, cur <> q ++ rel) ->
  namei links root follow cur rest = Found q n ->
  (exists p nm, namei links (put root q None) follow cur rest = Missing p nm) \/
  namei links (put root q None) follow cur rest = Fail ENOENT.
Proof.
  set (root' := put root q None).
  assert (Snoc : forall cur name,
            (forall rel, cur <> q ++ rel) -> cur ++ [name] <> q ->
            forall rel, cur ++ [name] <> q ++ rel).
  { intros cur name Q E [|c rel]; [now rewrite app_nil_r|].
    apply not_below_snoc; [|intros rel' _; apply Q | discriminate].
    intros Eq. apply (Q []). now rewrite app_nil_r. }
  assert (Par : forall cur,
            (forall rel, cur <> q ++ rel) -> forall rel, parent cur <> q ++ rel).
  { intros cur Q [|c rel]; [|apply not_below_parent;
                              [intros rel' _; apply Q | discriminate]].
    rewrite app_nil_r. unfold parent. intros Eq.
    destruct cur as [|c cur] using rev_ind.
    - apply (Q []). now rewrite app_nil_r, <- Eq.
    - rewrite removelast_last in Eq. apply (Q [c]). now rewrite Eq. }
  induction links as [|links IHl]; intros follow rest;
    induction rest as [|name rest IH]; intros cur n Q H.
  1,3: rewrite namei_nil in H; destruct (lookup root cur); inversion H; subst;
    destruct (Q []); now rewrite app_nil_r.
  all: rewrite namei_cons in H; rewrite namei_cons;
    generalize (lookup_put_alike None cur q root Q); fold root';
    (destruct (lookup root cur) as [[b0|r x es|t|]|] eqn:L; try discriminate);
    intros [es' [L' K]]; rewrite L';
    (destruct x; simpl negb in *; cbv iota in *; [|discriminate]);
    (destruct (String.eqb name ".."); [apply (IH _ n); [now apply Par | assumption]|]);
    (destruct (String.eqb name "." || String.eqb name ""); [now apply (IH _ n)|]);
    destruct (K name) as [K1 K2];
    (destruct (list_eq_dec string_dec (cur ++ [name]) q) as [E|E];
     [rewrite (K1 E); destruct (is_nil rest); [left; eauto | now right]|]);
    specialize (K2 E);
    (destruct (assoc name es) as [[b0|r0 x0 es0|t|]|] eqn:A;
     [ destruct K2 as [m [-> Hm]]; destruct m as [b1|r1 x1 es1|t1|];
       try (now destruct (Hm t1)); (apply (IH _ n); [now apply Snoc | assumption])
     | destruct K2 as [m [-> Hm]]; destruct m as [b1|r1 x1 es1|t1|];
       try (now destruct (Hm t1)); (apply (IH _ n); [now apply Snoc | assumption])
     | rewrite K2
     | destruct K2 as [m [-> Hm]]; destruct m as [b1|r1 x1 es1|t1|];
       try (now destruct (Hm t1)); (apply (IH _ n); [now apply Snoc | assumption])
     | destruct (is_nil rest); discriminate ]).
  - destruct (is_nil rest && negb follow); [|discriminate].
    inversion H; subst. now destruct E.
  - destruct (is_nil rest && negb follow).
    + inversion H; subst. now destruct E.
    + apply (IHl _ _ _ n); [|assumption].
      destruct (startswith "/" t); [|assumption].
      intros rel Eq. destruct q as [|c q0]; [|discriminate].
      apply (Q cur). reflexivity.
Qed.

(** After the removal of what [lstat] of a path finds, when that is no
    link, the path leads nowhere. *)
Lemma exists_after_put_None d n :
  q <> [] ->
  lstat_walk root d = Found q n ->
  (forall t, n <> Symlink t) ->
  exists_ (put root q None) d = Return false.
Proof.
  intros Nq W Hn. apply namei_Found_follow in W; [|assumption].
  assert (Q : forall rel, @nil string <> q ++ rel).
  { intros rel Eq. destruct q; [congruence | discriminate]. }
  unfold exists_, stat_test, stat, os_stat, stat_walk.
  destruct (namei_put_None MAXSYMLINKS true d [] n Q W) as [[p [nm ->]]| ->];
    reflexivity.
Qed.

End PutNone.

(** ** Removing *)

Lemma accessible_Dir r x es :
  accessible (Dir r x es) = r && x && forallb (fun e => accessible (snd e)) es.
Proof.
  simpl. f_equal. induction es as [|[nm c] es IH]; simpl; congruence.
Qed.

Lemma rmtree_safe_fd_Dir p r x es :
  rmtree_safe_fd p (Dir r x es) =
  let '(es', err) :=
    (fix go (es : entries) : entries * option exn :=
       match es with
       | [] => ([], None)
       | (name, c) :: tl =>
           if negb x then (es, Some (OSError EACCES name))
           else
             match c with
             | Dir r' _ _ =>
                 if negb r'
                 then (es, Some (OSError EACCES name))
                 else
                   match rmtree_safe_fd (p ++ [name]) c with
                   | (_, None) => go tl
                   | (c', Some e) => ((name, c') :: tl, Some e)
                   end
             | _ => go tl
             end
       end) es in
  (Dir r x es', err).
Proof. reflexivity. Qed.

Arguments rmtree_safe_fd : simpl never.

(** [rmtree] empties a directory whose subtree is accessible. *)
Lemma rmtree_safe_fd_accessible : forall n p r x es,
  n = Dir r x es -> accessible n = true ->
  rmtree_safe_fd p n = (Dir r x [], None).
Proof.
  induction n as [b|r0 x0 es0 IH|t|] using node_induction;
    intros p r x es E A; try discriminate.
  inversion E; subst r0 x0 es0; clear E.
  rewrite accessible_Dir in A. apply andb_prop in A. destruct A as [A1 A].
  apply andb_prop in A1. destruct A1 as [-> ->].
  rewrite rmtree_safe_fd_Dir. simpl negb. cbv iota.
  revert IH A. induction es as [|[nm c] es IHes]; intros IH A; [reflexivity|].
  simpl in A. apply andb_prop in A. destruct A as [Ac A].
  inversion IH as [|? ? IHc IHrest]; subst.
  specialize (IHes IHrest A).
  destruct c as [b|r' x' es'|t|]; try exact IHes.
  specialize (IHc (p ++ [nm]) r' x' es' eq_refl Ac). simpl snd in IHc.
  rewrite accessible_Dir in Ac. apply andb_prop in Ac. destruct Ac as [Ac _].
  apply andb_prop in Ac. destruct Ac as [-> _]. simpl negb. cbv iota.
  rewrite IHc. exact IHes.
Qed.

Lemma pwalk_cons r es cur c rest :
  pwalk (Dir r true es) cur (c :: rest) =
  match assoc c es with
  | Some n' => pwalk n' (cur ++ [c]) rest
  | None => if is_nil rest then Missing cur c else Fail ENOENT
  end.
Proof. reflexivity. Qed.

Section Removing.

Variable root : node.

Lemma stat_clean p n :
  clean false root p = true -> stat root p = Return n ->
  pwalk root [] p = Found p n.
Proof.
  intros C S. unfold stat, os_stat in S. rewrite stat_walk_clean in S by assumption.
  destruct (pwalk root [] p) as [q m|q nm|e] eqn:W; try discriminate.
  inversion S; subst m. apply pwalk_Found in W. destruct W as [W _]. simpl in W.
  now subst q.
Qed.

End Removing.

(** ** Deleting a directory that is not empty *)

(** C3, as the code has it: when the accepted path names a directory
    that is not empty, the directory itself and not a link to one,
    [delete_path] without [recursive] fails with the status 500 that the
    handler gives to every error of the deletion, the detail carrying
    the text of the operating-system error (directory not empty;
    resource busy for the root of the tree), and the tree is unchanged,
    so the directory still exists; with [recursive], when the directory
    is not the root of the tree and every directory in it can be read
    and searched, it succeeds, the directory is removed from the place
    where it was, and the path no longer exists. *)
Theorem delete_non_empty_directory :
  forall ALLOWED_PATHS cwd root raw d q r x e es,
    normalize_path ALLOWED_PATHS cwd root raw = Return d ->
    lstat_walk root d = Found q (Dir r x (e :: es)) ->
    (delete_path ALLOWED_PATHS cwd
       {| DeletePathRequest.path := raw; DeletePathRequest.recursive := false |} root =
     (root,
      Raise (HTTPException 500
               ("Error deleting path: " ++
                str_exn (OSError (match q with [] => EBUSY | _ => ENOTEMPTY end)
                           (str_path d)))))
     /\ exists_ root d = Return true) /\
    (q <> [] -> accessible (Dir r x (e :: es)) = true ->
     delete_path ALLOWED_PATHS cwd
       {| DeletePathRequest.path := raw; DeletePathRequest.recursive := true |} root =
     (put root q None,
      Return (Some {| SuccessResponse.success := true;
                      SuccessResponse.message :=
                        "Directory deleted recursively: " ++ str_path d |}))
     /\ exists_ (put root q None) d = Return false).
Proof.
  intros roots cwd root raw d q r x e es N L.
  assert (S : stat root d = Return (Dir r x (e :: es))).
  { unfold stat, os_stat, stat_walk. unfold lstat_walk in L.
    rewrite (namei_Found_follow _ _ _ _ _ _ L); [reflexivity | discriminate]. }
  split; [split|].
  - unfold delete_path. simpl DeletePathRequest.path. rewrite N.
    unfold exists_, is_file, is_dir. rewrite !(stat_test_of_stat _ _ _ _ S).
    simpl S_ISREG. simpl S_ISDIR. cbv iota. simpl DeletePathRequest.recursive. cbv iota.
    unfold rmdir, os_rmdir. rewrite L. now destruct q.
  - unfold exists_. now rewrite (stat_test_of_stat _ _ _ _ S).
  - intros Nq A. split; [|eapply exists_after_put_None; eauto; discriminate].
    unfold delete_path. simpl DeletePathRequest.path. rewrite N.
    unfold exists_, is_file, is_dir. rewrite !(stat_test_of_stat _ _ _ _ S).
    simpl S_ISREG. simpl S_ISDIR. cbv iota. simpl DeletePathRequest.recursive. cbv iota.
    unfold rmtree. rewrite L.
    rewrite (rmtree_safe_fd_accessible _ d r x (e :: es) eq_refl A).
    rewrite accessible_Dir in A. apply andb_prop in A. destruct A as [A _].
    apply andb_prop in A. destruct A as [-> _]. simpl negb. cbv iota.
    destruct q; [congruence | reflexivity].
Qed.

Lemma delete_non_empty_directory_witness :
  (delete_path Example.roots Example.cwd (Example.delete_request "/workspace/docs" false)
     Example.tree =
   (Example.tree,
    Raise (HTTPException 500
             "Error deleting path: [Errno 39] Directory not empty: '/workspace/docs'"))
   /\ exists_ Example.tree ["workspace"; "docs"] = Return true) /\
  (delete_path Example.roots Example.cwd (Example.delete_request "/workspace/docs" true)
     Example.tree =
   (put Example.tree ["workspace"; "docs"] None,
    Return (Some {| SuccessResponse.success := true;
                    SuccessResponse.message :=
                      "Directory deleted recursively: /workspace/docs" |}))
   /\ exists_ (put Example.tree ["workspace"; "docs"] None) ["workspace"; "docs"] =
      Return false).
Proof.
  destruct (delete_non_empty_directory Example.roots Example.cwd Example.tree
              "/workspace/docs" ["workspace"; "docs"] ["workspace"; "docs"] true true
              ("readme.md", Example.file "# readme")
              [("img", Dir true true [("logo.png", Example.file "PNG")])]
              eq_refl eq_refl) as [H1 H2].
  split; [exact H1|]. apply H2; [discriminate | reflexivity].
Defined.

(** The failure on a directory that is not empty has the status and the
    detail prefix of the other failures of a deletion: here beside it, a
    recursive deletion that stops on a directory that cannot be read.
    And when the accepted path ends on a link to a directory that is not
    empty, which happens for a path that met a link loop, neither call
    behaves as on the directory: without [recursive] the error is that
    of a path that is no directory, with [recursive] the link is
    refused, and the path still exists. *)
Lemma directory_not_empty_is_not_distinct :
  let not_empty :=
    snd (delete_path Example.roots Example.cwd
           (Example.delete_request "/workspace/docs" false) Example.tree) in
  let unreadable :=
    snd (delete_path Example.roots Example.cwd
           (Example.delete_request "/workspace/locked" true) Example.tree) in
  (not_empty =
     Raise (HTTPException 500
              "Error deleting path: [Errno 39] Directory not empty: '/workspace/docs'") /\
   unreadable =
     Raise (HTTPException 500
              "Error deleting path: [Errno 13] Permission denied: '/workspace/locked'") /\
   status_of not_empty = status_of unreadable) /\
  (normalize_path Example.roots Example.cwd Example.escape_tree "/workspace/loop/../lnk" =
     Return ["workspace"; "lnk"] /\
   stat Example.escape_tree ["workspace"; "lnk"] =
     Return (Dir true true [("readme.md", Example.file "# readme")]) /\
   delete_path Example.roots Example.cwd
     (Example.delete_request "/workspace/loop/../lnk" false) Example.escape_tree =
     (Example.escape_tree,
      Raise (HTTPException 500
               "Error deleting path: [Errno 20] Not a directory: '/workspace/lnk'")) /\
   delete_path Example.roots Example.cwd
     (Example.delete_request "/workspace/loop/../lnk" true) Example.escape_tree =
     (Example.escape_tree,
      Raise (HTTPException 500
               "Error deleting path: Cannot call rmtree on a symbolic link")) /\
   exists_ Example.escape_tree ["workspace"; "lnk"] = Return true).
Proof. repeat split; reflexivity. Qed.

(** ** Creating *)

Lemma fresh_Dir : fresh (Dir true true []).
Proof. now left. Qed.

Lemma fresh_File b : fresh (File b).
Proof. right. now exists b. Qed.

Lemma pwalk_put_Some v : forall p n cur,
  (exists q m, pwalk n cur p = Found q m) \/
  (exists q nm, pwalk n cur p = Missing q nm) ->
  pwalk (put n p (Some v)) cur p = Found (cur ++ p) v.
Proof.
  induction p as [|c p IH]; intros n cur H.
  - simpl. now rewrite app_nil_r.
  - assert (D : exists r es, n = Dir r true es).
    { destruct H as [[q [m H]]|[q [nm H]]]; simpl in H;
        destruct n as [b|r x es|t|]; try discriminate;
        destruct x; try discriminate; eauto. }
    destruct D as [r [es ->]]. rewrite pwalk_cons in H.
    destruct p as [|c' p].
    + simpl put. rewrite pwalk_cons, assoc_set_entry_same. reflexivity.
    + destruct (assoc c es) as [n'|] eqn:A.
      * rewrite (put_cons_Some _ _ _ _ _ _ _ A) by discriminate.
        rewrite pwalk_cons, assoc_set_entry_same, IH by assumption.
        now rewrite <- app_assoc.
      * simpl in H. destruct H as [[q [m H]]|[q [nm H]]]; discriminate.
Qed.

Section Creating.

Variable root : node.

Lemma os_mkdir_extends p root' r :
  os_mkdir p root = (root', r) -> extends root root'.
Proof.
  unfold os_mkdir. destruct (lstat_walk root p) as [q n|q nm|e] eqn:W;
    intros H; inversion H; subst; try apply extends_refl.
  apply extends_put; [apply extends_refl | apply fresh_Dir |].
  left. now apply lstat_walk_Missing with (p := p).
Qed.

(** On a clean path [os.mkdir] either makes the directory at this very
    path or changes nothing. *)
Lemma os_mkdir_clean p root' r :
  clean false root p = true ->
  os_mkdir p root = (root', r) ->
  (r = Return tt /\ root' = put root p (Some (Dir true true [])) /\
   exists q nm, pwalk root [] p = Missing q nm) \/
  (exists e, r = Raise e /\ root' = root).
Proof.
  intros C. unfold os_mkdir. rewrite lstat_walk_clean by assumption.
  destruct (pwalk root [] p) as [q n|q nm|e] eqn:W; intros H; inversion H; subst;
    try (right; eexists; split; reflexivity).
  left. assert (W' := W). apply pwalk_Missing in W. destruct W as [W _].
  simpl in W. rewrite W. split; [reflexivity|]. split; [reflexivity|]. eauto.
Qed.

End Creating.

Lemma is_dir_after_put root p q nm :
  clean false root p = true ->
  pwalk root [] p = Missing q nm ->
  is_dir (put root p (Some (Dir true true []))) p = Return true.
Proof.
  intros C W.
  assert (R : replaceable root p)
    by (left; now apply pwalk_Missing in W).
  unfold is_dir, stat_test, stat, os_stat.
  rewrite stat_walk_clean by (apply clean_put; auto using fresh_Dir).
  rewrite pwalk_put_Some by eauto. reflexivity.
Qed.

Lemma mkdir_here_extends p exist_ok root root' r :
  mkdir_here p exist_ok root = (root', r) -> extends root root'.
Proof.
  unfold mkdir_here. destruct (os_mkdir p root) as [root1 [u|e]] eqn:M.
  - intros H; inversion H; subst. eapply os_mkdir_extends; eauto.
  - apply os_mkdir_extends in M.
    destruct (is_FileNotFoundError e); [intros H; now inversion H; subst|].
    destruct (is_OSError e); [|intros H; now inversion H; subst].
    destruct (negb exist_ok); [intros H; now inversion H; subst|].
    destruct (is_dir root1 p) as [[|]|]; intros H; now inversion H; subst.
Qed.

Lemma mkdir_rev_eq rp parents exist_ok root :
  mkdir_rev rp parents exist_ok root =
  match os_mkdir (rev rp) root with
  | (root', Raise e) =>
      if is_FileNotFoundError e then
        match rp with
        | [] => (root', Raise e)
        | _ :: rp' =>
            if negb parents then (root', Raise e)
            else
              match mkdir_rev rp' true true root' with
              | (root'', Return _) => mkdir_here (rev rp) exist_ok root''
              | (root'', Raise e') => (root'', Raise e')
              end
        end
      else if is_OSError e then
        if negb exist_ok then (root', Raise e)
        else match is_dir root' (rev rp) with
             | Return true => (root', Return tt)
             | Return false => (root', Raise e)
             | Raise e' => (root', Raise e')
             end
      else (root', Raise e)
  | r => r
  end.
Proof. destruct rp; reflexivity. Qed.

Lemma mkdir_rev_extends : forall rp parents exist_ok root root' r,
  mkdir_rev rp parents exist_ok root = (root', r) -> extends root root'.
Proof.
  induction rp as [|c rp IH]; intros parents exist_ok root root' r;
    rewrite mkdir_rev_eq;
    destruct (os_mkdir _ root) as [root1 [u|e]] eqn:M;
    apply os_mkdir_extends in M;
    try (intros H; inversion H; subst; assumption);
    (destruct (is_FileNotFoundError e);
     [| destruct (is_OSError e); [|intros H; now inversion H; subst];
        destruct (negb exist_ok); [intros H; now inversion H; subst|];
        destruct (is_dir root1 _) as [[|]|]; intros H; now inversion H; subst ]).
  - intros H; now inversion H; subst.
  - destruct (negb parents); [intros H; now inversion H; subst|].
    destruct (mkdir_rev rp true true root1) as [root2 [u|e']] eqn:M2;
      apply IH in M2.
    + intros H. apply mkdir_here_extends in H.
      eapply extends_trans; [eassumption|]. eapply extends_trans; eassumption.
    + intros H; inversion H; subst. eapply extends_trans; eassumption.
Qed.

(** After a successful [mkdir] the path is a directory. *)
Lemma mkdir_here_is_dir p exist_ok root root' :
  clean false root p = true ->
  mkdir_here p exist_ok root = (root', Return tt) ->
  is_dir root' p = Return true.
Proof.
  intros C. unfold mkdir_here.
  destruct (os_mkdir p root) as [root1 r] eqn:M.
  destruct (os_mkdir_clean _ _ _ _ C M) as [[-> [-> [q [nm W]]]]|[e [-> ->]]].
  - intros H; injection H as <-. eapply is_dir_after_put; eauto.
  - destruct (is_FileNotFoundError e); [discriminate|].
    destruct (is_OSError e); [|discriminate].
    destruct (negb exist_ok); [discriminate|].
    destruct (is_dir root p) as [[|]|] eqn:D; intros H; inversion H; now subst.
Qed.

Lemma mkdir_rev_is_dir : forall rp parents exist_ok root root',
  clean false root (rev rp) = true ->
  mkdir_rev rp parents exist_ok root = (root', Return tt) ->
  is_dir root' (rev rp) = Return true.
Proof.
  intros rp parents exist_ok root root' C H.
  rewrite mkdir_rev_eq in H.
  destruct (os_mkdir (rev rp) root) as [root1 r] eqn:M.
  destruct (os_mkdir_clean _ _ _ _ C M) as [[-> [-> [q [nm W]]]]|[e [-> ->]]].
  - injection H as <-. eapply is_dir_after_put; eauto.
  - destruct (is_FileNotFoundError e).
    + destruct rp as [|c rp]; [discriminate|].
      destruct (negb parents); [discriminate|].
      destruct (mkdir_rev rp true true root) as [root2 [u|e']] eqn:M2;
        [|discriminate].
      apply mkdir_rev_extends in M2.
      eapply mkdir_here_is_dir; [|exact H].
      eapply extends_clean; eauto.
    + destruct (is_OSError e); [|discriminate].
      destruct (negb exist_ok); [discriminate|].
      destruct (is_dir root (rev rp)) as [[|]|] eqn:D; inversion H; now subst.
Qed.


(** ** Traversal when every entry can be examined *)

Section Examined.
Variable root : node.
Variable request : ListDirectoryRequest.t.











End Examined.

(** ** The listing and its depth *)



Example cycle_listing_has_eleven_entries :
  list_directory Example.roots Example.cwd Example.cycle_tree
    (Example.list_request "/workspace" true false) = Return Example.cycle_listing /\
  DirectoryListing.total_items Example.cycle_listing = 11%Z.
Proof. split; reflexivity. Qed.


(** Thirteen directories deep, eleven entries listed. *)
Example deep_listing_is_cut :
  lookup Example.deep_tree
    ("workspace" :: repeat "d" 13) = Some (Example.file "bottom") /\
  option_map Example.names
    (match list_directory Example.roots Example.cwd Example.deep_tree
             (Example.list_request "/workspace" true false) with
     | Return l => Some l
     | Raise _ => None
     end) =
  Some [ "/workspace/d"; "/workspace/d/d"; "/workspace/d/d/d";
         "/workspace/d/d/d/d"; "/workspace/d/d/d/d/d";
         "/workspace/d/d/d/d/d/d"; "/workspace/d/d/d/d/d/d/d";
         "/workspace/d/d/d/d/d/d/d/d"; "/workspace/d/d/d/d/d/d/d/d/d";
         "/workspace/d/d/d/d/d/d/d/d/d/d";
         "/workspace/d/d/d/d/d/d/d/d/d/d/d" ].
Proof. split; reflexivity. Qed.

(** Without [recursive], the children only; a link to a directory is
    entered like a directory when the listing is recursive. *)
Example flat_listing :
  option_map Example.names
    (match list_directory Example.roots Example.cwd Example.quiet_tree
             (Example.list_request "/workspace" false false) with
     | Return l => Some l
     | Raise _ => None
     end) =
  Some [ "/workspace/a.txt"; "/workspace/locked"; "/workspace/vault";
         "/workspace/docs"; "/workspace/z.txt" ].
Proof. reflexivity. Qed.

(** ** Permission errors during a listing *)

(** A permission error never leaves [add_items], whatever the tree. *)
Lemma permission_errors_do_not_escape root request left path items :
  no_permission_error (add_items root request left path items).
Proof. apply add_items_no_permission_error. Qed.

(** C5: the [try] of [add_items] stands around the whole loop, not
    around one entry.  When the metadata of an entry cannot be read for
    want of permission, the error is swallowed, but the loop over the
    directory that holds the entry ends there: what was collected so far
    is kept, and the entries that come after it in that directory are
    not examined and not returned, whatever they are. *)
Theorem permission_error_ends_the_enumeration :
  forall root request descend path name names items e,
    lets_through request name = true ->
    get_file_info root (path ++ [name]) = Raise e ->
    is_PermissionError e = true ->
    for_items root request descend path (name :: names) items = (items, None).
Proof.
  intros root request descend path name names items e Hl G Pe. simpl.
  rewrite lets_through_of_test, Hl. simpl negb. cbv iota.
  rewrite G. unfold swallow. now rewrite Pe.
Qed.

(** The entry [peek] is a link into a directory that cannot be searched:
    reading its metadata raises a permission error, which ends the
    enumeration of [/workspace]; [b.txt], which comes after it and can
    be read, is not listed. *)
Lemma permission_error_ends_the_enumeration_witness :
  iterdir Example.peek_tree ["workspace"] = Return ["peek"; "b.txt"; "vault"] /\
  get_file_info Example.peek_tree ["workspace"; "b.txt"] =
    Return (info_of ["workspace"; "b.txt"] (Example.file "b")) /\
  for_items Example.peek_tree (Example.list_request "/workspace" false true) None
    ["workspace"] ["peek"; "b.txt"; "vault"] [] = ([], None) /\
  list_directory Example.roots Example.cwd Example.peek_tree
    (Example.list_request "/workspace" false true) =
  Return {| DirectoryListing.path := "/workspace";
            DirectoryListing.items := [];
            DirectoryListing.total_items := 0 |}.
Proof.
  split; [reflexivity|]. split; [reflexivity|]. split; [|reflexivity].
  apply (permission_error_ends_the_enumeration Example.peek_tree
           (Example.list_request "/workspace" false true) None ["workspace"]
           "peek" ["b.txt"; "vault"] [] (OSError EACCES "/workspace/peek"));
    reflexivity.
Defined.

(** [locked] cannot be read and [vault] cannot be searched: both are
    listed, nothing inside them is, and the entries after them are. *)
Example closed_directories_are_skipped :
  option_map Example.names
    (match list_directory Example.roots Example.cwd Example.quiet_tree
             (Example.list_request "/workspace" true true) with
     | Return l => Some l
     | Raise _ => None
     end) =
  Some [ "/workspace/a.txt"; "/workspace/locked"; "/workspace/vault";
         "/workspace/docs"; "/workspace/docs/readme.md"; "/workspace/z.txt" ].
Proof. reflexivity. Qed.

(** An entry whose metadata cannot be read for another reason, here a
    dangling link, is not swallowed: the exception leaves the handler. *)
Example dangling_link_fails_the_listing :
  list_directory Example.roots Example.cwd Example.dangling_tree
    (Example.list_request "/workspace" false true) =
  Raise (OSError ENOENT "/workspace/gone").
Proof. reflexivity. Qed.

(** ** Writing, then reading *)

Lemma os_open_w_clean root d root' q :
  clean false root d = true ->
  os_open_w d root = (root', Return q) ->
  q = d /\ root' = put root d (Some (File [])) /\ replaceable root d /\
  ((exists q m, pwalk root [] d = Found q m) \/
   (exists q nm, pwalk root [] d = Missing q nm)).
Proof.
  intros C. unfold os_open_w. rewrite stat_walk_clean by assumption.
  destruct (pwalk root [] d) as [p [b|r x es|t|]|p nm|e] eqn:W;
    intros H; inversion H; subst; clear H.
  - assert (W' := W). apply pwalk_Found in W. destruct W as [-> L]. simpl.
    split; [reflexivity|]. split; [reflexivity|].
    split; [right; now exists b | left; eauto].
  - assert (W' := W). apply pwalk_Missing in W. destruct W as [-> L]. simpl.
    split; [reflexivity|]. split; [reflexivity|].
    split; [now left | right; eauto].
Qed.

Lemma stat_after_put root d v :
  fresh v ->
  clean false root d = true ->
  replaceable root d ->
  ((exists q m, pwalk root [] d = Found q m) \/
   (exists q nm, pwalk root [] d = Missing q nm)) ->
  stat (put root d (Some v)) d = Return v.
Proof.
  intros F C R W. unfold stat, os_stat.
  rewrite stat_walk_clean by (now apply clean_put).
  now rewrite pwalk_put_Some.
Qed.

Lemma lookup_of_stat root d n :
  clean false root d = true -> stat root d = Return n -> lookup root d = Some n.
Proof.
  intros C S. apply stat_clean in S; [|assumption]. now apply pwalk_Found in S.
Qed.

Section Writing.

Variable codecs : string -> option codec.

(** A successful [write_text] on a clean path leaves at that path the
    regular file that holds the encoded text. *)
Lemma write_text_clean root d data enc root2 n :
  clean false root d = true ->
  write_text codecs d data enc root = (root2, Return n) ->
  exists c b,
    codecs enc = Some c /\ encode c data = Some b /\
    extends root root2 /\ stat root2 d = Return (File b).
Proof.
  intros C. unfold write_text.
  destruct (os_open_w d root) as [root1 [q|e]] eqn:O; [|discriminate].
  destruct (os_open_w_clean _ _ _ _ C O) as [-> [-> [R W]]].
  destruct (codecs enc) as [c|]; [|discriminate].
  destruct (encode c data) as [b|] eqn:E; [|discriminate].
  intros H. injection H as <- _. exists c, b.
  assert (C1 : clean false (put root d (Some (File []))) d = true)
    by (apply clean_put; auto using fresh_File).
  assert (S1 : stat (put root d (Some (File []))) d = Return (File []))
    by (apply stat_after_put; auto using fresh_File).
  assert (R1 : replaceable (put root d (Some (File []))) d).
  { right. exists []. now apply lookup_of_stat. }
  split; [reflexivity|]. split; [assumption|]. split.
  - apply extends_put; [|apply fresh_File | assumption].
    apply extends_put; [apply extends_refl | apply fresh_File | assumption].
  - apply stat_after_put; auto using fresh_File.
    left. exists d, (File []). now apply stat_clean.
Qed.

(** Opening a file for writing, wherever its path leads, creates or
    empties the regular file on which the walk of the path ends. *)
Lemma os_open_w_Return root d root' q :
  os_open_w d root = (root', Return q) ->
  replaceable root q /\ root' = put root q (Some (File [])) /\
  stat_walk root' d = Found q (File []).
Proof.
  unfold os_open_w.
  destruct (stat_walk root d) as [p [b|r x es|t|]|p nm|e] eqn:W;
    intros H; inversion H; subst; clear H.
  - assert (R : replaceable root q)
      by (right; exists b; eapply stat_walk_Found; eauto).
    split; [assumption|]. split; [reflexivity|].
    apply stat_walk_put_end; eauto using fresh_File.
  - assert (R : replaceable root (p ++ [nm]))
      by (left; eapply stat_walk_Missing; eauto).
    split; [assumption|]. split; [reflexivity|].
    apply stat_walk_put_end; [assumption | apply fresh_File |]. right. eauto.
Qed.

(** A successful [write_text] leaves, where the path leads, the regular
    file that holds the encoded text. *)
Lemma write_text_Return root d data enc root2 n :
  write_text codecs d data enc root = (root2, Return n) ->
  exists c b,
    codecs enc = Some c /\ encode c data = Some b /\
    extends root root2 /\ stat root2 d = Return (File b).
Proof.
  unfold write_text.
  destruct (os_open_w d root) as [root1 [q|e]] eqn:O; [|discriminate].
  destruct (os_open_w_Return _ _ _ _ O) as [R [-> W]].
  destruct (codecs enc) as [c|]; [|discriminate].
  destruct (encode c data) as [b|] eqn:E; [|discriminate].
  intros H. injection H as <- _. exists c, b.
  assert (R1 : replaceable (put root q (Some (File []))) q)
    by (right; exists []; eapply stat_walk_Found; eauto).
  split; [reflexivity|]. split; [assumption|]. split.
  - apply extends_put; [|apply fresh_File | assumption].
    apply extends_put; [apply extends_refl | apply fresh_File | assumption].
  - unfold stat, os_stat.
    rewrite (stat_walk_put_end _ q R1 (File b) d); eauto using fresh_File.
Qed.

Variable ALLOWED_PATHS : list Path.
Variable cwd : Path.

Lemma write_file_success root request root2 response :
  write_file ALLOWED_PATHS cwd codecs request root = (root2, Return response) ->
  exists d c b,
    normalize_path ALLOWED_PATHS cwd root (WriteFileRequest.path request) = Return d /\
    codecs (WriteFileRequest.encoding request) = Some c /\
    encode c (WriteFileRequest.content request) = Some b /\
    extends root root2 /\
    stat root2 d = Return (File b) /\
    WriteFileResponse.file_info response = info_of d (File b).
Proof.
  unfold write_file.
  destruct (normalize_path ALLOWED_PATHS cwd root (WriteFileRequest.path request))
    as [d|e] eqn:N; [|intros H; inversion H; discriminate].
  set (step := if WriteFileRequest.create_dirs request
               then mkdir (parent d) true true root else (root, Return tt)).
  assert (E1 : extends root (fst step)).
  { unfold step. destruct (WriteFileRequest.create_dirs request);
      [|apply extends_refl].
    destruct (mkdir (parent d) true true root) as [r1 m] eqn:M.
    eapply mkdir_rev_extends; exact M. }
  destruct step as [root1 [[]|e]]; simpl in E1; [|intros H; inversion H; discriminate].
  destruct (write_text codecs d (WriteFileRequest.content request)
              (WriteFileRequest.encoding request) root1) as [r2 [n|e]] eqn:Wt;
    [|intros H; inversion H; discriminate].
  destruct (write_text_Return _ _ _ _ _ _ Wt) as [c [b [Hc [He [E2 S2]]]]].
  intros H. injection H as <- H.
  exists d, c, b. repeat (split; [first [reflexivity | assumption]|]).
  split; [eapply extends_trans; eauto|]. split; [assumption|].
  cbv [bind try_except] in H. rewrite (get_file_info_of_stat _ _ _ S2) in H.
  now inversion H.
Qed.

End Writing.

Lemma universal_newlines_no_cr t :
  forallb (fun ch => negb (ch =? 13)%Z) t = true -> universal_newlines t = t.
Proof.
  induction t as [|ch t IH]; intros H; [reflexivity|]. simpl in *.
  apply andb_prop in H. destruct H as [H1 H2].
  destruct (ch =? 13)%Z; [discriminate|]. now rewrite IH.
Qed.

(** C6, as the code has it: after a successful [write_file], a
    [read_file] of the same path with the same encoding and a limit not
    below the size written returns the content written with the newline
    translation of text mode applied, every carriage return followed by
    a line feed and every other carriage return being read as one line
    feed; so it returns exactly the content written when that holds no
    carriage return.  The encoding is one whose decoder undoes its
    encoder. *)
Theorem write_then_read :
  forall ALLOWED_PATHS cwd codecs root wrequest root2 wresponse rrequest c,
    clean false root cwd = true ->
    write_file ALLOWED_PATHS cwd codecs wrequest root = (root2, Return wresponse) ->
    codecs (WriteFileRequest.encoding wrequest) = Some c ->
    lossless c ->
    ReadFileRequest.path rrequest = WriteFileRequest.path wrequest ->
    ReadFileRequest.encoding rrequest = WriteFileRequest.encoding wrequest ->
    (forall size,
       FileInfo.size (WriteFileResponse.file_info wresponse) = Some size ->
       (size <= ReadFileRequest.max_size rrequest)%Z) ->
    read_file ALLOWED_PATHS cwd codecs root2 rrequest =
      Return {| ReadFileResponse.content :=
                  universal_newlines (WriteFileRequest.content wrequest);
                ReadFileResponse.file_info := WriteFileResponse.file_info wresponse;
                ReadFileResponse.encoding := ReadFileRequest.encoding rrequest |} /\
    (forallb (fun ch => negb (ch =? 13)%Z) (WriteFileRequest.content wrequest) = true ->
     universal_newlines (WriteFileRequest.content wrequest) =
     WriteFileRequest.content wrequest).
Proof.
  intros roots cwd codecs root wreq root2 wresp rreq c C W Hc L Hp He Hs.
  split; [|apply universal_newlines_no_cr].
  destruct (write_file_success codecs roots cwd root wreq root2 wresp W)
    as [d [c' [b [N [Hc' [Hb [E [S I]]]]]]]].
  assert (c' = c) by congruence. subst c'.
  assert (N2 : normalize_path roots cwd root2 (ReadFileRequest.path rreq) = Return d).
  { rewrite Hp. apply (extends_normalize_path_stat _ _ _ _ _ _ E C N).
    intros f H. unfold stat in S. rewrite S in H. discriminate. }
  rewrite (read_file_of_stat roots cwd codecs root2 rreq d b N2 S).
  assert (Hsz : (Z.of_nat (List.length b) <= ReadFileRequest.max_size rreq)%Z)
    by (apply Hs; now rewrite I).
  destruct (Z.gtb_spec (Z.of_nat (List.length b)) (ReadFileRequest.max_size rreq));
    [lia|].
  rewrite He, Hc, (L _ _ Hb), I. reflexivity.
Qed.

(** ** Codecs whose decoder undoes their encoder *)

Lemma Z_of_byte_of_Z z : (0 <= z < 256)%Z -> Z_of_byte (byte_of_Z z) = z.
Proof.
  intros H. unfold Z_of_byte, byte_of_Z.
  destruct (Byte.of_N (Z.to_N z)) as [b|] eqn:E.
  - apply Byte.to_of_N in E. rewrite E. lia.
  - apply Byte.of_N_None_iff in E. lia.
Qed.

Lemma Z_of_byte_range b : (0 <= Z_of_byte b < 256)%Z.
Proof.
  unfold Z_of_byte. generalize (Byte.to_N_bounded b). lia.
Qed.

(** A codec that encodes one code point at a time and whose decoder
    reads back each encoded code point is lossless. *)
Lemma encode_with_lossless (f : Z -> option bytes) (dec : bytes -> option text) :
  dec [] = Some [] ->
  (forall c bs rest, f c = Some bs -> dec (bs ++ rest) = emit c (dec rest)) ->
  forall t b, encode_with f t = Some b -> dec b = Some t.
Proof.
  intros H0 H. induction t as [|c t IH]; intros b E; simpl in E.
  - now inversion E.
  - destruct (f c) as [bs|] eqn:F; [|discriminate].
    destruct (encode_with f t) as [b'|]; [|discriminate].
    inversion E; subst. rewrite (H _ _ _ F), (IH b' eq_refl). reflexivity.
Qed.

Lemma latin1_lossless : lossless latin1.
Proof.
  unfold lossless, latin1; simpl.
  apply (encode_with_lossless latin1_encode_char (fun b => Some (map Z_of_byte b)));
    [reflexivity|].
  intros c bs rest. unfold latin1_encode_char.
  destruct (Z.leb_spec 0 c); [|discriminate].
  destruct (Z.ltb_spec c 256); [|discriminate]. simpl.
  intros E; inversion E; subst. simpl. now rewrite Z_of_byte_of_Z by lia.
Qed.

Lemma ascii_lossless : lossless ascii.
Proof.
  unfold lossless, ascii; simpl.
  apply (encode_with_lossless ascii_encode_char ascii_decode); [reflexivity|].
  intros c bs rest. unfold ascii_encode_char.
  destruct (Z.leb_spec 0 c); [|discriminate].
  destruct (Z.ltb_spec c 128); [|discriminate]. simpl.
  intros E; inversion E; subst. simpl. rewrite Z_of_byte_of_Z by lia.
  destruct (Z.ltb_spec c 128); [|lia]. reflexivity.
Qed.

Lemma continuation_of z :
  (0 <= z < 64)%Z -> continuation (byte_of_Z (128 + z)) = Some z.
Proof.
  intros H. unfold continuation. rewrite Z_of_byte_of_Z by lia.
  destruct (Z.leb_spec 128 (128 + z)); [|lia].
  destruct (Z.ltb_spec (128 + z) 192); [|lia]. cbn [andb]. f_equal. lia.
Qed.

Lemma utf8_decode_1 b0 rest :
  (Z_of_byte b0 < 128)%Z ->
  utf8_decode (b0 :: rest) = emit (Z_of_byte b0) (utf8_decode rest).
Proof.
  intros H. simpl. destruct (Z.ltb_spec (Z_of_byte b0) 128); [|lia]. reflexivity.
Qed.

Lemma utf8_decode_2 b0 b1 z1 rest :
  (194 <= Z_of_byte b0 < 224)%Z ->
  continuation b1 = Some z1 ->
  utf8_decode (b0 :: b1 :: rest) =
  emit ((Z_of_byte b0 - 192) * 64 + z1)%Z (utf8_decode rest).
Proof.
  intros H C. simpl. rewrite C.
  destruct (Z.ltb_spec (Z_of_byte b0) 128); [lia|].
  destruct (Z.leb_spec 194 (Z_of_byte b0)); [|lia].
  destruct (Z.ltb_spec (Z_of_byte b0) 224); [|lia]. reflexivity.
Qed.

Lemma utf8_decode_3 b0 b1 b2 z1 z2 rest :
  (224 <= Z_of_byte b0 < 240)%Z ->
  continuation b1 = Some z1 ->
  continuation b2 = Some z2 ->
  let c := ((Z_of_byte b0 - 224) * 4096 + z1 * 64 + z2)%Z in
  (2048 <= c)%Z -> ~ (55296 <= c < 57344)%Z ->
  utf8_decode (b0 :: b1 :: b2 :: rest) = emit c (utf8_decode rest).
Proof.
  intros H C1 C2 c Hc Hs. simpl. rewrite C1, C2. fold c.
  destruct (Z.ltb_spec (Z_of_byte b0) 128); [lia|].
  destruct (Z.leb_spec 194 (Z_of_byte b0)); [|lia].
  destruct (Z.ltb_spec (Z_of_byte b0) 224); [lia|].
  destruct (Z.leb_spec 224 (Z_of_byte b0)); [|lia].
  destruct (Z.ltb_spec (Z_of_byte b0) 240); [|lia]. simpl.
  destruct (Z.leb_spec 2048 c); [|lia].
  destruct (Z.leb_spec 55296 c); destruct (Z.ltb_spec c 57344);
    simpl; try reflexivity; lia.
Qed.

Lemma utf8_decode_4 b0 b1 b2 b3 z1 z2 z3 rest :
  (240 <= Z_of_byte b0 < 245)%Z ->
  continuation b1 = Some z1 ->
  continuation b2 = Some z2 ->
  continuation b3 = Some z3 ->
  let c := ((Z_of_byte b0 - 240) * 262144 + z1 * 4096 + z2 * 64 + z3)%Z in
  (65536 <= c < 1114112)%Z ->
  utf8_decode (b0 :: b1 :: b2 :: b3 :: rest) = emit c (utf8_decode rest).
Proof.
  intros H C1 C2 C3 c Hc. simpl. rewrite C1, C2, C3. fold c.
  destruct (Z.ltb_spec (Z_of_byte b0) 128); [lia|].
  destruct (Z.leb_spec 194 (Z_of_byte b0)); [|lia].
  destruct (Z.ltb_spec (Z_of_byte b0) 224); [lia|].
  destruct (Z.leb_spec 224 (Z_of_byte b0)); [|lia].
  destruct (Z.ltb_spec (Z_of_byte b0) 240); [lia|].
  destruct (Z.leb_spec 240 (Z_of_byte b0)); [|lia].
  destruct (Z.ltb_spec (Z_of_byte b0) 245); [|lia]. simpl.
  destruct (Z.leb_spec 65536 c); [|lia].
  destruct (Z.ltb_spec c 1114112); [|lia]. reflexivity.
Qed.

Lemma Some_inj A (x y : A) : Some x = Some y -> x = y.
Proof. now intros H; inversion H. Qed.

Ltac decide_tests :=
  repeat match goal with
    | |- context [(?a <=? ?b)%Z] =>
        first [ rewrite (proj2 (Z.leb_le a b)) by lia
              | rewrite (proj2 (Z.leb_gt a b)) by lia ]
    | |- context [(?a <? ?b)%Z] =>
        first [ rewrite (proj2 (Z.ltb_lt a b)) by lia
              | rewrite (proj2 (Z.ltb_ge a b)) by lia ]
    end.

Lemma utf8_encode_char_1 c :
  (0 <= c < 128)%Z -> utf8_encode_char c = Some [byte_of_Z c].
Proof. intros H. unfold utf8_encode_char. now decide_tests. Qed.

Lemma utf8_encode_char_2 c :
  (128 <= c < 2048)%Z ->
  utf8_encode_char c =
  Some [byte_of_Z (192 + c / 64); byte_of_Z (128 + c mod 64)].
Proof. intros H. unfold utf8_encode_char. now decide_tests. Qed.

Lemma utf8_encode_char_3 c :
  (2048 <= c < 55296 \/ 57344 <= c < 65536)%Z ->
  utf8_encode_char c =
  Some [byte_of_Z (224 + c / 4096); byte_of_Z (128 + (c / 64) mod 64);
        byte_of_Z (128 + c mod 64)].
Proof.
  intros H. unfold utf8_encode_char. decide_tests. simpl andb. cbv iota.
  destruct H as [H|H]; now decide_tests.
Qed.

Lemma utf8_encode_char_4 c :
  (65536 <= c < 1114112)%Z ->
  utf8_encode_char c =
  Some [byte_of_Z (240 + c / 262144); byte_of_Z (128 + (c / 4096) mod 64);
        byte_of_Z (128 + (c / 64) mod 64); byte_of_Z (128 + c mod 64)].
Proof. intros H. unfold utf8_encode_char. now decide_tests. Qed.

Lemma utf8_encode_char_none c :
  (c < 0 \/ 55296 <= c < 57344 \/ 1114112 <= c)%Z -> utf8_encode_char c = None.
Proof.
  intros H. unfold utf8_encode_char.
  destruct H as [H|[H|H]]; now decide_tests.
Qed.

Lemma split_64 c : (c = c / 64 * 64 + c mod 64 /\ 0 <= c mod 64 < 64)%Z.
Proof.
  split; [|apply Z.mod_pos_bound; lia].
  rewrite (Z.div_mod c 64) at 1 by lia. lia.
Qed.

Lemma utf8_decode_encode_char c bs rest :
  utf8_encode_char c = Some bs ->
  utf8_decode (bs ++ rest) = emit c (utf8_decode rest).
Proof.
  assert (R : ((c < 0 \/ 55296 <= c < 57344 \/ 1114112 <= c) \/
               0 <= c < 128 \/ 128 <= c < 2048 \/
               (2048 <= c < 55296 \/ 57344 <= c < 65536) \/
               65536 <= c < 1114112)%Z) by lia.
  destruct (split_64 c) as [E0 B0].
  destruct (split_64 (c / 64)) as [E1 B1].
  destruct (split_64 (c / 64 / 64)) as [E2 B2].
  assert (D1 : (c / 4096 = c / 64 / 64)%Z) by (now rewrite Z.div_div by lia).
  assert (D2 : (c / 262144 = c / 64 / 64 / 64)%Z)
    by (now rewrite !Z.div_div by lia).
  intros E.
  destruct R as [R|[R|[R|[R|R]]]].
  - rewrite utf8_encode_char_none in E by assumption. discriminate.
  - rewrite utf8_encode_char_1 in E by assumption.
    apply Some_inj in E. subst bs. cbn [app].
    rewrite utf8_decode_1; rewrite Z_of_byte_of_Z by lia; [reflexivity | lia].
  - rewrite utf8_encode_char_2 in E by assumption.
    apply Some_inj in E. subst bs. cbn [app].
    rewrite (utf8_decode_2 _ _ (c mod 64));
      [ | | apply continuation_of; lia ];
      rewrite Z_of_byte_of_Z by lia; [f_equal; lia | lia].
  - rewrite utf8_encode_char_3 in E by assumption.
    apply Some_inj in E. subst bs. cbn [app]. rewrite D1 in *.
    rewrite (utf8_decode_3 _ _ _ ((c / 64) mod 64) (c mod 64));
      [ | | apply continuation_of; lia | apply continuation_of; lia | | ];
      rewrite Z_of_byte_of_Z by lia; [f_equal; lia | lia | lia | lia].
  - rewrite utf8_encode_char_4 in E by assumption.
    apply Some_inj in E. subst bs. cbn [app]. rewrite D1, D2 in *.
    rewrite (utf8_decode_4 _ _ _ _ ((c / 64 / 64) mod 64) ((c / 64) mod 64)
               (c mod 64));
      [ | | apply continuation_of; lia | apply continuation_of; lia
        | apply continuation_of; lia | ];
      rewrite Z_of_byte_of_Z by lia; [f_equal; lia | lia | lia].
Qed.

Lemma utf8_lossless : lossless utf8.
Proof.
  unfold lossless, utf8; simpl.
  apply (encode_with_lossless utf8_encode_char utf8_decode); [reflexivity|].
  exact utf8_decode_encode_char.
Qed.

(** C6 at the scenario of the specification: ["hello"] written to
    [/workspace/a.txt] as [utf-8] and read back with the limit 1024. *)
Lemma write_then_read_witness :
  let written :=
    write_file Example.roots Example.cwd python_codecs
      (Example.write_request "/workspace/a.txt" (text_of_string "hello") "utf-8" true)
      Example.tree in
  read_file Example.roots Example.cwd python_codecs (fst written)
    (Example.read_request "/workspace/a.txt" "utf-8" 1024) =
  Return {| ReadFileResponse.content := text_of_string "hello";
            ReadFileResponse.file_info :=
              info_of ["workspace"; "a.txt"] (Example.file "hello");
            ReadFileResponse.encoding := "utf-8" |}.
Proof.
  cbv zeta.
  destruct (write_file Example.roots Example.cwd python_codecs
              (Example.write_request "/workspace/a.txt" (text_of_string "hello")
                 "utf-8" true) Example.tree) as [root2 r] eqn:E.
  assert (R : r = Return {| WriteFileResponse.success := true;
                            WriteFileResponse.message :=
                              "File written successfully: /workspace/a.txt";
                            WriteFileResponse.file_info :=
                              info_of ["workspace"; "a.txt"] (Example.file "hello") |})
    by (now apply (f_equal snd) in E).
  subst r.
  refine (proj1 (write_then_read Example.roots Example.cwd python_codecs Example.tree
                   _ root2 _ (Example.read_request "/workspace/a.txt" "utf-8" 1024)
                   utf8 eq_refl E eq_refl utf8_lossless eq_refl eq_refl _)).
  intros size H. injection H as <-. vm_compute. discriminate.
Defined.

(** A carriage return does not come back: ["a\r\nb"] is read as
    ["a\nb"]. *)
Lemma carriage_return_is_not_read_back :
  let content := [97; 13; 10; 98]%Z in
  let written :=
    write_file Example.roots Example.cwd python_codecs
      (Example.write_request "/workspace/n.txt" content "utf-8" true)
      Example.tree in
  snd written =
    Return {| WriteFileResponse.success := true;
              WriteFileResponse.message := "File written successfully: /workspace/n.txt";
              WriteFileResponse.file_info :=
                {| FileInfo.name := "n.txt"; FileInfo.path := "/workspace/n.txt";
                   FileInfo.type := "file"; FileInfo.size := Some 4%Z |} |} /\
  read_file Example.roots Example.cwd python_codecs (fst written)
    (Example.read_request "/workspace/n.txt" "utf-8" 1024) =
    Return {| ReadFileResponse.content := [97; 10; 98]%Z;
              ReadFileResponse.file_info :=
                {| FileInfo.name := "n.txt"; FileInfo.path := "/workspace/n.txt";
                   FileInfo.type := "file"; FileInfo.size := Some 4%Z |};
              ReadFileResponse.encoding := "utf-8" |} /\
  [97; 10; 98]%Z <> content.
Proof. cbv zeta. split; [reflexivity|]. split; [reflexivity | discriminate]. Qed.

(** ** Where a directory can be made *)

Lemma creatable_pwalk : forall p n cur,
  creatable n p = true ->
  match pwalk n cur p with
  | Found _ m => S_ISDIR m = true
  | Missing _ _ => True
  | Fail e => e = ENOENT
  end.
Proof.
  induction p as [|c p IH]; intros n cur H.
  - simpl. now destruct n.
  - destruct n as [b|r x es|t|]; try discriminate. simpl in H.
    apply andb_prop in H. destruct H as [-> H]. rewrite pwalk_cons.
    destruct (assoc c es) as [n'|]; [now apply IH|].
    now destruct (is_nil p).
Qed.

Lemma creatable_app : forall p q n,
  creatable n (p ++ q) = true -> creatable n p = true.
Proof.
  induction p as [|c p IH]; intros q n H.
  - destruct n, q; simpl in *; try discriminate; reflexivity.
  - destruct n as [b|r x es|t|]; try discriminate. simpl in *.
    apply andb_prop in H. destruct H as [-> H]. simpl.
    destruct (assoc c es) as [n'|]; eauto.
Qed.

Lemma creatable_put_dir : forall p0 n q,
  lookup n p0 = None ->
  creatable n q = true ->
  creatable (put n p0 (Some (Dir true true []))) q = true.
Proof.
  induction p0 as [|c p0 IH]; intros n q L H; [discriminate|].
  destruct n as [b|r x es|t|]; try (simpl; assumption).
  assert (E : exists es', put (Dir r x es) (c :: p0) (Some (Dir true true [])) =
                          Dir r x es' /\
                          forall d,
                            assoc d es' =
                            if String.eqb d c
                            then match p0, assoc c es with
                                 | [], _ => Some (Dir true true [])
                                 | _ :: _, Some n' =>
                                     Some (put n' p0 (Some (Dir true true [])))
                                 | _ :: _, None => None
                                 end
                            else assoc d es).
  { destruct p0 as [|c' p0].
    - eexists. split; [reflexivity|]. intros d.
      destruct (String.eqb_spec d c) as [->|N];
        [apply assoc_set_entry_same | now apply assoc_set_entry_other].
    - destruct (assoc c es) as [n'|] eqn:A.
      + rewrite (put_cons_Some _ _ _ _ _ _ _ A) by discriminate.
        eexists. split; [reflexivity|]. intros d.
        destruct (String.eqb_spec d c) as [->|N];
          [apply assoc_set_entry_same | now apply assoc_set_entry_other].
      + rewrite (put_cons_None _ _ _ _ _ _ A) by discriminate.
        eexists. split; [reflexivity|]. intros d.
        destruct (String.eqb_spec d c) as [->|N]; [assumption | reflexivity]. }
  destruct E as [es' [-> E]].
  destruct q as [|d q]; [reflexivity|]. simpl in *.
  apply andb_prop in H. destruct H as [-> H]. simpl. rewrite E.
  destruct (String.eqb_spec d c) as [->|N]; [|assumption].
  destruct (assoc c es) as [n'|] eqn:A.
  - destruct p0 as [|c' p0]; [discriminate|]. now apply IH.
  - destruct p0 as [|c' p0]; [|reflexivity]. now destruct q.
Qed.

Lemma is_dir_of_pwalk root p q m :
  clean false root p = true ->
  pwalk root [] p = Found q m ->
  is_dir root p = Return (S_ISDIR m).
Proof.
  intros C W. unfold is_dir, stat_test, stat, os_stat.
  rewrite stat_walk_clean by assumption. now rewrite W.
Qed.

Lemma os_mkdir_eq root p :
  clean false root p = true ->
  os_mkdir p root =
  match pwalk root [] p with
  | Found _ _ => (root, fail_with EEXIST p)
  | Missing q name => (put root (q ++ [name]) (Some (Dir true true [])), Return tt)
  | Fail e => (root, fail_with e p)
  end.
Proof. intros C. unfold os_mkdir. now rewrite lstat_walk_clean. Qed.

(** [mkdir_here] where the parent is a directory. *)
Lemma mkdir_here_creatable root p c :
  clean false root (p ++ [c]) = true ->
  creatable root (p ++ [c]) = true ->
  is_dir root p = Return true ->
  exists root',
    mkdir_here (p ++ [c]) true root = (root', Return tt) /\
    (forall q, creatable root q = true -> creatable root' q = true).
Proof.
  intros C K D. unfold mkdir_here. rewrite os_mkdir_eq by assumption.
  assert (Cp := clean_app _ _ _ C).
  assert (A := creatable_pwalk (p ++ [c]) root [] K).
  destruct (pwalk root [] (p ++ [c])) as [q m|q nm|e] eqn:W.
  - exists root. unfold fail_with. cbn [is_FileNotFoundError is_OSError negb].
    cbv beta iota. rewrite (is_dir_of_pwalk _ _ _ _ C W), A. auto.
  - eexists. split; [reflexivity|]. intros q' Kq.
    apply creatable_put_dir; [|assumption].
    apply pwalk_Missing in W. destruct W as [W L]. simpl in W. now rewrite W.
  - exfalso. subst e.
    unfold is_dir, stat_test, stat, os_stat in D.
    rewrite stat_walk_clean in D by assumption.
    destruct (pwalk root [] p) as [q m|q nm|e] eqn:Wp;
      [| discriminate | simpl in D; destruct (ignore_error e); discriminate].
    assert (Wp' := Wp). apply pwalk_Found in Wp'. destruct Wp' as [-> L].
    rewrite (pwalk_app p [c] root [] m L Cp Wp) in W.
    simpl in D. destruct m as [b|r x es|t|]; try discriminate.
    simpl in W. destruct x; [|discriminate]. simpl in W.
    destruct (assoc c es); discriminate.
Qed.

(** [mkdir(parents=True, exist_ok=True)] succeeds where a directory can
    be made. *)
Lemma mkdir_rev_creatable : forall rp root,
  clean false root (rev rp) = true ->
  creatable root (rev rp) = true ->
  exists root',
    mkdir_rev rp true true root = (root', Return tt) /\
    (forall q, creatable root q = true -> creatable root' q = true).
Proof.
  induction rp as [|c rp IH]; intros root C K;
    rewrite mkdir_rev_eq, os_mkdir_eq by assumption;
    assert (A := creatable_pwalk _ root [] K);
    destruct (pwalk root [] (rev _)) as [q m|q nm|e] eqn:W;
    unfold fail_with; cbn [is_FileNotFoundError is_OSError negb]; cbv beta iota.
  1,4: exists root; rewrite (is_dir_of_pwalk _ _ _ _ C W), A; auto.
  1,3: eexists; split; [reflexivity|]; intros q' Kq;
       apply creatable_put_dir; [|assumption];
       apply pwalk_Missing in W; destruct W as [W L]; simpl in W; now rewrite W.
  - discriminate.
  - subst e. cbn [is_FileNotFoundError]. cbv iota.
    change (rev (c :: rp)) with (rev rp ++ [c]) in *.
    destruct (IH root (clean_app _ _ _ C) (creatable_app _ _ _ K))
      as [root1 [M P1]].
    rewrite M.
    assert (E := mkdir_rev_extends _ _ _ _ _ _ M).
    destruct (mkdir_here_creatable root1 (rev rp) c) as [root2 [M2 P2]].
    + eapply extends_clean; eauto.
    + now apply P1.
    + eapply mkdir_rev_is_dir; [|exact M]. now apply clean_app in C.
    + exists root2. split; [assumption|]. auto.
Qed.

(** ** Creating a directory twice *)




Example create_directory_new :
  snd (create_directory Example.roots Example.cwd "/workspace/new/sub" Example.tree) =
  Return {| WriteFileResponse.success := true;
            WriteFileResponse.message := "Directory created: /workspace/new/sub";
            WriteFileResponse.file_info :=
              info_of ["workspace"; "new"; "sub"] (Dir true true []) |}.
Proof. reflexivity. Qed.


(** * Further properties of the handlers *)

(** ** Resolution is compositional *)

Lemma split_slash_not_nil s : split_slash s <> [].
Proof.
  destruct s as [|c s]; simpl; [discriminate|].
  destruct (Ascii.eqb c "/"); [discriminate|].
  destruct (split_slash s); discriminate.
Qed.

Lemma split_slash_app a b :
  split_slash (a ++ String "/" b) = split_slash a ++ split_slash b.
Proof.
  induction a as [|c a IH]; [reflexivity|].
  simpl. destruct (Ascii.eqb c "/").
  - now rewrite IH.
  - rewrite IH. destruct (split_slash a) as [|w ws] eqn:E; [|reflexivity].
    now destruct (split_slash_not_nil a).
Qed.

Lemma split_slash_no_slash s : forallb (fun n => negb (has_slash n)) (split_slash s) = true.
Proof.
  induction s as [|c s IH]; [reflexivity|]. simpl split_slash.
  destruct (Ascii.eqb c "/") eqn:E; [exact IH|].
  destruct (split_slash s) as [|w ws]; simpl in *; rewrite E; [reflexivity|exact IH].
Qed.

Lemma split_slash_name name :
  has_slash name = false -> split_slash name = [name].
Proof.
  induction name as [|c s IH]; [reflexivity|]. simpl.
  destruct (Ascii.eqb c "/"); [discriminate|]. simpl. intros H. now rewrite IH.
Qed.

Lemma split_slash_join d :
  d <> [] -> forallb (fun n => negb (has_slash n)) d = true ->
  split_slash (join "/" d) = d.
Proof.
  induction d as [|c d IH]; intros N H; [now destruct N|].
  simpl in H. apply andb_prop in H. destruct H as [Hc Hd].
  apply negb_true_iff in Hc.
  destruct d as [|c' d'].
  - now apply split_slash_name.
  - change (join "/" (c :: c' :: d')) with (c ++ String "/" (join "/" (c' :: d')))%string.
    rewrite split_slash_app, IH by (assumption || discriminate).
    now rewrite split_slash_name.
Qed.

(** Walking a clean prefix leaves the walk at its end. *)
Lemma clean_no_link : forall p n cur,
  p <> [] -> clean false n p = true -> link_of (pwalk n cur p) = None.
Proof.
  induction p as [|c p IH]; intros n cur N C; [now destruct N|].
  simpl in C. apply andb_prop in C. destruct C as [_ C]. simpl pwalk.
  destruct n as [b|r x es|t|]; try reflexivity.
  destruct x; [|reflexivity]. simpl negb. cbv iota.
  destruct (assoc c es) as [n'|] eqn:A.
  - destruct p as [|c' p'].
    + destruct n'; try reflexivity. discriminate.
    + apply IH; [discriminate|]. destruct n'; try assumption. discriminate.
  - now destruct (is_nil p).
Qed.

Lemma joinrealpath_clean_prefix root fuel seen : forall a path b,
  clean false root (path ++ a) = true ->
  forallb (fun n => negb (has_nul n)) a = true ->
  joinrealpath fuel root seen path (a ++ b) =
  joinrealpath fuel root seen (path ++ a) b.
Proof.
  induction a as [|name a IH]; intros path b C H.
  - now rewrite app_nil_r.
  - simpl in H. apply andb_prop in H. destruct H as [Hn Ha].
    apply negb_true_iff in Hn.
    assert (C1 : clean false root (path ++ [name]) = true).
    { apply clean_app with (q := a). now rewrite <- app_assoc. }
    assert (R : regular name = true).
    { apply (clean_regular false) in C1. rewrite forallb_app in C1.
      apply andb_prop in C1. destruct C1 as [_ C1]. simpl in C1.
      now rewrite andb_true_r in C1. }
    destruct (regular_true _ R) as [E2 E1].
    change ((name :: a) ++ b) with (name :: (a ++ b)).
    rewrite joinrealpath_cons.
    replace (String.eqb name "" || String.eqb name ".") with false
      by (now rewrite orb_comm, E1).
    rewrite E2, Hn.
    rewrite os_lstat_clean by (assumption || now apply clean_app with (q := [name])).
    rewrite match_lift_walk, clean_no_link; [| now destruct path | assumption].
    rewrite IH; [now rewrite <- app_assoc | now rewrite <- app_assoc | assumption].
Qed.

(** A clean path is walked as it stands. *)
Lemma joinrealpath_clean_path root fuel seen a path :
  clean false root (path ++ a) = true ->
  forallb (fun n => negb (has_nul n)) a = true ->
  joinrealpath fuel root seen path a = Return (Resolved (path ++ a)).
Proof.
  intros C H. rewrite <- (app_nil_r a) at 1.
  rewrite joinrealpath_clean_prefix by assumption. apply joinrealpath_nil.
Qed.

Lemma file_name_parts name :
  file_name name = true ->
  regular name = true /\ has_nul name = false /\ has_slash name = false.
Proof.
  unfold file_name. intros H.
  apply andb_prop in H. destruct H as [H H3]. apply andb_prop in H. destruct H as [H1 H2].
  now rewrite negb_true_iff in H2, H3.
Qed.

Lemma forallb_parent {A} (f : A -> bool) l :
  forallb f l = true -> forallb f (removelast l) = true.
Proof. apply forallb_removelast. Qed.

(** What [resolve] returns is made of file names. *)
Lemma joinrealpath_file_names root fuel : forall seen rest path p,
  forallb file_name path = true ->
  forallb (fun n => negb (has_slash n)) rest = true ->
  joinrealpath fuel root seen path rest = Return (Resolved p) ->
  forallb file_name p = true.
Proof.
  induction fuel as [|fuel IHf]; intros seen rest;
    induction rest as [|name rest IH]; intros path p F S H.
  1,3: rewrite joinrealpath_nil in H; now inversion H; subst.
  all: simpl in S; apply andb_prop in S; destruct S as [Sn Sr];
    rewrite joinrealpath_cons in H;
    destruct (String.eqb name "" || String.eqb name ".") eqn:E1;
      [now apply IH in H|];
    destruct (String.eqb name "..") eqn:E2;
      [apply IH in H; [assumption | now apply forallb_parent | assumption]|];
    destruct (has_nul name) eqn:E3; [discriminate|];
    assert (R := regular_of_tests _ E1 E2);
    assert (F1 : forallb file_name (path ++ [name]) = true)
      by (rewrite forallb_app, F; simpl; unfold file_name; now rewrite R, E3, Sn);
    destruct (os_lstat root (path ++ [name])) as [[b|r x es|t|]|e];
    try (now apply IH in H);
    destruct (existsb (Path_eqb (path ++ [name])) seen); try discriminate.
  destruct (joinrealpath fuel root ((path ++ [name]) :: seen)
              (if startswith "/" t then [] else path) (split_slash t))
    as [[p1|s1]|e] eqn:J; try discriminate.
  apply IH in H; [assumption | | assumption].
  apply IHf in J; [assumption | now destruct (startswith "/" t) |].
  apply split_slash_no_slash.
Qed.

Lemma forallb_impl {A} (f g : A -> bool) l :
  (forall a, f a = true -> g a = true) -> forallb f l = true -> forallb g l = true.
Proof.
  intros H. induction l as [|a l IH]; [reflexivity|]. simpl. intros K.
  apply andb_prop in K. destruct K as [K1 K2]. now rewrite (H _ K1), IH.
Qed.

Lemma forallb_filter {A} (f g : A -> bool) l :
  forallb f l = true -> forallb f (filter g l) = true.
Proof.
  induction l as [|a l IH]; [reflexivity|]. simpl. intros K.
  apply andb_prop in K. destruct K as [K1 K2].
  destruct (g a); simpl; [rewrite K1|]; now apply IH.
Qed.

Lemma has_nul_app a b : has_nul (a ++ b) = has_nul a || has_nul b.
Proof.
  induction a as [|c a IH]; [reflexivity|]. simpl. now rewrite IH, orb_assoc.
Qed.

Lemma has_nul_join d : has_nul (join "/" d) = existsb has_nul d.
Proof.
  induction d as [|c d IH]; [reflexivity|].
  destruct d as [|c' d'].
  - simpl. now rewrite orb_false_r.
  - change (join "/" (c :: c' :: d')) with (c ++ "/" ++ join "/" (c' :: d'))%string.
    rewrite !has_nul_app, IH. reflexivity.
Qed.

Lemma has_nul_str_path d : has_nul (str_path d) = existsb has_nul d.
Proof. unfold str_path. now rewrite has_nul_app, has_nul_join. Qed.

Lemma has_nul_file_names d :
  forallb file_name d = true -> has_nul (str_path d) = false.
Proof.
  rewrite has_nul_str_path. induction d as [|c d IH]; [reflexivity|]. simpl.
  intros H. apply andb_prop in H. destruct H as [Hc Hd].
  destruct (file_name_parts _ Hc) as [_ [-> _]]. now apply IH.
Qed.

Lemma normparts_all (P : string -> bool) : forall comps acc,
  forallb P acc = true -> forallb P comps = true ->
  forallb P (normparts comps acc) = true.
Proof.
  induction comps as [|c comps IH]; intros acc Ha Hc; simpl; [assumption|].
  simpl in Hc. apply andb_prop in Hc. destruct Hc as [Hc Hcs].
  destruct (String.eqb c "" || String.eqb c "."); [now apply IH|].
  destruct (String.eqb c ".."); [apply IH; [now apply forallb_removelast | assumption]|].
  apply IH; [|assumption]. rewrite forallb_app, Ha. simpl. now rewrite Hc.
Qed.

Lemma resolve_file_names root cwd raw d :
  forallb file_name cwd = true ->
  resolve root cwd raw = Return (Posix d) -> forallb file_name d = true.
Proof.
  intros F H. apply resolve_Return in H. destruct H as [Hn [_ [[J _]|[s [_ E]]]]].
  - simpl in J. apply joinrealpath_file_names in J;
      [assumption | now destruct (startswith "/" raw) |].
    unfold parse_parts. apply forallb_filter, split_slash_no_slash.
  - assert (P := normpath_parts s). rewrite <- E in P. simpl in P.
    change (has_nul (str_path d) = false) in Hn.
    assert (R : forallb regular d = true)
      by (rewrite P; now apply normparts_regular).
    assert (S : forallb (fun n => negb (has_slash n)) d = true)
      by (rewrite P; apply normparts_all; [reflexivity | apply split_slash_no_slash]).
    rewrite has_nul_str_path in Hn.
    apply forallb_forall. intros x Hx. unfold file_name.
    rewrite forallb_forall in R, S. rewrite (R x Hx), (S x Hx).
    destruct (has_nul x) eqn:Nx; [|reflexivity].
    assert (existsb has_nul d = true) by (apply existsb_exists; eauto). congruence.
Qed.

Lemma normalize_path_file_names roots root cwd raw d :
  forallb file_name cwd = true ->
  normalize_path roots cwd root raw = Return d -> forallb file_name d = true.
Proof.
  intros F H. apply normalize_path_Return in H. destruct H as [H _].
  eapply resolve_file_names; eauto.
Qed.

(** The components that are parsed of a text in two parts. *)
Lemma parse_parts_app a b :
  parse_parts (a ++ String "/" b) = parse_parts a ++ parse_parts b.
Proof. unfold parse_parts. now rewrite split_slash_app, filter_app. Qed.

Lemma filter_regular (d : list string) :
  forallb regular d = true ->
  filter (fun x => negb (String.eqb x "" || String.eqb x ".")) d = d.
Proof.
  induction d as [|c d IH]; [reflexivity|]. simpl. intros H.
  apply andb_prop in H. destruct H as [Hc Hd].
  destruct (regular_true _ Hc) as [_ E]. rewrite orb_comm in E. rewrite E. simpl.
  now rewrite IH.
Qed.

Lemma parse_parts_str_path d :
  forallb file_name d = true -> parse_parts (str_path d) = d.
Proof.
  intros F. unfold parse_parts, str_path.
  change (split_slash ("/" ++ join "/" d)) with ("" :: split_slash (join "/" d)).
  simpl filter. destruct d as [|c d']; [reflexivity|].
  rewrite split_slash_join;
    [| discriminate
     | eapply forallb_impl; [|exact F]; intros a Ha;
       destruct (file_name_parts _ Ha) as [_ [_ ->]]; reflexivity].
  apply filter_regular. eapply forallb_impl; [|exact F]. intros a Ha.
  now destruct (file_name_parts _ Ha) as [-> _].
Qed.

(** The text of a clean path made of file names resolves to that
    path. *)
Lemma resolve_str_path root cwd d :
  clean false root d = true -> forallb file_name d = true ->
  resolve root cwd (str_path d) = Return (Posix d).
Proof.
  intros C F.
  apply resolve_of_joinrealpath with (r := Resolved d); [|reflexivity| |].
  - change (startswith "/" (str_path d)) with true. cbv iota.
    rewrite parse_parts_str_path by assumption.
    apply (joinrealpath_clean_path root _ _ d []); [assumption|].
    eapply forallb_impl; [|exact F]. intros a Ha.
    destruct (file_name_parts _ Ha) as [_ [-> _]]. reflexivity.
  - now apply has_nul_file_names.
  - intros f. now apply os_stat_clean_not_ELOOP.
Qed.

Lemma startswith_app c a b :
  startswith c (a ++ String "/" b) =
  match a with EmptyString => Ascii.eqb "/" c | _ => startswith c a end.
Proof. now destruct a. Qed.

(** Empty and [.] components between two parts of a path are not
    parsed. *)
Lemma resolve_skip root cwd a skip b :
  split_slash skip = ["."] \/ split_slash skip = [""] ->
  resolve root cwd (a ++ String "/" (skip ++ String "/" b)) =
  resolve root cwd (a ++ String "/" b).
Proof.
  intros Hs. unfold resolve. rewrite !startswith_app, !parse_parts_app.
  replace (parse_parts skip) with (@nil string);
    [reflexivity | unfold parse_parts; now destruct Hs as [-> | ->]].
Qed.

(** ** The sandbox accepts its own answers *)

(** X1: a path that [normalize_path] returns and that holds no
    symbolic link is accepted again when it is sent back as text, and
    resolves to itself: the answer is a fixed point of the sandbox. *)
Theorem normalize_path_idempotent :
  forall ALLOWED_PATHS cwd root raw d,
    forallb file_name cwd = true ->
    normalize_path ALLOWED_PATHS cwd root raw = Return d ->
    clean false root d = true ->
    normalize_path ALLOWED_PATHS cwd root (str_path d) = Return d.
Proof.
  intros roots cwd root raw d F N Cd.
  assert (Fd := normalize_path_file_names _ _ _ _ _ F N).
  apply normalize_path_Return in N. destruct N as [R W].
  apply normalize_path_Return. split; [|assumption].
  now apply resolve_str_path.
Qed.

Lemma normalize_path_idempotent_witness :
  normalize_path Example.roots Example.cwd Example.tree
    "/workspace/docs/img/../../a.txt" = Return ["workspace"; "a.txt"] /\
  normalize_path Example.roots Example.cwd Example.tree
    (str_path ["workspace"; "a.txt"]) = Return ["workspace"; "a.txt"].
Proof.
  split; [reflexivity|].
  apply (normalize_path_idempotent Example.roots Example.cwd Example.tree
           "/workspace/docs/img/../../a.txt"); reflexivity.
Defined.

(** A path that was left unresolved at a link loop is not a fixed
    point: sent back, it resolves through the link and is refused. *)
Example unresolved_path_is_not_a_fixed_point :
  normalize_path Example.roots Example.cwd Example.escape_tree
    "/workspace/loop/../out/passwd" = Return ["workspace"; "out"; "passwd"] /\
  normalize_path Example.roots Example.cwd Example.escape_tree
    (str_path ["workspace"; "out"; "passwd"]) =
  Raise (HTTPException 400
           "Invalid path: 403: Access denied. Path must be within: /workspace").
Proof. split; reflexivity. Qed.

(** X4: a path that [normalize_path] returns lies at or below an
    allowed root by components, is made of file names (no empty
    component, no [.] or [..], no slash and no NUL inside a component),
    and [stat] of it reports no link loop; when the path holds no link,
    [stat] and [lstat] of it agree, and what [stat] finds is the object
    that the tree holds at that very path. *)
Theorem accepted_path_is_inside_and_normal :
  forall ALLOWED_PATHS cwd root raw d,
    forallb file_name cwd = true ->
    normalize_path ALLOWED_PATHS cwd root raw = Return d ->
    (exists r, In r ALLOWED_PATHS /\ within r d) /\
    forallb file_name d = true /\
    (forall f, stat root d <> Raise (OSError ELOOP f)) /\
    (clean false root d = true ->
     os_lstat root d = stat root d /\
     (forall n, stat root d = Return n -> lookup root d = Some n)).
Proof.
  intros roots cwd root raw d F N.
  assert (Fd := normalize_path_file_names _ _ _ _ _ F N).
  apply normalize_path_Return in N. destruct N as [R W].
  split; [assumption|]. split; [assumption|]. split.
  - apply resolve_Return in R. destruct R as [_ [R _]]. exact R.
  - intros Cd. split.
    + unfold stat, os_stat, os_lstat.
      rewrite (stat_walk_clean root d Cd), (lstat_walk_clean root d Cd). reflexivity.
    + intros n S. now apply lookup_of_stat.
Qed.

Lemma accepted_path_is_inside_and_normal_witness :
  (exists r, In r Example.roots /\ within r ["workspace"; "a.txt"]) /\
  forallb file_name ["workspace"; "a.txt"] = true /\
  (forall f, stat Example.tree ["workspace"; "a.txt"] <> Raise (OSError ELOOP f)) /\
  (clean false Example.tree ["workspace"; "a.txt"] = true ->
   os_lstat Example.tree ["workspace"; "a.txt"] =
     stat Example.tree ["workspace"; "a.txt"] /\
   (forall n, stat Example.tree ["workspace"; "a.txt"] = Return n ->
              lookup Example.tree ["workspace"; "a.txt"] = Some n)).
Proof.
  apply (accepted_path_is_inside_and_normal Example.roots Example.cwd Example.tree
           "../workspace/docs/../a.txt"); reflexivity.
Defined.

(** X2: a [.] component or a doubled slash between two parts of a path
    does not change the path that [normalize_path] returns. *)
Theorem redundant_segments_are_ignored :
  forall ALLOWED_PATHS cwd root a b d,
    (normalize_path ALLOWED_PATHS cwd root (a ++ "/./" ++ b) = Return d <->
     normalize_path ALLOWED_PATHS cwd root (a ++ "/" ++ b) = Return d) /\
    (normalize_path ALLOWED_PATHS cwd root (a ++ "//" ++ b) = Return d <->
     normalize_path ALLOWED_PATHS cwd root (a ++ "/" ++ b) = Return d).
Proof.
  intros roots cwd root a b d. rewrite !normalize_path_Return.
  change (a ++ "/./" ++ b)%string with (a ++ String "/" ("." ++ String "/" b))%string.
  change (a ++ "//" ++ b)%string with (a ++ String "/" ("" ++ String "/" b))%string.
  change (a ++ "/" ++ b)%string with (a ++ String "/" b)%string.
  rewrite !resolve_skip by (now left + now right). tauto.
Qed.



(** ** The allowed paths *)

Lemma resolve_empty root cwd p :
  resolve root cwd "" = Return p -> p = Posix cwd.
Proof.
  intros H. apply resolve_Return in H. destruct H as [_ [_ [[J E]|[s [J _]]]]].
  - change (parse_parts "") with (@nil string) in J. simpl in J.
    rewrite joinrealpath_nil in J. inversion J as [J']. now rewrite E, <- J'.
  - change (parse_parts "") with (@nil string) in J. simpl in J.
    rewrite joinrealpath_nil in J. discriminate.
Qed.

Lemma resolve_each_In root cwd : forall paths roots,
  resolve_each root cwd paths = Return roots ->
  (forall piece, In piece paths ->
     exists p, In p roots /\ resolve root cwd (strip piece) = Return p) /\
  (forall p, In p roots ->
     exists piece, In piece paths /\ resolve root cwd (strip piece) = Return p).
Proof.
  induction paths as [|path paths IH]; intros roots H; simpl in H.
  - inversion H; subst. split; intros x [].
  - destruct (resolve root cwd (strip path)) as [p|e] eqn:R; [|discriminate].
    simpl in H. destruct (resolve_each root cwd paths) as [ps|e]; [|discriminate].
    simpl in H. inversion H; subst roots. destruct (IH ps eq_refl) as [I1 I2].
    split.
    + intros piece [<-|Hin]; [exists p; split; [now left | assumption]|].
      destruct (I1 piece Hin) as [q [Hq Rq]]. exists q. split; [now right | assumption].
    + intros q [<-|Hin]; [exists path; split; [now left | assumption]|].
      destruct (I2 q Hin) as [piece [Hp Rp]]. exists piece. split; [now right | assumption].
Qed.

(** X5: when a piece of [FILESYSTEM_ALLOWED_PATHS] is empty or blank (an
    empty value, a trailing comma, two commas in a row), the working
    directory of the server becomes an allowed root. *)
Theorem blank_entry_allows_working_directory :
  forall environ root cwd roots piece,
    load_ALLOWED_PATHS environ root cwd = Return roots ->
    In piece (split_char ","
                (getenv environ "FILESYSTEM_ALLOWED_PATHS" "/workspace,/tmp")) ->
    strip piece = "" ->
    In (Posix cwd) roots.
Proof.
  intros environ root cwd roots piece L Hin Hs.
  destruct (resolve_each_In root cwd _ _ L) as [I1 _].
  destruct (I1 piece Hin) as [p [Hp R]].
  rewrite Hs in R. apply resolve_empty in R. now subst p.
Qed.

Lemma blank_entry_allows_working_directory_witness :
  load_ALLOWED_PATHS (fun _ => Some "/workspace, ") Example.tree Example.cwd =
    Return [Posix ["workspace"]; Posix ["app"]] /\
  In (Posix Example.cwd) [Posix ["workspace"]; Posix ["app"]].
Proof.
  split; [reflexivity|].
  apply (blank_entry_allows_working_directory (fun _ => Some "/workspace, ")
           Example.tree Example.cwd [Posix ["workspace"]; Posix ["app"]] " ");
    try reflexivity.
  right. now left.
Defined.

Example empty_value_allows_working_directory :
  load_ALLOWED_PATHS (fun _ => Some "") Example.tree Example.cwd =
  Return [Posix ["app"]].
Proof. reflexivity. Qed.

Example default_allowed_paths :
  load_ALLOWED_PATHS (fun _ => None) Example.tree Example.cwd =
  Return [Posix ["workspace"]; Posix ["tmp"]].
Proof. reflexivity. Qed.

(** X6: when the roots loaded at start-up are paths under [/], every
    string that [get_allowed_paths] reports for a root that holds no
    symbolic link is itself accepted by [normalize_path], which returns
    the root it stands for. *)
Theorem allowed_paths_are_accepted :
  forall environ cwd root ALLOWED_PATHS r,
    forallb file_name cwd = true ->
    load_ALLOWED_PATHS environ root cwd = Return (map Posix ALLOWED_PATHS) ->
    In r ALLOWED_PATHS ->
    clean false root r = true ->
    In (str_path r) (get_allowed_paths ALLOWED_PATHS) /\
    normalize_path ALLOWED_PATHS cwd root (str_path r) = Return r.
Proof.
  intros environ cwd root roots r F L Hr Cr.
  split; [unfold get_allowed_paths; now apply in_map|].
  destruct (resolve_each_In root cwd _ _ L) as [_ I2].
  destruct (I2 (Posix r) (in_map Posix _ _ Hr)) as [piece [_ R]].
  apply normalize_path_Return. split.
  - apply resolve_str_path; [assumption|]. eapply resolve_file_names; eauto.
  - exists r. split; [assumption|]. exists []. now rewrite app_nil_r.
Qed.

Lemma allowed_paths_are_accepted_witness :
  In "/app" (get_allowed_paths [["workspace"]; ["app"]]) /\
  normalize_path [["workspace"]; ["app"]] Example.cwd Example.tree "/app" =
    Return ["app"].
Proof.
  apply (allowed_paths_are_accepted (fun _ => Some "/workspace/docs/.., ")
           Example.cwd Example.tree [["workspace"]; ["app"]] ["app"]);
    try reflexivity.
  right. now left.
Defined.

(** A root that met a link loop at start-up is stored unresolved. *)
Example unresolved_root_is_stored :
  load_ALLOWED_PATHS (fun _ => Some "/workspace/loop/../out") Example.escape_tree
    Example.cwd = Return [Posix ["workspace"; "out"]].
Proof. reflexivity. Qed.

(** ** What is read *)

(** X7: whatever [read_file] returns is the decoded content of the
    regular file to which the accepted path leads, the file that [stat]
    of it finds, and that file is not larger than the limit; the
    accepted path lies at or below an allowed root by components, and
    when it holds no symbolic link the file read is the one that the
    tree holds at that very path. *)
Theorem read_file_reads_the_accepted_path :
  forall ALLOWED_PATHS cwd codecs root request response,
    read_file ALLOWED_PATHS cwd codecs root request = Return response ->
    exists r d b c t,
      normalize_path ALLOWED_PATHS cwd root (ReadFileRequest.path request) = Return d /\
      In r ALLOWED_PATHS /\ within r d /\
      stat root d = Return (File b) /\
      (clean false root d = true -> lookup root d = Some (File b)) /\
      (Z.of_nat (List.length b) <= ReadFileRequest.max_size request)%Z /\
      codecs (ReadFileRequest.encoding request) = Some c /\
      decode c b = Some t /\
      ReadFileResponse.content response = universal_newlines t /\
      FileInfo.path (ReadFileResponse.file_info response) = str_path d.
Proof.
  intros roots cwd codecs root request response H.
  destruct (normalize_path roots cwd root (ReadFileRequest.path request))
    as [d|e] eqn:N; [|unfold read_file in H; rewrite N in H; discriminate].
  destruct (proj1 (normalize_path_Return _ _ _ _ _) N) as [_ [r [Hr Hw]]].
  destruct (stat root d) as [n|e] eqn:S.
  - destruct n as [b|r' x es|tg|].
    2-4: unfold read_file in H; rewrite N in H; cbv [bind] in H;
      unfold exists_, is_file in H; rewrite !(stat_test_of_stat _ _ _ _ S) in H;
      discriminate.
    rewrite (read_file_of_stat roots cwd codecs root request d b N S) in H.
    destruct (Z.gtb_spec (Z.of_nat (List.length b)) (ReadFileRequest.max_size request));
      [discriminate|].
    destruct (codecs (ReadFileRequest.encoding request)) as [c|]; [|discriminate].
    destruct (decode c b) as [t|] eqn:D; [|discriminate].
    inversion H; subst response. exists r, d, b, c, t. simpl.
    repeat split; auto. intros Cd. now apply lookup_of_stat.
  - unfold read_file in H. rewrite N in H. cbv [bind] in H.
    unfold exists_, stat_test in H. rewrite S in H.
    destruct e as [| er f | | | | | |]; try discriminate.
    destruct (ignore_error er); discriminate.
Qed.

Lemma read_file_reads_the_accepted_path_witness :
  exists r d b c t,
    normalize_path Example.roots Example.cwd Example.tree
      "docs/../../workspace/./a.txt" = Return d /\
    In r Example.roots /\ within r d /\
    stat Example.tree d = Return (File b) /\
    (clean false Example.tree d = true -> lookup Example.tree d = Some (File b)) /\
    (Z.of_nat (List.length b) <= 1024)%Z /\
    python_codecs "utf-8" = Some c /\
    decode c b = Some t /\
    text_of_string "hello" = universal_newlines t /\
    "/workspace/a.txt" = str_path d.
Proof.
  apply (read_file_reads_the_accepted_path Example.roots Example.cwd python_codecs
           Example.tree (Example.read_request "docs/../../workspace/./a.txt" "utf-8" 1024)
           {| ReadFileResponse.content := text_of_string "hello";
              ReadFileResponse.file_info :=
                info_of ["workspace"; "a.txt"] (Example.file "hello");
              ReadFileResponse.encoding := "utf-8" |});
    reflexivity.
Defined.

(** ** Paths that cannot be examined *)

Section Examining.
Variable ALLOWED_PATHS : list Path.
Variable cwd : Path.
Variable codecs : string -> option codec.
Variable root : node.

(** What the handlers do with the outcome of [exists()]. *)
Lemma exists_of_stat_error d e f :
  stat root d = Raise (OSError e f) ->
  exists_ root d = if ignore_error e then Return false else Raise (OSError e f).
Proof. unfold exists_, stat_test. now intros ->. Qed.
End Examining.

(** X8: when the resolved path does not exist (a component is missing,
    or a component that is not a directory is used as one), reading,
    listing, deleting and asking for the file information all fail with
    status 404, and deleting changes nothing. *)
Theorem missing_path_is_not_found :
  forall ALLOWED_PATHS cwd codecs root raw d e f,
    normalize_path ALLOWED_PATHS cwd root raw = Return d ->
    stat root d = Raise (OSError e f) ->
    ignore_error e = true ->
    (forall encoding max_size,
       read_file ALLOWED_PATHS cwd codecs root
         {| ReadFileRequest.path := raw; ReadFileRequest.encoding := encoding;
            ReadFileRequest.max_size := max_size |} =
       Raise (HTTPException 404 "File not found")) /\
    (forall recursive show_hidden,
       list_directory ALLOWED_PATHS cwd root
         {| ListDirectoryRequest.path := raw;
            ListDirectoryRequest.recursive := recursive;
            ListDirectoryRequest.show_hidden := show_hidden |} =
       Raise (HTTPException 404 "Directory not found")) /\
    (forall recursive,
       delete_path ALLOWED_PATHS cwd
         {| DeletePathRequest.path := raw; DeletePathRequest.recursive := recursive |}
         root =
       (root, Raise (HTTPException 404 "Path not found"))) /\
    get_file_info_endpoint ALLOWED_PATHS cwd root raw =
      Raise (HTTPException 404 "Path not found").
Proof.
  intros roots cwd codecs root raw d e f N S I.
  assert (E := exists_of_stat_error root d e f S). rewrite I in E.
  repeat split; intros;
    unfold read_file, list_directory, delete_path, get_file_info_endpoint;
    simpl ReadFileRequest.path; simpl ListDirectoryRequest.path;
    simpl DeletePathRequest.path; rewrite N; cbv [bind]; rewrite E; reflexivity.
Qed.

Lemma missing_path_is_not_found_witness :
  (forall encoding max_size,
     read_file Example.roots Example.cwd python_codecs Example.tree
       {| ReadFileRequest.path := "/workspace/a.txt/x";
          ReadFileRequest.encoding := encoding;
          ReadFileRequest.max_size := max_size |} =
     Raise (HTTPException 404 "File not found")) /\
  (forall recursive show_hidden,
     list_directory Example.roots Example.cwd Example.tree
       {| ListDirectoryRequest.path := "/workspace/a.txt/x";
          ListDirectoryRequest.recursive := recursive;
          ListDirectoryRequest.show_hidden := show_hidden |} =
     Raise (HTTPException 404 "Directory not found")) /\
  (forall recursive,
     delete_path Example.roots Example.cwd
       {| DeletePathRequest.path := "/workspace/a.txt/x";
          DeletePathRequest.recursive := recursive |}
       Example.tree =
     (Example.tree, Raise (HTTPException 404 "Path not found"))) /\
  get_file_info_endpoint Example.roots Example.cwd Example.tree "/workspace/a.txt/x" =
    Raise (HTTPException 404 "Path not found").
Proof.
  apply (missing_path_is_not_found Example.roots Example.cwd python_codecs Example.tree
           "/workspace/a.txt/x" ["workspace"; "a.txt"; "x"] ENOTDIR
           "/workspace/a.txt/x"); reflexivity.
Defined.

(** X9: when the resolved path lies below a directory that the server
    may not search, [exists()] raises the permission error outside every
    [try] of the handlers: reading, listing, deleting and asking for the
    file information let the [PermissionError] escape as it is, no HTTP
    error is made of it, and deleting changes nothing. *)
Theorem permission_error_escapes :
  forall ALLOWED_PATHS cwd codecs root raw d e f,
    normalize_path ALLOWED_PATHS cwd root raw = Return d ->
    stat root d = Raise (OSError e f) ->
    ignore_error e = false ->
    (forall encoding max_size,
       read_file ALLOWED_PATHS cwd codecs root
         {| ReadFileRequest.path := raw; ReadFileRequest.encoding := encoding;
            ReadFileRequest.max_size := max_size |} =
       Raise (OSError e f)) /\
    (forall recursive show_hidden,
       list_directory ALLOWED_PATHS cwd root
         {| ListDirectoryRequest.path := raw;
            ListDirectoryRequest.recursive := recursive;
            ListDirectoryRequest.show_hidden := show_hidden |} =
       Raise (OSError e f)) /\
    (forall recursive,
       delete_path ALLOWED_PATHS cwd
         {| DeletePathRequest.path := raw; DeletePathRequest.recursive := recursive |}
         root =
       (root, Raise (OSError e f))) /\
    get_file_info_endpoint ALLOWED_PATHS cwd root raw = Raise (OSError e f).
Proof.
  intros roots cwd codecs root raw d e f N S I.
  assert (E := exists_of_stat_error root d e f S). rewrite I in E.
  repeat split; intros;
    unfold read_file, list_directory, delete_path, get_file_info_endpoint;
    simpl ReadFileRequest.path; simpl ListDirectoryRequest.path;
    simpl DeletePathRequest.path; rewrite N; cbv [bind]; rewrite E; reflexivity.
Qed.

Lemma permission_error_escapes_witness :
  (forall encoding max_size,
     read_file Example.roots Example.cwd python_codecs Example.tree
       {| ReadFileRequest.path := "/workspace/vault/key";
          ReadFileRequest.encoding := encoding;
          ReadFileRequest.max_size := max_size |} =
     Raise (OSError EACCES "/workspace/vault/key")) /\
  (forall recursive show_hidden,
     list_directory Example.roots Example.cwd Example.tree
       {| ListDirectoryRequest.path := "/workspace/vault/key";
          ListDirectoryRequest.recursive := recursive;
          ListDirectoryRequest.show_hidden := show_hidden |} =
     Raise (OSError EACCES "/workspace/vault/key")) /\
  (forall recursive,
     delete_path Example.roots Example.cwd
       {| DeletePathRequest.path := "/workspace/vault/key";
          DeletePathRequest.recursive := recursive |}
       Example.tree =
     (Example.tree, Raise (OSError EACCES "/workspace/vault/key"))) /\
  get_file_info_endpoint Example.roots Example.cwd Example.tree "/workspace/vault/key" =
    Raise (OSError EACCES "/workspace/vault/key").
Proof.
  apply (permission_error_escapes Example.roots Example.cwd python_codecs Example.tree
           "/workspace/vault/key" ["workspace"; "vault"; "key"] EACCES
           "/workspace/vault/key"); reflexivity.
Defined.

(** X10: [read_file] answers 400 "Path is not a file" for whatever exists
    and is not a regular file (a directory, a socket), and
    [list_directory] answers 400 "Path is not a directory" for whatever
    exists and is not a directory. *)
Theorem wrong_type_is_bad_request :
  forall ALLOWED_PATHS cwd codecs root raw d n,
    normalize_path ALLOWED_PATHS cwd root raw = Return d ->
    stat root d = Return n ->
    (S_ISREG n = false ->
     forall encoding max_size,
       read_file ALLOWED_PATHS cwd codecs root
         {| ReadFileRequest.path := raw; ReadFileRequest.encoding := encoding;
            ReadFileRequest.max_size := max_size |} =
       Raise (HTTPException 400 "Path is not a file")) /\
    (S_ISDIR n = false ->
     forall recursive show_hidden,
       list_directory ALLOWED_PATHS cwd root
         {| ListDirectoryRequest.path := raw;
            ListDirectoryRequest.recursive := recursive;
            ListDirectoryRequest.show_hidden := show_hidden |} =
       Raise (HTTPException 400 "Path is not a directory")).
Proof.
  intros roots cwd codecs root raw d n N S. split; intros T; intros;
    unfold read_file, list_directory;
    simpl ReadFileRequest.path; simpl ListDirectoryRequest.path;
    rewrite N; cbv [bind]; unfold exists_, is_file, is_dir;
    rewrite !(stat_test_of_stat _ _ _ _ S), T; reflexivity.
Qed.

Lemma wrong_type_is_bad_request_witness :
  read_file Example.roots Example.cwd python_codecs Example.tree
    (Example.read_request "/workspace/sock" "utf-8" 1024) =
  Raise (HTTPException 400 "Path is not a file") /\
  list_directory Example.roots Example.cwd Example.tree
    (Example.list_request "/workspace/sock" true true) =
  Raise (HTTPException 400 "Path is not a directory").
Proof.
  destruct (wrong_type_is_bad_request Example.roots Example.cwd python_codecs
              Example.tree "/workspace/sock" ["workspace"; "sock"] Special
              eq_refl eq_refl) as [H1 H2].
  split; [apply (H1 eq_refl) | apply (H2 eq_refl)].
Defined.



(** ** Listings of any tree *)

(** X12: on every tree, also one whose links form cycles, every entry
    of a listing was reached from the listed directory by at most eleven
    components, and by exactly one when the listing is not recursive:
    each component was enumerated in the directory before it and let
    through by the filter, each but the last was entered; the entry is
    what [get_file_info] returns for that path; [total_items] is the
    number of entries. *)
Theorem listing_depth_is_bounded :
  forall ALLOWED_PATHS cwd root request listing,
    list_directory ALLOWED_PATHS cwd root request = Return listing ->
    exists d,
      normalize_path ALLOWED_PATHS cwd root (ListDirectoryRequest.path request) =
        Return d /\
      DirectoryListing.path listing = str_path d /\
      DirectoryListing.total_items listing =
        Z.of_nat (List.length (DirectoryListing.items listing)) /\
      forall info, In info (DirectoryListing.items listing) ->
        exists rel,
          rel <> [] /\ List.length rel <= 11 /\
          (ListDirectoryRequest.recursive request = false -> List.length rel = 1) /\
          reached root request d rel /\
          get_file_info root (d ++ rel) = Return info /\
          FileInfo.path info = str_path (d ++ rel) /\
          FileInfo.name info = last rel "".
Proof.
  intros roots cwd root request listing H. unfold list_directory in H.
  destruct (normalize_path roots cwd root (ListDirectoryRequest.path request))
    as [d|e] eqn:N; [|discriminate].
  exists d. split; [reflexivity|]. cbv [bind] in H.
  destruct (exists_ root d) as [[|]|]; try discriminate. simpl negb in H. cbv iota in H.
  destruct (is_dir root d) as [[|]|]; try discriminate. simpl negb in H. cbv iota in H.
  destruct (add_items_sound root request MAX_LEVEL d []) as [new [E F]].
  destruct (add_items root request MAX_LEVEL d []) as [items [e|]]; [discriminate|].
  inversion H; subst listing; clear H. simpl in *. subst new.
  split; [reflexivity|]. split; [reflexivity|].
  intros info Hin. rewrite Forall_forall in F.
  destruct (F info Hin) as [rel [H1 [H2 [H3 H4]]]].
  exists rel. split; [assumption|]. split; [exact H2|].
  split; [intros R; eapply reached_flat; eauto|].
  split; [assumption|]. split; [assumption|].
  apply get_file_info_Return in H4. destruct H4 as [n [_ ->]]. simpl.
  split; [reflexivity|]. unfold name_of.
  destruct rel as [|c rel] using rev_ind; [congruence|].
  now rewrite app_assoc, !last_snoc.
Qed.

Lemma listing_depth_is_bounded_witness :
  list_directory Example.roots Example.cwd Example.cycle_tree
    (Example.list_request "/workspace" true false) = Return Example.cycle_listing /\
  List.length (DirectoryListing.items Example.cycle_listing) = 11 /\
  exists d,
    normalize_path Example.roots Example.cwd Example.cycle_tree "/workspace" = Return d /\
    DirectoryListing.path Example.cycle_listing = str_path d /\
    DirectoryListing.total_items Example.cycle_listing =
      Z.of_nat (List.length (DirectoryListing.items Example.cycle_listing)) /\
    forall info, In info (DirectoryListing.items Example.cycle_listing) ->
      exists rel,
        rel <> [] /\ List.length rel <= 11 /\
        (true = false -> List.length rel = 1) /\
        reached Example.cycle_tree (Example.list_request "/workspace" true false)
          d rel /\
        get_file_info Example.cycle_tree (d ++ rel) = Return info /\
        FileInfo.path info = str_path (d ++ rel) /\
        FileInfo.name info = last rel "".
Proof.
  split; [reflexivity|]. split; [reflexivity|].
  apply (listing_depth_is_bounded Example.roots Example.cwd Example.cycle_tree
           (Example.list_request "/workspace" true false) Example.cycle_listing).
  reflexivity.
Defined.

(** X13: listing a directory that the server may not read succeeds with
    an empty listing: the permission error of the enumeration is
    swallowed like any other. *)
Theorem unreadable_directory_lists_empty :
  forall ALLOWED_PATHS cwd root request d x es,
    normalize_path ALLOWED_PATHS cwd root (ListDirectoryRequest.path request) =
      Return d ->
    stat root d = Return (Dir false x es) ->
    list_directory ALLOWED_PATHS cwd root request =
    Return {| DirectoryListing.path := str_path d;
              DirectoryListing.items := [];
              DirectoryListing.total_items := 0 |}.
Proof.
  intros roots cwd root request d x es N S.
  unfold list_directory. rewrite N. cbv [bind].
  unfold exists_, is_dir. rewrite !(stat_test_of_stat _ _ _ _ S).
  simpl negb. cbv iota.
  assert (I : iterdir root d = Raise (OSError EACCES (str_path d))).
  { unfold iterdir, os_listdir. unfold stat, os_stat in S.
    destruct (stat_walk root d) as [q n|q nm|e]; try discriminate.
    inversion S; subst n. reflexivity. }
  unfold MAX_LEVEL. simpl add_items. rewrite I. reflexivity.
Qed.

Lemma unreadable_directory_lists_empty_witness :
  list_directory Example.roots Example.cwd Example.tree
    (Example.list_request "/workspace/locked" true true) =
  Return {| DirectoryListing.path := "/workspace/locked";
            DirectoryListing.items := [];
            DirectoryListing.total_items := 0 |}.
Proof.
  apply (unreadable_directory_lists_empty Example.roots Example.cwd Example.tree
           (Example.list_request "/workspace/locked" true true)
           ["workspace"; "locked"] true [("secret", Example.file "s")]);
    reflexivity.
Defined.

(** ** What an operation leaves alone *)

(** A change at [p] leaves every file, link and socket that is not at or
    below [p] as it was. *)
Lemma lookup_put_keeps : forall p n v q m,
  ~ within p q ->
  lookup n q = Some m -> S_ISDIR m = false ->
  lookup (put n p v) q = Some m.
Proof.
  induction p as [|c p IH]; intros n v q m W L T.
  - destruct W. now exists q.
  - destruct n as [b|r x es|tg|]; try exact L.
    destruct q as [|c' q'].
    + simpl in L. inversion L; subst m. discriminate.
    + simpl in L. destruct (assoc c' es) as [n1|] eqn:A; [|discriminate].
      destruct p as [|c2 p2].
      * assert (N : c' <> c).
        { intros ->. apply W. now exists q'. }
        simpl put. destruct v as [v|]; simpl lookup;
          [rewrite assoc_set_entry_other | rewrite assoc_del_entry_other];
          try assumption; now rewrite A.
      * destruct (assoc c es) as [n'|] eqn:Ac.
        2:{ rewrite put_cons_None by (assumption || discriminate).
            simpl. now rewrite A. }
        rewrite (put_cons_Some _ _ _ _ _ _ n') by (assumption || discriminate).
        simpl lookup. destruct (String.eqb_spec c' c) as [->|N].
        -- rewrite assoc_set_entry_same. assert (n1 = n') by congruence. subst n1.
           apply IH; try assumption. intros [rel ->]. apply W. now exists rel.
        -- rewrite assoc_set_entry_other by assumption. now rewrite A.
Qed.

Lemma lookup_None_not_within n p q m :
  lookup n p = None -> lookup n q = Some m -> ~ within p q.
Proof.
  intros Lp Lq [rel ->]. rewrite lookup_app, Lp in Lq. discriminate.
Qed.

Lemma lookup_File_not_within n p q b m :
  lookup n p = Some (File b) -> lookup n q = Some m -> q <> p -> ~ within p q.
Proof.
  intros Lp Lq N [rel ->]. rewrite lookup_app, Lp in Lq.
  destruct rel; [now rewrite app_nil_r in N | discriminate].
Qed.

Section Kept.
Variable q : Path.
Variable m : node.
Hypothesis not_a_directory : S_ISDIR m = false.

Lemma os_mkdir_keeps p root root' r :
  os_mkdir p root = (root', r) ->
  lookup root q = Some m -> lookup root' q = Some m.
Proof.
  unfold os_mkdir. destruct (lstat_walk root p) as [q0 n|q0 nm|e] eqn:W;
    intros H L; inversion H; subst; try assumption.
  apply lookup_put_keeps; try assumption.
  eapply lookup_None_not_within; [|exact L].
  now apply lstat_walk_Missing with (p := p).
Qed.

Lemma mkdir_here_keeps p exist_ok root root' r :
  mkdir_here p exist_ok root = (root', r) ->
  lookup root q = Some m -> lookup root' q = Some m.
Proof.
  unfold mkdir_here. destruct (os_mkdir p root) as [root1 [u|e]] eqn:M; intros H L;
    assert (L1 := os_mkdir_keeps _ _ _ _ M L).
  - now inversion H; subst.
  - destruct (is_FileNotFoundError e); [now inversion H; subst|].
    destruct (is_OSError e); [|now inversion H; subst].
    destruct (negb exist_ok); [now inversion H; subst|].
    destruct (is_dir root1 p) as [[|]|e']; now inversion H; subst.
Qed.

Lemma mkdir_rev_keeps : forall rp parents exist_ok root root' r,
  mkdir_rev rp parents exist_ok root = (root', r) ->
  lookup root q = Some m -> lookup root' q = Some m.
Proof.
  induction rp as [|c rp IH]; intros parents exist_ok root root' r;
    rewrite mkdir_rev_eq;
    destruct (os_mkdir _ root) as [root1 [u|e]] eqn:M; intros H L;
    assert (L1 := os_mkdir_keeps _ _ _ _ M L);
    try (now inversion H; subst).
  all: destruct (is_FileNotFoundError e).
  all: try (destruct (negb parents); [now inversion H; subst|]).
  all: try (now inversion H; subst).
  2:{ destruct (mkdir_rev rp true true root1) as [root2 [u|e']] eqn:M2;
        assert (L2 := IH _ _ _ _ _ M2 L1); [|now inversion H; subst].
      eapply mkdir_here_keeps; eauto. }
  all: destruct (is_OSError e); [|now inversion H; subst];
    destruct (negb exist_ok); [now inversion H; subst|];
    destruct (is_dir root1 _) as [[|]|e']; now inversion H; subst.
Qed.

End Kept.

(** X14: [create_directory], whatever its outcome, leaves every regular
    file, link and socket of the tree where and as it was. *)
Theorem create_directory_keeps_files :
  forall ALLOWED_PATHS cwd raw root root' r q m,
    create_directory ALLOWED_PATHS cwd raw root = (root', r) ->
    lookup root q = Some m -> S_ISDIR m = false ->
    lookup root' q = Some m.
Proof.
  intros roots cwd raw root root' r q m H L T. unfold create_directory in H.
  destruct (normalize_path roots cwd root raw) as [d|e]; [|now inversion H; subst].
  destruct (mkdir d true true root) as [root1 made] eqn:M.
  inversion H; subst root'. unfold mkdir in M.
  eapply mkdir_rev_keeps; eauto.
Qed.

Lemma create_directory_keeps_files_witness :
  lookup (fst (create_directory Example.roots Example.cwd "/workspace/a.txt/sub"
                 Example.tree))
    ["workspace"; "a.txt"] = Some (Example.file "hello").
Proof.
  apply (create_directory_keeps_files Example.roots Example.cwd "/workspace/a.txt/sub"
           Example.tree _
           (snd (create_directory Example.roots Example.cwd "/workspace/a.txt/sub"
                   Example.tree))); reflexivity.
Defined.

(** X15: [write_file], whatever its outcome, leaves every regular file,
    link and socket where and as it was, but the file to which the
    accepted path leads once the call is over: the file that was
    written or emptied. *)
Theorem write_file_keeps_other_files :
  forall ALLOWED_PATHS cwd codecs request root root2 r d q m,
    normalize_path ALLOWED_PATHS cwd root (WriteFileRequest.path request) = Return d ->
    write_file ALLOWED_PATHS cwd codecs request root = (root2, r) ->
    lookup root q = Some m -> S_ISDIR m = false ->
    (forall p n, stat_walk root2 d = Found p n -> q <> p) ->
    lookup root2 q = Some m.
Proof.
  intros roots cwd codecs request root root2 r d q m N H L T Hq.
  unfold write_file in H. rewrite N in H.
  destruct (if WriteFileRequest.create_dirs request
            then mkdir (parent d) true true root else (root, Return tt))
    as [root1 made] eqn:M.
  assert (L1 : lookup root1 q = Some m).
  { destruct (WriteFileRequest.create_dirs request).
    - eapply mkdir_rev_keeps; eauto.
    - now inversion M; subst. }
  destruct made as [u|e]; [|now inversion H; subst].
  destruct (write_text codecs d (WriteFileRequest.content request)
              (WriteFileRequest.encoding request) root1) as [root3 written] eqn:W.
  inversion H; subst root2; clear H.
  unfold write_text in W.
  destruct (os_open_w d root1) as [root' [q'|e]] eqn:O.
  2:{ assert (root' = root1).
      { unfold os_open_w in O.
        destruct (stat_walk root1 d) as [q0 [b|r0 x es|tg|]|q0 nm|e0];
          now inversion O. }
      subst root'. now inversion W; subst. }
  destruct (os_open_w_Return _ _ _ _ O) as [R [-> Wk]].
  assert (R1 : replaceable (put root1 q' (Some (File []))) q')
    by (right; exists []; eapply stat_walk_Found; eauto).
  assert (K : q <> q' -> ~ within q' q).
  { intros Nq. destruct R as [R|[b R]].
    - eapply lookup_None_not_within; eauto.
    - eapply lookup_File_not_within; eauto. }
  assert (Keep : forall root4,
            stat_walk root4 d = Found q' (File []) \/
            (exists b, stat_walk root4 d = Found q' (File b)) ->
            root3 = root4 -> q <> q').
  { intros root4 [S|[b S]] ->; eapply Hq; eauto. }
  destruct (codecs (WriteFileRequest.encoding request)) as [c|].
  2:{ inversion W; subst root3. apply lookup_put_keeps; auto.
      apply K. eapply Keep; [left; exact Wk | reflexivity]. }
  destruct (encode c (WriteFileRequest.content request)) as [b|];
    inversion W; subst root3.
  - assert (S2 := stat_walk_put_end _ q' R1 (File b) d (fresh_File b)
                    (or_introl (ex_intro _ _ Wk))).
    assert (Nq : q <> q') by (eapply Hq; eauto).
    apply lookup_put_keeps; auto. apply lookup_put_keeps; auto.
  - apply lookup_put_keeps; auto.
    apply K. eapply Keep; [left; exact Wk | reflexivity].
Qed.

Lemma write_file_keeps_other_files_witness :
  lookup (fst (write_file Example.roots Example.cwd python_codecs
                 (Example.write_request "/workspace/new/b.txt" (text_of_string "b")
                    "utf-8" true) Example.tree))
    ["workspace"; "a.txt"] = Some (Example.file "hello").
Proof.
  apply (write_file_keeps_other_files Example.roots Example.cwd python_codecs
           (Example.write_request "/workspace/new/b.txt" (text_of_string "b")
              "utf-8" true) Example.tree _
           (snd (write_file Example.roots Example.cwd python_codecs
                   (Example.write_request "/workspace/new/b.txt" (text_of_string "b")
                      "utf-8" true) Example.tree))
           ["workspace"; "new"; "b.txt"]);
    try reflexivity.
  intros p n H. vm_compute in H. inversion H. discriminate.
Defined.

(** The file written through a link that leaves the root lies outside
    the root. *)
Example write_through_a_link_loop :
  lookup (fst (write_file Example.roots Example.cwd python_codecs
                 (Example.write_request "/workspace/loop/../out/passwd"
                    (text_of_string "x") "utf-8" false) Example.escape_tree))
    ["etc"; "passwd"] = Some (Example.file "x").
Proof. reflexivity. Qed.

(** X16: [delete_path], whatever its outcome and also when a recursive
    removal stops half-way, leaves every regular file, link and socket
    where and as it was that is not at or below the object that the
    accepted path names, the object found by [lstat] of it. *)
Theorem delete_path_keeps_outside :
  forall ALLOWED_PATHS cwd request root root' r d q m,
    normalize_path ALLOWED_PATHS cwd root (DeletePathRequest.path request) = Return d ->
    delete_path ALLOWED_PATHS cwd request root = (root', r) ->
    (forall p n, lstat_walk root d = Found p n -> ~ within p q) ->
    lookup root q = Some m -> S_ISDIR m = false ->
    lookup root' q = Some m.
Proof.
  intros roots cwd request root root' r d q m N H W L T.
  unfold delete_path in H. rewrite N in H.
  destruct (exists_ root d) as [[|]|e]; try (injection H as <- _; assumption).
  destruct (is_file root d) as [[|]|e].
  - unfold unlink, os_unlink in H.
    destruct (lstat_walk root d) as [q0 [b|r0 x es|tg|]|q0 nm|e] eqn:K;
      try (injection H as <- _; assumption);
      injection H as <- _;
      exact (lookup_put_keeps q0 root None q m (W _ _ eq_refl) L T).
  - destruct (is_dir root d) as [[|]|e]; try (injection H as <- _; assumption).
    destruct (DeletePathRequest.recursive request).
    + unfold rmtree in H.
      destruct (lstat_walk root d) as [q0 [b|r0 x es|tg|]|q0 nm|e] eqn:K;
        try (injection H as <- _; assumption).
      destruct (negb r0); [injection H as <- _; assumption|].
      assert (W0 := W _ _ eq_refl).
      destruct (rmtree_safe_fd d (Dir r0 x es)) as [d' [e|]].
      * injection H as <- _. now apply lookup_put_keeps.
      * destruct q0 as [|c q0]; [destruct W0; now exists q|].
        injection H as <- _. exact (lookup_put_keeps (c :: q0) root None q m W0 L T).
    + unfold rmdir, os_rmdir in H.
      destruct (lstat_walk root d) as [q0 [b|r0 x es|tg|]|q0 nm|e] eqn:K;
        try (injection H as <- _; assumption);
        try (destruct q0; injection H as <- _; assumption).
      assert (W0 := W _ _ eq_refl).
      destruct q0 as [|c q0]; [destruct W0; now exists q|].
      destruct es; injection H as <- _; [|assumption].
      exact (lookup_put_keeps (c :: q0) root None q m W0 L T).
  - injection H as <- _; assumption.
Qed.

Lemma delete_path_keeps_outside_witness :
  lookup (fst (delete_path Example.roots Example.cwd
                 (Example.delete_request "/workspace/docs" true) Example.tree))
    ["workspace"; "a.txt"] = Some (Example.file "hello").
Proof.
  apply (delete_path_keeps_outside Example.roots Example.cwd
           (Example.delete_request "/workspace/docs" true) Example.tree _
           (snd (delete_path Example.roots Example.cwd
                   (Example.delete_request "/workspace/docs" true) Example.tree))
           ["workspace"; "docs"]); try reflexivity.
  intros p n H. vm_compute in H. inversion H. intros [rel E]. discriminate E.
Defined.

(** A file deleted through a link that leaves the root lies outside the
    root. *)
Example delete_through_a_link_loop :
  lookup Example.escape_tree ["etc"; "passwd"] = Some (Example.file "root:x:0:0") /\
  delete_path Example.roots Example.cwd
    (Example.delete_request "/workspace/loop/../out/passwd" false) Example.escape_tree =
  (put Example.escape_tree ["etc"; "passwd"] None,
   Return (Some {| SuccessResponse.success := true;
                   SuccessResponse.message := "File deleted: /workspace/out/passwd" |})).
Proof. split; reflexivity. Qed.

(** ** Writing *)

(** Where a walk ends or misses only its last component, the walk of the
    parent ends on a searchable directory. *)
Lemma pwalk_parent : forall d n cur,
  d <> [] ->
  (exists q m, pwalk n cur d = Found q m) \/
  (exists q nm, pwalk n cur d = Missing q nm) ->
  exists r es,
    pwalk n cur (removelast d) = Found (cur ++ removelast d) (Dir r true es).
Proof.
  induction d as [|c d IH]; intros n cur N H; [now destruct N|].
  destruct n as [b|r x es|tg|];
    try (destruct H as [[q [m H]]|[q [nm H]]]; discriminate).
  destruct x; [|destruct H as [[q [m H]]|[q [nm H]]]; discriminate].
  rewrite pwalk_cons in H.
  destruct d as [|c' d'].
  - exists r, es. simpl. now rewrite app_nil_r.
  - change (removelast (c :: c' :: d')) with (c :: removelast (c' :: d')).
    rewrite pwalk_cons.
    destruct (assoc c es) as [n'|].
    + destruct (IH n' (cur ++ [c])) as [r' [es' K]]; [discriminate | exact H |].
      exists r', es'. rewrite K. now rewrite <- app_assoc.
    + destruct H as [[q [m H]]|[q [nm H]]]; discriminate.
Qed.

Lemma is_dir_parent root d :
  d <> [] ->
  clean false root d = true ->
  (exists q m, pwalk root [] d = Found q m) \/
  (exists q nm, pwalk root [] d = Missing q nm) ->
  is_dir root (parent d) = Return true.
Proof.
  intros N C H. destruct (pwalk_parent d root [] N H) as [r [es K]].
  rewrite (is_dir_of_pwalk root (parent d) _ _ (clean_parent _ _ C) K). reflexivity.
Qed.

Section WalkPrefix.
Variable root : node.





End WalkPrefix.





Example write_without_parent_message :
  snd (write_file Example.roots Example.cwd python_codecs
         (Example.write_request "/workspace/new/b.txt" (text_of_string "b") "utf-8" false)
         Example.tree) =
  Raise (HTTPException 500
           "Error writing file: [Errno 2] No such file or directory: '/workspace/new/b.txt'").
Proof. reflexivity. Qed.

(** A directory made where nothing was leaves what is missing elsewhere
    missing. *)
Lemma lookup_put_None : forall p n q,
  lookup n q = None -> q <> p ->
  lookup (put n p (Some (Dir true true []))) q = None.
Proof.
  induction p as [|c p IH]; intros n q L N.
  - destruct q as [|c' q']; [now destruct N | reflexivity].
  - destruct n as [b|r x es|tg|]; try exact L.
    destruct q as [|c' q']; [discriminate L|].
    simpl in L.
    destruct p as [|c2 p2].
    + simpl put. simpl lookup. destruct (String.eqb_spec c' c) as [->|Nc].
      * rewrite assoc_set_entry_same.
        destruct q' as [|c3 q3]; [now destruct N | reflexivity].
      * now rewrite assoc_set_entry_other.
    + destruct (assoc c es) as [n'|] eqn:Ac.
      2:{ rewrite put_cons_None by (assumption || discriminate). exact L. }
      rewrite (put_cons_Some _ _ _ _ _ _ n') by (assumption || discriminate).
      simpl lookup. destruct (String.eqb_spec c' c) as [->|Nc].
      * rewrite assoc_set_entry_same. rewrite Ac in L.
        apply IH; [assumption | congruence].
      * now rewrite assoc_set_entry_other.
Qed.

Lemma os_mkdir_keeps_None p root root' r q :
  clean false root p = true ->
  os_mkdir p root = (root', r) ->
  lookup root q = None -> q <> p -> lookup root' q = None.
Proof.
  intros C M L N.
  destruct (os_mkdir_clean _ _ _ _ C M) as [[_ [-> _]]|[e [_ ->]]]; [|assumption].
  now apply lookup_put_None.
Qed.

Lemma mkdir_here_keeps_None p exist_ok root root' r q :
  clean false root p = true ->
  mkdir_here p exist_ok root = (root', r) ->
  lookup root q = None -> q <> p -> lookup root' q = None.
Proof.
  intros C. unfold mkdir_here.
  destruct (os_mkdir p root) as [root1 [u|e]] eqn:M; intros H L N;
    assert (L1 := os_mkdir_keeps_None _ _ _ _ _ C M L N).
  - now inversion H; subst.
  - destruct (is_FileNotFoundError e); [now inversion H; subst|].
    destruct (is_OSError e); [|now inversion H; subst].
    destruct (negb exist_ok); [now inversion H; subst|].
    destruct (is_dir root1 p) as [[|]|e']; now inversion H; subst.
Qed.

Lemma mkdir_rev_keeps_None q : forall rp parents exist_ok root root' r,
  clean false root (rev rp) = true ->
  mkdir_rev rp parents exist_ok root = (root', r) ->
  lookup root q = None -> List.length rp < List.length q ->
  lookup root' q = None.
Proof.
  assert (Nq : forall l : list string, List.length l < List.length q -> q <> rev l).
  { intros l Len E. rewrite E, length_rev in Len. exact (Nat.lt_irrefl _ Len). }
  induction rp as [|c rp IH]; intros parents exist_ok root root' r C;
    rewrite mkdir_rev_eq;
    destruct (os_mkdir _ root) as [root1 [u|e]] eqn:M; intros H L Len;
    assert (L1 := os_mkdir_keeps_None _ _ _ _ _ C M L (Nq _ Len));
    try (now inversion H; subst).
  all: destruct (is_FileNotFoundError e).
  all: try (destruct (negb parents); [now inversion H; subst|]).
  all: try (now inversion H; subst).
  2:{ assert (E1 := os_mkdir_extends _ _ _ _ M).
      assert (C1 : clean false root1 (rev rp) = true).
      { eapply extends_clean; [exact E1|]. simpl in C. now apply clean_app in C. }
      destruct (mkdir_rev rp true true root1) as [root2 [u|e']] eqn:M2;
        assert (L2 := IH _ _ _ _ _ C1 M2 L1 (Nat.lt_trans _ _ _ (Nat.lt_succ_diag_r _) Len));
        [|now inversion H; subst].
      assert (E2 := mkdir_rev_extends _ _ _ _ _ _ M2).
      eapply mkdir_here_keeps_None; [| exact H | assumption | now apply Nq].
      eapply extends_clean; [exact E2|]. eapply extends_clean; eauto. }
  all: destruct (is_OSError e); [|now inversion H; subst];
    destruct (negb exist_ok); [now inversion H; subst|];
    destruct (is_dir root1 _) as [[|]|e']; now inversion H; subst.
Qed.

(** X19: with [create_dirs], writing a file where nothing exists yet,
    below what a directory can be made in, succeeds: the missing parent
    directories are made, the file holds the encoded content, and the
    answer describes it. *)
Theorem write_file_creates_parents_and_file :
  forall ALLOWED_PATHS cwd codecs request root d c b,
    clean false root cwd = true ->
    normalize_path ALLOWED_PATHS cwd root (WriteFileRequest.path request) = Return d ->
    WriteFileRequest.create_dirs request = true ->
    creatable root d = true ->
    lookup root d = None ->
    codecs (WriteFileRequest.encoding request) = Some c ->
    encode c (WriteFileRequest.content request) = Some b ->
    exists root2,
      write_file ALLOWED_PATHS cwd codecs request root =
        (root2,
         Return {| WriteFileResponse.success := true;
                   WriteFileResponse.message :=
                     "File written successfully: " ++ str_path d;
                   WriteFileResponse.file_info := info_of d (File b) |}) /\
      stat root2 d = Return (File b) /\
      is_dir root2 (parent d) = Return true.
Proof.
  intros roots cwd codecs request root d c b C N CD Cr L Hc He.
  assert (Cd := normalize_path_creatable _ _ _ _ _ C N Cr).
  assert (Dn : d <> []) by (intros ->; discriminate).
  assert (Dp : d = parent d ++ [last d ""]) by (now apply app_removelast_last).
  assert (Crp : creatable root (parent d) = true).
  { apply creatable_app with (q := [last d ""]). now rewrite <- Dp. }
  destruct (mkdir_rev_creatable (rev (parent d)) root) as [root1 [M K]];
    try (rewrite rev_involutive; (now apply clean_parent) || assumption).
  assert (E1 := mkdir_rev_extends _ _ _ _ _ _ M).
  assert (C1 : clean false root1 d = true) by (eapply extends_clean; eauto).
  assert (I1 : is_dir root1 (parent d) = Return true).
  { rewrite <- (rev_involutive (parent d)).
    eapply mkdir_rev_is_dir; [|exact M]. rewrite rev_involutive. now apply clean_parent. }
  assert (L1 : lookup root1 d = None).
  { eapply mkdir_rev_keeps_None; [| exact M | assumption |].
    - rewrite rev_involutive. now apply clean_parent.
    - rewrite length_rev. rewrite Dp at 2. rewrite length_app. simpl. lia. }
  assert (W : exists q nm, pwalk root1 [] d = Missing q nm /\ q ++ [nm] = d).
  { assert (K1 := creatable_pwalk d root1 [] (K _ Cr)).
    destruct (pwalk root1 [] d) as [q m|q nm|e] eqn:W.
    - apply pwalk_Found in W. destruct W as [_ W]. congruence.
    - exists q, nm. split; [reflexivity|]. now apply pwalk_Missing in W.
    - exfalso. subst e.
      unfold is_dir, stat_test, stat, os_stat in I1.
      rewrite stat_walk_clean in I1 by (now apply clean_parent).
      destruct (pwalk root1 [] (parent d)) as [q m|q nm|e] eqn:Wp;
        [| discriminate | destruct e; discriminate].
      assert (Wp' := Wp). apply pwalk_Found in Wp'. destruct Wp' as [-> Lp].
      destruct m as [b0|r x es|tg|]; try discriminate.
      rewrite Dp in W.
      rewrite (pwalk_app (parent d) [last d ""] root1 [] (Dir r x es)) in W;
        [| exact Lp | now apply clean_parent | exact Wp].
      simpl in W. destruct x; [|discriminate].
      simpl in W. destruct (assoc (last d "") es) as [n'|] eqn:A; [|discriminate].
      destruct (is_nil (A := string) []); discriminate. }
  destruct W as [q [nm [W Eq]]].
  assert (O : os_open_w d root1 = (put root1 d (Some (File [])), Return d)).
  { unfold os_open_w. rewrite stat_walk_clean, W by assumption. now rewrite Eq. }
  destruct (write_text codecs d (WriteFileRequest.content request)
              (WriteFileRequest.encoding request) root1) as [root2 written] eqn:T.
  assert (T' := T). unfold write_text in T'. rewrite O, Hc, He in T'.
  injection T' as <- <-. 
  destruct (write_text_clean codecs root1 d _ _ _ _ C1 T) as [c' [b' [Hc' [He' [_ S2]]]]].
  assert (c' = c) by congruence. subst c'. assert (b' = b) by congruence. subst b'.
  eexists. split; [|split; [exact S2|]].
  - unfold write_file. rewrite N, CD. unfold mkdir. rewrite M, T.
    cbv [bind try_except]. rewrite (get_file_info_of_stat _ _ _ S2). reflexivity.
  - apply is_dir_parent; auto.
    + eapply extends_clean; [|exact C1].
      apply extends_put; [|apply fresh_File|].
      * apply extends_put; [apply extends_refl | apply fresh_File | now left].
      * right. exists []. apply lookup_of_stat.
        -- apply clean_put; auto using fresh_File. now left.
        -- apply stat_after_put; auto using fresh_File; [now left | right; eauto].
    + left. exists d, (File b). apply stat_clean; [|exact S2].
      eapply extends_clean; [|exact C1].
      apply extends_put; [|apply fresh_File|].
      * apply extends_put; [apply extends_refl | apply fresh_File | now left].
      * right. exists []. apply lookup_of_stat.
        -- apply clean_put; auto using fresh_File. now left.
        -- apply stat_after_put; auto using fresh_File; [now left | right; eauto].
Qed.

Lemma write_file_creates_parents_and_file_witness :
  exists root2,
    write_file Example.roots Example.cwd python_codecs
      (Example.write_request "/workspace/new/deep/b.txt" (text_of_string "b")
         "utf-8" true) Example.tree =
      (root2,
       Return {| WriteFileResponse.success := true;
                 WriteFileResponse.message :=
                   "File written successfully: " ++
                   str_path ["workspace"; "new"; "deep"; "b.txt"];
                 WriteFileResponse.file_info :=
                   info_of ["workspace"; "new"; "deep"; "b.txt"]
                     (File (bytes_of_string "b")) |}) /\
    stat root2 ["workspace"; "new"; "deep"; "b.txt"] =
      Return (File (bytes_of_string "b")) /\
    is_dir root2 (parent ["workspace"; "new"; "deep"; "b.txt"]) = Return true.
Proof.
  apply (write_file_creates_parents_and_file Example.roots Example.cwd python_codecs
           (Example.write_request "/workspace/new/deep/b.txt" (text_of_string "b")
              "utf-8" true) Example.tree ["workspace"; "new"; "deep"; "b.txt"] utf8);
    reflexivity.
Defined.

(** ** Deleting *)

(** X20: when the accepted path names a regular file, or an empty
    directory and [recursive] is not set (the object itself, not a link
    to it, and not the root of the tree), [delete_path] removes it from
    the place where it is; the answer names what was deleted and the
    path no longer exists. *)
Theorem delete_path_removes :
  forall ALLOWED_PATHS cwd request root d q n,
    normalize_path ALLOWED_PATHS cwd root (DeletePathRequest.path request) = Return d ->
    lstat_walk root d = Found q n ->
    q <> [] ->
    (exists b, n = File b) \/
    ((exists r x, n = Dir r x []) /\ DeletePathRequest.recursive request = false) ->
    delete_path ALLOWED_PATHS cwd request root =
      (put root q None,
       Return (Some {| SuccessResponse.success := true;
                       SuccessResponse.message :=
                         (if S_ISREG n then "File deleted: " else "Directory deleted: ")
                         ++ str_path d |})) /\
    exists_ (put root q None) d = Return false.
Proof.
  intros roots cwd request root d q n N L Nq H.
  assert (Hn : forall t, n <> Symlink t)
    by (destruct H as [[b ->]|[[r [x ->]] _]]; discriminate).
  assert (S : stat root d = Return n).
  { unfold stat, os_stat, stat_walk. unfold lstat_walk in L.
    now rewrite (namei_Found_follow _ _ _ _ _ _ L Hn). }
  split; [|eapply exists_after_put_None; eauto].
  unfold delete_path. rewrite N.
  unfold exists_, is_file, is_dir. rewrite !(stat_test_of_stat _ _ _ _ S).
  destruct H as [[b ->]|[[r [x ->]] R]].
  - simpl S_ISREG. cbv iota. unfold unlink, os_unlink. now rewrite L.
  - simpl S_ISREG. simpl S_ISDIR. cbv iota. rewrite R.
    unfold rmdir, os_rmdir. rewrite L. now destruct q.
Qed.

Lemma delete_path_removes_witness :
  delete_path Example.roots Example.cwd
    (Example.delete_request "/workspace/empty" false) Example.tree =
    (put Example.tree ["workspace"; "empty"] None,
     Return (Some {| SuccessResponse.success := true;
                     SuccessResponse.message := "Directory deleted: /workspace/empty" |}))
  /\ exists_ (put Example.tree ["workspace"; "empty"] None) ["workspace"; "empty"] =
     Return false.
Proof.
  apply (delete_path_removes Example.roots Example.cwd
           (Example.delete_request "/workspace/empty" false) Example.tree
           ["workspace"; "empty"] ["workspace"; "empty"] (Dir true true []));
    try reflexivity.
  - discriminate.
  - right. split; [now exists true, true | reflexivity].
Defined.

Example delete_file_ignores_recursive :
  delete_path Example.roots Example.cwd
    (Example.delete_request "/workspace/a.txt" true) Example.tree =
  (put Example.tree ["workspace"; "a.txt"] None,
   Return (Some {| SuccessResponse.success := true;
                   SuccessResponse.message := "File deleted: /workspace/a.txt" |})).
Proof. reflexivity. Qed.

(** ** What was made can be asked for *)

(** What [mkdir] has made, or accepted as existing, is a directory,
    wherever the path leads. *)
Lemma os_mkdir_makes_dir root p root' :
  os_mkdir p root = (root', Return tt) -> is_dir root' p = Return true.
Proof.
  unfold os_mkdir.
  destruct (lstat_walk root p) as [q n|q nm|e] eqn:W;
    intros H; inversion H; subst; clear H.
  assert (W' : stat_walk root p = Missing q nm) by (now apply namei_Missing_follow).
  assert (R : replaceable root (q ++ [nm]))
    by (left; eapply stat_walk_Missing; eauto).
  unfold is_dir, stat_test, stat, os_stat.
  rewrite (stat_walk_put_end root (q ++ [nm]) R (Dir true true []) p fresh_Dir);
    [reflexivity|]. right. eauto.
Qed.

Lemma mkdir_here_makes_dir p exist_ok root root' :
  mkdir_here p exist_ok root = (root', Return tt) -> is_dir root' p = Return true.
Proof.
  unfold mkdir_here. destruct (os_mkdir p root) as [root1 [[]|e]] eqn:M; intros H.
  - inversion H; subst. eapply os_mkdir_makes_dir; eauto.
  - destruct (is_FileNotFoundError e); [discriminate|].
    destruct (is_OSError e); [|discriminate].
    destruct (negb exist_ok); [discriminate|].
    destruct (is_dir root1 p) as [[|]|e'] eqn:D; inversion H; subst. exact D.
Qed.

Lemma mkdir_rev_makes_dir : forall rp parents exist_ok root root',
  mkdir_rev rp parents exist_ok root = (root', Return tt) ->
  is_dir root' (rev rp) = Return true.
Proof.
  intros rp parents exist_ok root root'. rewrite mkdir_rev_eq.
  destruct (os_mkdir (rev rp) root) as [root1 [[]|e]] eqn:M; intros H.
  - inversion H; subst. eapply os_mkdir_makes_dir; eauto.
  - destruct (is_FileNotFoundError e).
    + destruct rp as [|c rp]; [discriminate|].
      destruct (negb parents); [discriminate|].
      destruct (mkdir_rev rp true true root1) as [root2 [u|e']]; [|discriminate].
      eapply mkdir_here_makes_dir; eauto.
    + destruct (is_OSError e); [|discriminate].
      destruct (negb exist_ok); [discriminate|].
      destruct (is_dir root1 (rev rp)) as [[|]|e'] eqn:D; inversion H; subst. exact D.
Qed.

(** X21: after a successful [write_file], asking for the file
    information of the same path returns the Entry that the call has
    returned, of type [file]. *)
Theorem file_info_after_write :
  forall ALLOWED_PATHS cwd codecs root request root2 response,
    clean false root cwd = true ->
    write_file ALLOWED_PATHS cwd codecs request root = (root2, Return response) ->
    get_file_info_endpoint ALLOWED_PATHS cwd root2 (WriteFileRequest.path request) =
      Return (WriteFileResponse.file_info response) /\
    FileInfo.type (WriteFileResponse.file_info response) = "file".
Proof.
  intros roots cwd codecs root request root2 response C W.
  destruct (write_file_success codecs roots cwd root request root2 response W)
    as [d [c [b [N [_ [_ [E [S I]]]]]]]].
  rewrite I. split; [|reflexivity].
  unfold get_file_info_endpoint.
  rewrite (extends_normalize_path_stat _ _ _ _ _ _ E C N)
    by (intros f H; unfold stat in S; rewrite S in H; discriminate).
  cbv [bind].
  unfold exists_. rewrite (stat_test_of_stat _ _ _ _ S). simpl negb. cbv iota.
  now apply get_file_info_of_stat.
Qed.

Lemma file_info_after_write_witness :
  get_file_info_endpoint Example.roots Example.cwd
    (fst (write_file Example.roots Example.cwd python_codecs
            (Example.write_request "/workspace/new/b.txt" (text_of_string "b")
               "utf-8" true) Example.tree))
    "/workspace/new/b.txt" =
    Return (info_of ["workspace"; "new"; "b.txt"] (File (bytes_of_string "b"))) /\
  FileInfo.type (info_of ["workspace"; "new"; "b.txt"] (File (bytes_of_string "b"))) =
    "file".
Proof.
  apply (file_info_after_write Example.roots Example.cwd python_codecs Example.tree
           (Example.write_request "/workspace/new/b.txt" (text_of_string "b")
              "utf-8" true) _
           {| WriteFileResponse.success := true;
              WriteFileResponse.message := "File written successfully: /workspace/new/b.txt";
              WriteFileResponse.file_info :=
                info_of ["workspace"; "new"; "b.txt"] (File (bytes_of_string "b")) |});
    reflexivity.
Defined.

(** X22: after a successful [create_directory], asking for the file
    information of the same path returns the Entry that the call has
    returned, of type [directory]. *)
Theorem file_info_after_create :
  forall ALLOWED_PATHS cwd root raw root1 response,
    clean false root cwd = true ->
    create_directory ALLOWED_PATHS cwd raw root = (root1, Return response) ->
    get_file_info_endpoint ALLOWED_PATHS cwd root1 raw =
      Return (WriteFileResponse.file_info response) /\
    FileInfo.type (WriteFileResponse.file_info response) = "directory".
Proof.
  intros roots cwd root raw root1 response C H.
  unfold create_directory in H.
  destruct (normalize_path roots cwd root raw) as [d|e] eqn:N;
    [|inversion H; discriminate].
  destruct (mkdir d true true root) as [root' made] eqn:M.
  injection H as -> H.
  assert (E := mkdir_rev_extends _ _ _ _ _ _ M).
  destruct made as [[]|e]; [|discriminate]. cbv [bind try_except] in H.
  destruct (get_file_info root1 d) as [info|e] eqn:G; [|discriminate].
  injection H as <-. simpl WriteFileResponse.file_info.
  destruct (get_file_info_Return _ _ _ G) as [n [S ->]].
  assert (D : is_dir root1 d = Return true).
  { unfold mkdir in M. apply mkdir_rev_makes_dir in M.
    now rewrite rev_involutive in M. }
  unfold is_dir in D. rewrite (stat_test_of_stat _ _ _ _ S) in D.
  injection D as D.
  split.
  - unfold get_file_info_endpoint.
    rewrite (extends_normalize_path_stat _ _ _ _ _ _ E C N)
      by (intros f H; unfold stat in S; rewrite S in H; discriminate).
    cbv [bind].
    unfold exists_. rewrite (stat_test_of_stat _ _ _ _ S). simpl negb. cbv iota.
    now apply get_file_info_of_stat.
  - unfold info_of. simpl. now rewrite D.
Qed.

Lemma file_info_after_create_witness :
  get_file_info_endpoint Example.roots Example.cwd
    (fst (create_directory Example.roots Example.cwd "/workspace/new/sub" Example.tree))
    "/workspace/new/sub" =
    Return (info_of ["workspace"; "new"; "sub"] (Dir true true [])) /\
  FileInfo.type (info_of ["workspace"; "new"; "sub"] (Dir true true [])) = "directory".
Proof.
  apply (file_info_after_create Example.roots Example.cwd Example.tree
           "/workspace/new/sub" _
           {| WriteFileResponse.success := true;
              WriteFileResponse.message := "Directory created: /workspace/new/sub";
              WriteFileResponse.file_info :=
                info_of ["workspace"; "new"; "sub"] (Dir true true []) |});
    reflexivity.
Defined.
